(** * lwthread: a shallow embedding of the M:N cooperative threading runtime

    The development follows the C sources file by file:
    - [queue.c]     the intrusive FIFO ready queue,
    - [thread.c]    the task object and its entry trampoline,
    - [scheduler.c] the scheduler object and the worker loop,
    - [lwthread.c]  the public operations (create, stop, spawn, yield,
                    join, sleep).

    C memory is modelled as typed heaps ([gmap]s from addresses to structs),
    thread-local storage as maps keyed by the calling OS thread, and every
    C function as a function in a small reader/state/error monad [M]:
    the reader component is the calling OS thread, the state is the
    [world], and [None] is a fault (dereference of an invalid pointer, use
    of an uninitialised or already locked mutex).  Calls into the C
    library and the writes the specification talks about are logged, in
    program order, in the [trace] of the world.

    The C type [int] is modelled by [Z] without wrap-around: signed
    overflow is undefined in C, and the counters concerned ([count],
    [next_thread_id]) only move by one per operation.  What is stated
    about such a counter over a whole run is stated under the bound
    [INT_MAX], below which [Z] and [int] agree. *)

From stdpp Require Import gmap list.
From Stdlib Require Import ZArith Lia.

(** ** Data model *)

Definition ptr := nat.
Definition NULL : ptr := 0.

(** [lwt_state_t] of thread.h *)
Inductive lwt_state_t :=
| LWT_STATE_NEW
| LWT_STATE_READY
| LWT_STATE_RUNNING
| LWT_STATE_BLOCKED
| LWT_STATE_FINISHED.

Global Instance lwt_state_eq_dec : EqDecision lwt_state_t.
Proof. solve_decision. Defined.

(** The part of [ucontext_t] the runtime itself writes. *)
Record ucontext_t := Ucontext {
  uc_ss_sp : ptr;
  uc_ss_size : Z;
  uc_link : ptr;
  uc_entry : bool   (* [makecontext] installed [lwt_thread_start] *)
}.

Definition ucontext_zero : ucontext_t := Ucontext NULL 0 NULL false.

(** [struct lwt_thread] of thread.h *)
Record lwt_thread := Thread {
  context : ucontext_t;
  stack : ptr;
  stack_size : Z;
  state : lwt_state_t;
  func : ptr;
  arg : ptr;
  next : ptr;
  waiting : ptr;
  scheduler : ptr;
  id : Z
}.

(** A [pthread_mutex_t] / [pthread_cond_t] as the runtime can observe it. *)
Inductive mutex_t := MxNone | MxUnlocked | MxLocked.
Inductive cond_t := CvNone | CvReady.

Global Instance mutex_eq_dec : EqDecision mutex_t.
Proof. solve_decision. Defined.
Global Instance cond_eq_dec : EqDecision cond_t.
Proof. solve_decision. Defined.

(** [lwt_thread_queue_t] of queue.h *)
Record lwt_thread_queue_t := Queue {
  head : ptr;
  tail : ptr;
  qmutex : mutex_t;
  count : Z
}.

Definition LWT_MAX_WORKERS : Z := 64.
Definition LWT_DEFAULT_STACK_SIZE : Z := 64 * 1024.


(** [struct lwt_scheduler] of scheduler.h.  [ready_queue] is its first
    member, so a pointer to the queue and a pointer to the scheduler are
    the same address. *)
Record lwt_scheduler := Scheduler {
  ready_queue : lwt_thread_queue_t;
  workers : list nat;          (* pthread_t handles *)
  worker_ids : list Z;
  num_workers : Z;
  running : list ptr;
  mutex : mutex_t;
  cond : cond_t;
  running_flag : Z;
  next_thread_id : Z
}.

(** Execution contexts named by [swapcontext]. *)
Inductive ctx :=
| CtxThread (t : ptr)
| CtxMain (s : ptr) (w : Z).

(** What the trace records. *)
Inductive event :=
| EvLock (s : ptr)                 (* pthread_mutex_lock(&s->mutex) *)
| EvUnlock (s : ptr)
| EvQLock (q : ptr)                (* pthread_mutex_lock(&q->mutex) *)
| EvQUnlock (q : ptr)
| EvSignal (s : ptr)               (* pthread_cond_signal(&s->cond) *)
| EvBroadcast (s : ptr)
| EvSwap (from to : ctx)           (* swapcontext(from, to) *)
| EvNanosleep (sec nsec : Z)       (* nanosleep(&{sec,nsec}, _) *)
| EvClock                          (* clock_gettime *)
| EvCall (f a : ptr)               (* thread->func(thread->arg) *)
| EvState (t : ptr) (st : lwt_state_t)   (* t->state = st *)
| EvPush (q t : ptr)               (* lwt_queue_push_locked(q, t) *)
| EvPop (q t : ptr)                (* lwt_queue_pop_locked(q) returned t *)
| EvWaiting (t j : ptr)            (* t->waiting = j *)
| EvRunning (s : ptr) (w : Z) (t : ptr)  (* s->running[w] = t *)
| EvSpawnOS (s : ptr) (i : nat) (o : nat) (* pthread_create of worker i *)
| EvJoinOS (o : nat).              (* pthread_join *)

(** Answers of the environment to the calls that can fail. *)
Record oracle := Oracle {
  mallocs : list ptr;     (* results of the coming malloc calls; none left: NULL *)
  syscalls : list Z;      (* results of the coming pthread_*_init / getcontext
                             calls; none left: 0 (success) *)
  clock : Z * Z           (* (tv_sec, tv_nsec) read by clock_gettime *)
}.

Record world := World {
  threads : gmap ptr lwt_thread;
  scheds : gmap ptr lwt_scheduler;
  live : gset ptr;               (* outstanding malloc blocks *)
  tls_thread : gmap nat ptr;     (* thread.c: __thread current_thread *)
  tls_worker : gmap nat Z;       (* scheduler.c: __thread current_worker_id *)
  os_threads : nat;              (* number of pthreads created so far *)
  env : oracle;
  trace : list event
}.

(** ** The monad of C functions *)

Definition M (A : Type) : Type := nat → world → option (A * world).

Global Instance M_ret : MRet M := λ A a _ σ, Some (a, σ).
Global Instance M_bind : MBind M := λ A B k m me σ,
  match m me σ with
  | Some (a, σ') => k a me σ'
  | None => None
  end.

Definition fault {A} : M A := λ _ _, None.
Definition get : M world := λ _ σ, Some (σ, σ).
Definition put (σ : world) : M unit := λ _ _, Some ((), σ).
Definition self_os : M nat := λ me σ, Some (me, σ).
Definition lift {A} (o : option A) : M A := λ _ σ, (λ a, (a, σ)) <$> o.

Definition set_threads (h : gmap ptr lwt_thread) (σ : world) : world :=
  World h (scheds σ) (live σ) (tls_thread σ) (tls_worker σ) (os_threads σ) (env σ) (trace σ).
Definition set_scheds (h : gmap ptr lwt_scheduler) (σ : world) : world :=
  World (threads σ) h (live σ) (tls_thread σ) (tls_worker σ) (os_threads σ) (env σ) (trace σ).
Definition set_live (l : gset ptr) (σ : world) : world :=
  World (threads σ) (scheds σ) l (tls_thread σ) (tls_worker σ) (os_threads σ) (env σ) (trace σ).
Definition set_tls_thread (m : gmap nat ptr) (σ : world) : world :=
  World (threads σ) (scheds σ) (live σ) m (tls_worker σ) (os_threads σ) (env σ) (trace σ).
Definition set_tls_worker (m : gmap nat Z) (σ : world) : world :=
  World (threads σ) (scheds σ) (live σ) (tls_thread σ) m (os_threads σ) (env σ) (trace σ).
Definition set_os_threads (n : nat) (σ : world) : world :=
  World (threads σ) (scheds σ) (live σ) (tls_thread σ) (tls_worker σ) n (env σ) (trace σ).
Definition set_env (e : oracle) (σ : world) : world :=
  World (threads σ) (scheds σ) (live σ) (tls_thread σ) (tls_worker σ) (os_threads σ) e (trace σ).
Definition set_trace (t : list event) (σ : world) : world :=
  World (threads σ) (scheds σ) (live σ) (tls_thread σ) (tls_worker σ) (os_threads σ) (env σ) t.

Definition modify (f : world → world) : M unit := λ _ σ, Some ((), f σ).
Definition emit (e : event) : M unit := modify (λ σ, set_trace (trace σ ++ [e]) σ).

(** *** Loads and stores through a thread pointer *)

Definition load_thread (t : ptr) : M lwt_thread :=
  σ ← get; lift (threads σ !! t).

Definition store_thread (t : ptr) (f : lwt_thread → lwt_thread) : M unit :=
  th ← load_thread t;
  modify (λ σ, set_threads (<[t := f th]> (threads σ)) σ).

Definition with_state (st : lwt_state_t) (th : lwt_thread) : lwt_thread :=
  Thread (context th) (stack th) (stack_size th) st (func th) (arg th)
         (next th) (waiting th) (scheduler th) (id th).
Definition with_next (n : ptr) (th : lwt_thread) : lwt_thread :=
  Thread (context th) (stack th) (stack_size th) (state th) (func th) (arg th)
         n (waiting th) (scheduler th) (id th).
Definition with_waiting (w : ptr) (th : lwt_thread) : lwt_thread :=
  Thread (context th) (stack th) (stack_size th) (state th) (func th) (arg th)
         (next th) w (scheduler th) (id th).
Definition with_stack (s : ptr) (th : lwt_thread) : lwt_thread :=
  Thread (context th) s (stack_size th) (state th) (func th) (arg th)
         (next th) (waiting th) (scheduler th) (id th).
Definition with_context (c : ucontext_t) (th : lwt_thread) : lwt_thread :=
  Thread c (stack th) (stack_size th) (state th) (func th) (arg th)
         (next th) (waiting th) (scheduler th) (id th).
Definition with_id (i : Z) (th : lwt_thread) : lwt_thread :=
  Thread (context th) (stack th) (stack_size th) (state th) (func th) (arg th)
         (next th) (waiting th) (scheduler th) i.

(** [t->state = st] *)
Definition set_state (t : ptr) (st : lwt_state_t) : M unit :=
  store_thread t (with_state st);; emit (EvState t st).

(** *** Loads and stores through a scheduler pointer *)

Definition load_sched (s : ptr) : M lwt_scheduler :=
  σ ← get; lift (scheds σ !! s).

Definition store_sched (s : ptr) (f : lwt_scheduler → lwt_scheduler) : M unit :=
  sc ← load_sched s;
  modify (λ σ, set_scheds (<[s := f sc]> (scheds σ)) σ).

Definition with_queue (q : lwt_thread_queue_t) (sc : lwt_scheduler) : lwt_scheduler :=
  Scheduler q (workers sc) (worker_ids sc) (num_workers sc) (running sc)
            (mutex sc) (cond sc) (running_flag sc) (next_thread_id sc).
Definition with_workers (l : list nat) (sc : lwt_scheduler) : lwt_scheduler :=
  Scheduler (ready_queue sc) l (worker_ids sc) (num_workers sc) (running sc)
            (mutex sc) (cond sc) (running_flag sc) (next_thread_id sc).
Definition with_worker_ids (l : list Z) (sc : lwt_scheduler) : lwt_scheduler :=
  Scheduler (ready_queue sc) (workers sc) l (num_workers sc) (running sc)
            (mutex sc) (cond sc) (running_flag sc) (next_thread_id sc).
Definition with_running (l : list ptr) (sc : lwt_scheduler) : lwt_scheduler :=
  Scheduler (ready_queue sc) (workers sc) (worker_ids sc) (num_workers sc) l
            (mutex sc) (cond sc) (running_flag sc) (next_thread_id sc).
Definition with_mutex (m : mutex_t) (sc : lwt_scheduler) : lwt_scheduler :=
  Scheduler (ready_queue sc) (workers sc) (worker_ids sc) (num_workers sc) (running sc)
            m (cond sc) (running_flag sc) (next_thread_id sc).
Definition with_cond (c : cond_t) (sc : lwt_scheduler) : lwt_scheduler :=
  Scheduler (ready_queue sc) (workers sc) (worker_ids sc) (num_workers sc) (running sc)
            (mutex sc) c (running_flag sc) (next_thread_id sc).
Definition with_running_flag (f : Z) (sc : lwt_scheduler) : lwt_scheduler :=
  Scheduler (ready_queue sc) (workers sc) (worker_ids sc) (num_workers sc) (running sc)
            (mutex sc) (cond sc) f (next_thread_id sc).
Definition with_next_thread_id (n : Z) (sc : lwt_scheduler) : lwt_scheduler :=
  Scheduler (ready_queue sc) (workers sc) (worker_ids sc) (num_workers sc) (running sc)
            (mutex sc) (cond sc) (running_flag sc) n.

Definition with_head (p : ptr) (q : lwt_thread_queue_t) : lwt_thread_queue_t :=
  Queue p (tail q) (qmutex q) (count q).
Definition with_tail (p : ptr) (q : lwt_thread_queue_t) : lwt_thread_queue_t :=
  Queue (head q) p (qmutex q) (count q).
Definition with_qmutex (m : mutex_t) (q : lwt_thread_queue_t) : lwt_thread_queue_t :=
  Queue (head q) (tail q) m (count q).
Definition with_count (c : Z) (q : lwt_thread_queue_t) : lwt_thread_queue_t :=
  Queue (head q) (tail q) (qmutex q) c.

(** A queue pointer is the address of the scheduler that embeds it. *)
Definition load_queue (q : ptr) : M lwt_thread_queue_t :=
  sc ← load_sched q; mret (ready_queue sc).

Definition store_queue (q : ptr) (f : lwt_thread_queue_t → lwt_thread_queue_t) : M unit :=
  store_sched q (λ sc, with_queue (f (ready_queue sc)) sc).

(** *** pthread primitives *)

Definition next_syscall : M Z :=
  σ ← get;
  match syscalls (env σ) with
  | [] => mret 0%Z
  | r :: rest =>
      put (set_env (Oracle (mallocs (env σ)) rest (clock (env σ))) σ);; mret r
  end.

Definition pthread_mutex_lock (s : ptr) : M unit :=
  sc ← load_sched s;
  match mutex sc with
  | MxUnlocked => store_sched s (with_mutex MxLocked);; emit (EvLock s)
  | _ => fault
  end.

Definition pthread_mutex_unlock (s : ptr) : M unit :=
  sc ← load_sched s;
  match mutex sc with
  | MxLocked => store_sched s (with_mutex MxUnlocked);; emit (EvUnlock s)
  | _ => fault
  end.

Definition queue_mutex_lock (q : ptr) : M unit :=
  qu ← load_queue q;
  match qmutex qu with
  | MxUnlocked => store_queue q (with_qmutex MxLocked);; emit (EvQLock q)
  | _ => fault
  end.

Definition queue_mutex_unlock (q : ptr) : M unit :=
  qu ← load_queue q;
  match qmutex qu with
  | MxLocked => store_queue q (with_qmutex MxUnlocked);; emit (EvQUnlock q)
  | _ => fault
  end.

Definition pthread_cond_signal (s : ptr) : M unit :=
  sc ← load_sched s;
  match cond sc with
  | CvReady => emit (EvSignal s)
  | CvNone => fault
  end.

Definition pthread_cond_broadcast (s : ptr) : M unit :=
  sc ← load_sched s;
  match cond sc with
  | CvReady => emit (EvBroadcast s)
  | CvNone => fault
  end.

(** ** queue.c *)

Definition queue_zero : lwt_thread_queue_t := Queue NULL NULL MxNone 0.

(** [lwt_queue_init]: the queue is embedded in a scheduler struct that the
    caller has already zeroed, so the pointer is never NULL here. *)
Definition lwt_queue_init (queue : ptr) : M Z :=
  if decide (queue = NULL) then mret (-1)%Z else
  store_queue queue (λ _, queue_zero);;
  r ← next_syscall;
  if decide (r ≠ 0%Z) then mret (-1)%Z else
  store_queue queue (with_qmutex MxUnlocked);;
  store_queue queue (with_head NULL);;
  store_queue queue (with_tail NULL);;
  store_queue queue (with_count 0);;
  mret 0%Z.

Definition lwt_queue_destroy (queue : ptr) : M unit :=
  if decide (queue = NULL) then mret () else
  store_queue queue (with_qmutex MxNone);;
  store_queue queue (with_head NULL);;
  store_queue queue (with_tail NULL);;
  store_queue queue (with_count 0).

(** [lwt_queue_push_locked]; [queue->count++] is the increment of an
    [int], which this definition follows as long as [count] is below
    [INT_MAX]. *)
Definition lwt_queue_push_locked (queue thread : ptr) : M unit :=
  store_thread thread (with_next NULL);;
  q ← load_queue queue;
  (if decide (tail q = NULL) then
     store_queue queue (with_tail thread);;
     store_queue queue (with_head thread)
   else
     store_thread (tail q) (with_next thread);;
     store_queue queue (with_tail thread));;
  q ← load_queue queue;
  store_queue queue (with_count (count q + 1));;
  emit (EvPush queue thread).

Definition lwt_queue_push (queue thread : ptr) : M Z :=
  if decide (queue = NULL ∨ thread = NULL) then mret (-1)%Z else
  queue_mutex_lock queue;;
  lwt_queue_push_locked queue thread;;
  queue_mutex_unlock queue;;
  mret 0%Z.

Definition lwt_queue_pop_locked (queue : ptr) : M ptr :=
  q ← load_queue queue;
  if decide (head q = NULL) then mret NULL else
  let thread := head q in
  th ← load_thread thread;
  store_queue queue (with_head (next th));;
  q ← load_queue queue;
  (if decide (head q = NULL) then store_queue queue (with_tail NULL) else mret ());;
  store_thread thread (with_next NULL);;
  q ← load_queue queue;
  store_queue queue (with_count (count q - 1));;
  emit (EvPop queue thread);;
  mret thread.

Definition lwt_queue_pop (queue : ptr) : M ptr :=
  if decide (queue = NULL) then mret NULL else
  queue_mutex_lock queue;;
  thread ← lwt_queue_pop_locked queue;
  queue_mutex_unlock queue;;
  mret thread.

Definition lwt_queue_empty (queue : ptr) : M Z :=
  if decide (queue = NULL) then mret 1%Z else
  queue_mutex_lock queue;;
  q ← load_queue queue;
  let empty := if decide (head q = NULL) then 1%Z else 0%Z in
  queue_mutex_unlock queue;;
  mret empty.

Definition lwt_queue_size (queue : ptr) : M Z :=
  if decide (queue = NULL) then mret 0%Z else
  queue_mutex_lock queue;;
  q ← load_queue queue;
  let count := count q in
  queue_mutex_unlock queue;;
  mret count.

(** ** C library calls *)

Definition malloc : M ptr :=
  σ ← get;
  match mallocs (env σ) with
  | [] => mret NULL
  | p :: rest =>
      put (set_env (Oracle rest (syscalls (env σ)) (clock (env σ))) σ);;
      if decide (p = NULL) then mret NULL
      else if decide (p ∈ live σ) then fault
      else modify (λ σ, set_live ({[p]} ∪ live σ) σ);; mret p
  end.

(** [free] ends the life of the block and of the struct stored in it. *)
Definition free (p : ptr) : M unit :=
  if decide (p = NULL) then mret () else
  σ ← get;
  if decide (p ∈ live σ) then
    put (set_scheds (delete p (scheds σ))
          (set_threads (delete p (threads σ))
            (set_live (live σ ∖ {[p]}) σ)))
  else fault.

Definition mutex_destroy (m : mutex_t) : M mutex_t :=
  match m with
  | MxUnlocked => mret MxNone
  | _ => fault
  end.

Definition pthread_mutex_destroy (s : ptr) : M unit :=
  sc ← load_sched s;
  m ← mutex_destroy (mutex sc);
  store_sched s (with_mutex m).

Definition pthread_cond_destroy (s : ptr) : M unit :=
  sc ← load_sched s;
  match cond sc with
  | CvReady => store_sched s (with_cond CvNone)
  | CvNone => fault
  end.

Definition swapcontext (from to : ctx) : M unit := emit (EvSwap from to).
Definition nanosleep (sec nsec : Z) : M unit := emit (EvNanosleep sec nsec).
Definition clock_gettime : M (Z * Z) :=
  emit EvClock;; σ ← get; mret (clock (env σ)).

(** ** Thread-local storage (thread.c, scheduler.c) *)

Definition lwt_thread_self : M ptr :=
  me ← self_os; σ ← get; mret (default NULL (tls_thread σ !! me)).

Definition lwt_thread_set_current (thread : ptr) : M unit :=
  me ← self_os; modify (λ σ, set_tls_thread (<[me := thread]> (tls_thread σ)) σ).

Definition lwt_scheduler_get_worker_id : M Z :=
  me ← self_os; σ ← get; mret (default (-1)%Z (tls_worker σ !! me)).

Definition lwt_scheduler_set_worker_id (id : Z) : M unit :=
  me ← self_os; modify (λ σ, set_tls_worker (<[me := id]> (tls_worker σ)) σ).

(** [scheduler->running[w] = t]; an index outside the array is a fault. *)
Definition set_running (s : ptr) (w : Z) (t : ptr) : M unit :=
  sc ← load_sched s;
  if decide (0 ≤ w < Z.of_nat (length (running sc)))%Z then
    store_sched s (with_running (<[Z.to_nat w := t]> (running sc)));;
    emit (EvRunning s w t)
  else fault.

(** ** lwthread.c: the cooperative primitives *)

Definition lwt_yield : M unit :=
  thread ← lwt_thread_self;
  if decide (thread = NULL) then mret () else
  th ← load_thread thread;
  let scheduler := scheduler th in
  worker_id ← lwt_scheduler_get_worker_id;
  sc ← load_sched scheduler;
  if decide (worker_id < 0 ∨ worker_id >= num_workers sc)%Z then mret () else
  pthread_mutex_lock scheduler;;
  th ← load_thread thread;
  (if decide (state th ≠ LWT_STATE_FINISHED) then
     set_state thread LWT_STATE_READY;;
     lwt_queue_push_locked scheduler thread
   else mret ());;
  set_running scheduler worker_id NULL;;
  pthread_cond_signal scheduler;;
  pthread_mutex_unlock scheduler;;
  swapcontext (CtxThread thread) (CtxMain scheduler worker_id).

Definition lwt_join (thread : ptr) : M unit :=
  if decide (thread = NULL) then mret () else
  self ← lwt_thread_self;
  if decide (self = NULL) then mret () else
  sth ← load_thread self;
  let scheduler := scheduler sth in
  worker_id ← lwt_scheduler_get_worker_id;
  sc ← load_sched scheduler;
  if decide (worker_id < 0 ∨ worker_id >= num_workers sc)%Z then mret () else
  pthread_mutex_lock scheduler;;
  th ← load_thread thread;
  if decide (state th = LWT_STATE_FINISHED) then
    pthread_mutex_unlock scheduler
  else
    set_state self LWT_STATE_BLOCKED;;
    store_thread thread (with_waiting self);;
    emit (EvWaiting thread self);;
    set_running scheduler worker_id NULL;;
    pthread_mutex_unlock scheduler;;
    swapcontext (CtxThread self) (CtxMain scheduler worker_id).

Definition lwt_current : M ptr := lwt_thread_self.

(** [lwt_sleep] up to and including its call of [nanosleep].  The result is
    [Some (thread, scheduler, worker_id)], the locals still in use after
    the wait, or [None] when the function has returned.  [ms] is an
    [unsigned int]. *)
Definition lwt_sleep_wait (ms : Z) : M (option (ptr * ptr * Z)) :=
  thread ← lwt_thread_self;
  if decide (thread = NULL) then
    nanosleep (ms / 1000) ((ms mod 1000) * 1000000);;
    mret None
  else
  th ← load_thread thread;
  let scheduler := scheduler th in
  worker_id ← lwt_scheduler_get_worker_id;
  sc ← load_sched scheduler;
  if decide (worker_id < 0 ∨ worker_id >= num_workers sc)%Z then mret None else
  now ← clock_gettime;
  let sec := (now.1 + ms / 1000)%Z in
  let nsec := (now.2 + (ms mod 1000) * 1000000)%Z in
  let wake_time :=
    if decide (nsec >= 1000000000)%Z then ((sec + 1)%Z, (nsec - 1000000000)%Z)
    else (sec, nsec) in
  pthread_mutex_lock scheduler;;
  set_state thread LWT_STATE_BLOCKED;;
  set_running scheduler worker_id NULL;;
  pthread_mutex_unlock scheduler;;
  nanosleep wake_time.1 wake_time.2;;
  mret (Some (thread, scheduler, worker_id)).

(** [lwt_sleep] after [nanosleep] has returned. *)
Definition lwt_sleep_wake (thread scheduler : ptr) (worker_id : Z) : M unit :=
  pthread_mutex_lock scheduler;;
  set_state thread LWT_STATE_READY;;
  lwt_queue_push_locked scheduler thread;;
  pthread_cond_signal scheduler;;
  pthread_mutex_unlock scheduler;;
  swapcontext (CtxThread thread) (CtxMain scheduler worker_id).

Definition lwt_sleep (ms : Z) : M unit :=
  r ← lwt_sleep_wait ms;
  match r with
  | Some (thread, scheduler, worker_id) => lwt_sleep_wake thread scheduler worker_id
  | None => mret ()
  end.

(** ** thread.c *)

(** [lwt_thread_start] from the return of the entry function on; [thread]
    is the local fetched from [current_thread] on entry. *)
Definition lwt_thread_finish (thread : ptr) : M unit :=
  th ← load_thread thread;
  let scheduler := scheduler th in
  pthread_mutex_lock scheduler;;
  set_state thread LWT_STATE_FINISHED;;
  th ← load_thread thread;
  (if decide (waiting th ≠ NULL) then
     set_state (waiting th) LWT_STATE_READY;;
     lwt_queue_push_locked scheduler (waiting th);;
     store_thread thread (with_waiting NULL);;
     emit (EvWaiting thread NULL);;
     pthread_cond_signal scheduler
   else mret ());;
  pthread_mutex_unlock scheduler;;
  lwt_yield.

(** The entry trampoline; [call f a] is the behaviour of [f(a)]. *)
Definition lwt_thread_start (call : ptr → ptr → M unit) : M unit :=
  thread ← lwt_thread_self;
  if decide (thread = NULL) then mret () else
  th ← load_thread thread;
  emit (EvCall (func th) (arg th));;
  call (func th) (arg th);;
  lwt_thread_finish thread.

Definition thread_zero : lwt_thread :=
  Thread ucontext_zero NULL 0 LWT_STATE_NEW NULL NULL NULL NULL NULL 0.

(** [memset(thread, 0, sizeof *thread)] on a block obtained from malloc *)
Definition memset_thread (thread : ptr) : M unit :=
  σ ← get;
  if decide (thread ∈ live σ) then
    put (set_threads (<[thread := thread_zero]> (threads σ)) σ)
  else fault.

(** [lwt_thread_init]; [scheduler->next_thread_id++] is the increment of
    an [int], which this definition follows as long as the counter is
    below [INT_MAX]. *)
Definition lwt_thread_init (thread func arg scheduler : ptr) (stack_size : Z) : M Z :=
  if decide (thread = NULL ∨ func = NULL ∨ scheduler = NULL) then mret (-1)%Z else
  let stack_size := if decide (stack_size = 0%Z) then LWT_DEFAULT_STACK_SIZE else stack_size in
  memset_thread thread;;
  store_thread thread (λ th,
    Thread (context th) (stack th) stack_size LWT_STATE_NEW func arg
           (next th) (waiting th) scheduler (id th));;
  stk ← malloc;
  store_thread thread (with_stack stk);;
  if decide (stk = NULL) then mret (-1)%Z else
  r ← next_syscall;                         (* getcontext *)
  if decide (r = (-1)%Z) then
    free stk;;
    store_thread thread (with_stack NULL);;
    mret (-1)%Z
  else
  store_thread thread (with_context (Ucontext stk stack_size NULL true));;
  pthread_mutex_lock scheduler;;
  sc ← load_sched scheduler;
  store_thread thread (with_id (next_thread_id sc));;
  store_sched scheduler (with_next_thread_id (next_thread_id sc + 1));;
  pthread_mutex_unlock scheduler;;
  mret 0%Z.

Definition lwt_thread_cleanup (thread : ptr) : M unit :=
  if decide (thread = NULL) then mret () else
  th ← load_thread thread;
  if decide (stack th ≠ NULL) then
    free (stack th);;
    store_thread thread (with_stack NULL)
  else mret ().

(** ** scheduler.c *)

Inductive worker_outcome :=
| WAgain                    (* [continue]: next iteration *)
| WWait                     (* blocked in pthread_cond_wait *)
| WExit                     (* [break] *)
| WDispatched (t : ptr).    (* switched into task [t] *)

(** One iteration of the loop of [lwt_worker_function]; [scheduler] and
    [id] are its locals. *)
Definition lwt_worker_iteration (scheduler : ptr) (id : Z) : M worker_outcome :=
  if decide (scheduler = NULL) then
    mret WAgain                              (* sleep(1); continue *)
  else
  pthread_mutex_lock scheduler;;
  sc ← load_sched scheduler;
  if decide (running_flag sc ≠ 0%Z ∧ head (ready_queue sc) = NULL) then
    (* pthread_cond_wait releases the mutex while it blocks *)
    pthread_mutex_unlock scheduler;; mret WWait
  else if decide (running_flag sc = 0%Z) then
    pthread_mutex_unlock scheduler;; mret WExit
  else
  thread ← lwt_queue_pop_locked scheduler;
  if decide (thread ≠ NULL) then
    set_state thread LWT_STATE_RUNNING;;
    set_running scheduler id thread;;
    pthread_mutex_unlock scheduler;;
    lwt_thread_set_current thread;;
    swapcontext (CtxMain scheduler id) (CtxThread thread);;
    mret (WDispatched thread)
  else
    pthread_mutex_unlock scheduler;; mret WAgain.

Fixpoint lwt_worker_loop (fuel : nat) (scheduler : ptr) (id : Z) : M bool :=
  match fuel with
  | O => mret false
  | S fuel' =>
      r ← lwt_worker_iteration scheduler id;
      match r with
      | WExit => mret true
      | WWait => mret false
      | _ => lwt_worker_loop fuel' scheduler id
      end
  end.

(** [lwt_worker_function]: the local [scheduler] is initialised to NULL and
    never assigned.  The result says whether the function returned within
    [fuel] iterations. *)
Definition lwt_worker_function (fuel : nat) (id : Z) : M bool :=
  let scheduler := NULL in
  lwt_scheduler_set_worker_id id;;
  lwt_worker_loop fuel scheduler id.

Definition scheduler_zero : lwt_scheduler :=
  Scheduler queue_zero (replicate 64 0) (replicate 64 0%Z) 0 (replicate 64 NULL)
            MxNone CvNone 0 0.

Definition memset_sched (s : ptr) : M unit :=
  σ ← get;
  if decide (s ∈ live σ) then
    put (set_scheds (<[s := scheduler_zero]> (scheds σ)) σ)
  else fault.

(** [for (i = from; i < num_workers; i++) worker_ids[i] = i], by the
    number of iterations left *)
Fixpoint fill_worker_ids (left : nat) (i : Z) (ids : list Z) : list Z :=
  match left with
  | O => ids
  | S left' => fill_worker_ids left' (i + 1) (<[Z.to_nat i := i]> ids)
  end.

Definition lwt_scheduler_init (scheduler : ptr) (num_workers : Z) : M Z :=
  if decide (scheduler = NULL ∨ num_workers ≤ 0 ∨ num_workers > LWT_MAX_WORKERS)%Z
  then mret (-1)%Z else
  memset_sched scheduler;;
  store_sched scheduler (λ sc,
    Scheduler (ready_queue sc) (workers sc) (worker_ids sc) num_workers (running sc)
              (mutex sc) (cond sc) 0 1);;
  r ← lwt_queue_init scheduler;
  if decide (r ≠ 0%Z) then mret (-1)%Z else
  r ← next_syscall;                         (* pthread_mutex_init *)
  if decide (r ≠ 0%Z) then
    lwt_queue_destroy scheduler;;
    mret (-1)%Z
  else
  store_sched scheduler (with_mutex MxUnlocked);;
  r ← next_syscall;                         (* pthread_cond_init *)
  if decide (r ≠ 0%Z) then
    pthread_mutex_destroy scheduler;;
    lwt_queue_destroy scheduler;;
    mret (-1)%Z
  else
  store_sched scheduler (with_cond CvReady);;
  store_sched scheduler (λ sc,
    with_worker_ids (fill_worker_ids (Z.to_nat num_workers) 0 (worker_ids sc)) sc);;
  mret 0%Z.

Definition lwt_scheduler_cleanup (scheduler : ptr) : M unit :=
  if decide (scheduler = NULL) then mret () else
  pthread_mutex_destroy scheduler;;
  pthread_cond_destroy scheduler;;
  lwt_queue_destroy scheduler.

Definition lwt_scheduler_add_thread (scheduler thread : ptr) : M Z :=
  if decide (scheduler = NULL ∨ thread = NULL) then mret (-1)%Z else
  set_state thread LWT_STATE_READY;;
  r ← lwt_queue_push scheduler thread;
  if decide (r ≠ 0%Z) then mret (-1)%Z else
  pthread_mutex_lock scheduler;;
  pthread_cond_signal scheduler;;
  pthread_mutex_unlock scheduler;;
  mret 0%Z.

(** ** lwthread.c: scheduler life cycle and spawn *)

Definition lwt_scheduler_create (num_threads : Z) : M ptr :=
  if decide (num_threads ≤ 0 ∨ num_threads > LWT_MAX_WORKERS)%Z then mret NULL else
  scheduler ← malloc;
  if decide (scheduler = NULL) then mret NULL else
  r ← lwt_scheduler_init scheduler num_threads;
  if decide (r ≠ 0%Z) then
    free scheduler;; mret NULL
  else mret scheduler.

(** [pthread_create(&scheduler->workers[i], NULL, lwt_worker_function,
    &scheduler->worker_ids[i])] *)
Definition pthread_create (scheduler : ptr) (i : nat) : M unit :=
  σ ← get;
  let o := S (os_threads σ) in
  put (set_os_threads o σ);;
  store_sched scheduler (λ sc, with_workers (<[i := o]> (workers sc)) sc);;
  emit (EvSpawnOS scheduler i o).

Fixpoint start_workers (left : nat) (i : nat) (scheduler : ptr) : M unit :=
  match left with
  | O => mret ()
  | S left' => pthread_create scheduler i;; start_workers left' (S i) scheduler
  end.

Definition lwt_scheduler_start (scheduler : ptr) : M unit :=
  if decide (scheduler = NULL) then mret () else
  sc ← load_sched scheduler;
  if decide (running_flag sc ≠ 0%Z) then mret () else
  pthread_mutex_lock scheduler;;
  store_sched scheduler (with_running_flag 1);;
  pthread_mutex_unlock scheduler;;
  start_workers (Z.to_nat (num_workers sc)) 0 scheduler.

(** [for (i = from; i < num_workers; i++) pthread_join(workers[i], NULL)],
    by the number of iterations left.  A join is logged; it returns when
    the joined worker has returned from [lwt_worker_function], which the
    model does not decide: a result of this function is what the caller
    sees if the joins return. *)
Fixpoint join_workers (left : nat) (i : nat) (scheduler : ptr) : M unit :=
  match left with
  | O => mret ()
  | S left' =>
      sc ← load_sched scheduler;
      o ← lift (workers sc !! i);
      emit (EvJoinOS o);;
      join_workers left' (S i) scheduler
  end.

Definition lwt_scheduler_stop (scheduler : ptr) : M unit :=
  if decide (scheduler = NULL) then mret () else
  sc ← load_sched scheduler;
  if decide (running_flag sc = 0%Z) then mret () else
  pthread_mutex_lock scheduler;;
  store_sched scheduler (with_running_flag 0);;
  pthread_cond_broadcast scheduler;;
  pthread_mutex_unlock scheduler;;
  join_workers (Z.to_nat (num_workers sc)) 0 scheduler.

Definition lwt_scheduler_destroy (scheduler : ptr) : M unit :=
  if decide (scheduler = NULL) then mret () else
  lwt_scheduler_stop scheduler;;
  lwt_scheduler_cleanup scheduler;;
  free scheduler.

Definition lwt_create (scheduler func arg : ptr) : M ptr :=
  if decide (scheduler = NULL ∨ func = NULL) then mret NULL else
  thread ← malloc;
  if decide (thread = NULL) then mret NULL else
  r ← lwt_thread_init thread func arg scheduler 0;
  if decide (r ≠ 0%Z) then
    free thread;; mret NULL
  else
  r ← lwt_scheduler_add_thread scheduler thread;
  if decide (r ≠ 0%Z) then
    lwt_thread_cleanup thread;;
    free thread;;
    mret NULL
  else mret thread.

(** ** The ready queue as a list *)

(** [chain h p l]: following [next] from [p] visits exactly the threads of
    [l], in order, and ends at NULL. *)
Fixpoint chain (h : gmap ptr lwt_thread) (p : ptr) (l : list ptr) : Prop :=
  match l with
  | [] => p = NULL
  | t :: l' => p = t ∧ t ≠ NULL ∧ ∃ th, h !! t = Some th ∧ chain h (next th) l'
  end.

Definition last_ptr (l : list ptr) : ptr := default NULL (last l).

(** The queue struct [Q] over the heap [h] holds the threads of [l]. *)
Definition rep (h : gmap ptr lwt_thread) (Q : lwt_thread_queue_t) (l : list ptr) : Prop :=
  chain h (head Q) l ∧
  tail Q = last_ptr l ∧
  count Q = Z.of_nat (length l) ∧
  NoDup l.

(** The queue embedded in scheduler [q] holds the threads of [l]. *)
Definition queue_rep (σ : world) (q : ptr) (l : list ptr) : Prop :=
  ∃ sc, scheds σ !! q = Some sc ∧ rep (threads σ) (ready_queue sc) l.

(** The threads linked from [p] up to and including [stop], read off the
    heap; the walk also ends at NULL, at a dangling pointer and when the
    fuel runs out. *)
Fixpoint walk (fuel : nat) (h : gmap ptr lwt_thread) (p stop : ptr) : list ptr :=
  match fuel with
  | O => []
  | S fuel' =>
      if decide (p = NULL) then []
      else match h !! p with
           | None => []
           | Some th =>
               p :: (if decide (p = stop) then [] else walk fuel' h (next th) stop)
           end
  end.

(** The tasks linked from [head] to [tail] of the queue at [q]. *)
Definition queue_tasks (σ : world) (q : ptr) : list ptr :=
  match scheds σ !! q with
  | Some sc =>
      walk (size (threads σ)) (threads σ)
           (head (ready_queue sc)) (tail (ready_queue sc))
  | None => []
  end.

Definition queue_count (σ : world) (q : ptr) : Z :=
  match scheds σ !! q with
  | Some sc => count (ready_queue sc)
  | None => 0
  end.

Definition thread_state (σ : world) (t : ptr) : option lwt_state_t :=
  state <$> threads σ !! t.

Definition thread_waiting (σ : world) (t : ptr) : option ptr :=
  waiting <$> threads σ !! t.

(** Sequences of queue operations. *)
Inductive qop :=
| QPush (t : ptr)
| QPop.

(** Runs the operations and collects what the pops returned. *)
Fixpoint run_qops (q : ptr) (ops : list qop) : M (list ptr) :=
  match ops with
  | [] => mret []
  | QPush t :: ops' => lwt_queue_push_locked q t;; run_qops q ops'
  | QPop :: ops' =>
      r ← lwt_queue_pop_locked q;
      rs ← run_qops q ops';
      mret (r :: rs)
  end.


(** ** The runtime as a transition system

    Every OS thread that runs the worker function has a control state: it
    is about to enter the worker function, inside the dispatch loop,
    inside a task, inside the [nanosleep] of [lwt_sleep], or gone.  OS
    threads without an entry are application threads outside the
    runtime. *)
Inductive pc_t :=
| PcEntry (i : nat)       (* created for [worker_ids[i]], not yet running *)
| PcIdle (id : Z)         (* in the loop of the worker function *)
| PcTask (id : Z)         (* executing the task in [current_thread] *)
| PcSleep (id : Z) (thread sched : ptr) (worker_id : Z)
| PcDone.

Record system := System {
  sys_world : world;
  sys_pc : gmap nat pc_t
}.

Inductive action :=
| ASpawn (me : nat) (func arg : ptr) (mem : list ptr) (rcs : list Z)
| AStart (me : nat)
| AEnter (o : nat)
| ASpin (o : nat)
| ADispatch (o : nat)
| AYield (o : nat)
| AJoin (o : nat) (target : ptr)
| ASleepWait (o : nat) (ms : Z) (now : Z * Z)
| ASleepWake (o : nat)
| AFinish (o : nat).

(** The call that took [σ] to [σ'] ended in a context switch. *)
Definition switched (σ σ' : world) : bool :=
  match last (drop (length (trace σ)) (trace σ')) with
  | Some (EvSwap _ _) => true
  | _ => false
  end.

Definition mark_entries (ws : list nat) (n : nat) (pc : gmap nat pc_t) : gmap nat pc_t :=
  foldr (λ i pc, match ws !! i with
                 | Some o => <[o := PcEntry i]> pc
                 | None => pc
                 end) pc (seq 0 n).

(** One step of the system whose scheduler is at [S].  The worker loop is
    run with its local [scheduler] equal to [S], as a worker that is
    handed its scheduler would run it ([ADispatch]), and with NULL, as
    [lwt_worker_function] runs it ([ASpin]).

    A step is one complete call: the runs of this system are the runs of
    the program in which no two calls overlap in time.  The calls that
    work under the scheduler mutex exclude one another up to their final
    [swapcontext]; [lwt_create] does not take part in that exclusion
    while it enqueues (see [lwt_create_test] below). *)
Definition exec (S : ptr) (a : action) (s : system) : option system :=
  let σ := sys_world s in
  let pc := sys_pc s in
  match a with
  | ASpawn me func arg mem rcs =>
      '(_, σ') ← lwt_create S func arg me (set_env (Oracle mem rcs (clock (env σ))) σ);
      Some (System σ' pc)
  | AStart me =>
      sc ← scheds σ !! S;
      '(_, σ') ← lwt_scheduler_start S me σ;
      sc' ← scheds σ' !! S;
      Some (System σ'
              (if decide (running_flag sc = 0%Z)
               then mark_entries (workers sc') (Z.to_nat (num_workers sc)) pc
               else pc))
  | AEnter o =>
      match pc !! o with
      | Some (PcEntry i) =>
          sc ← scheds σ !! S;
          id ← worker_ids sc !! i;
          '(_, σ') ← lwt_scheduler_set_worker_id id o σ;
          Some (System σ' (<[o := PcIdle id]> pc))
      | _ => None
      end
  | ASpin o =>
      match pc !! o with
      | Some (PcIdle id) =>
          '(_, σ') ← lwt_worker_iteration NULL id o σ;
          Some (System σ' pc)
      | _ => None
      end
  | ADispatch o =>
      match pc !! o with
      | Some (PcIdle id) =>
          '(r, σ') ← lwt_worker_iteration S id o σ;
          Some (System σ'
                  match r with
                  | WDispatched _ => <[o := PcTask id]> pc
                  | WExit => <[o := PcDone]> pc
                  | _ => pc
                  end)
      | _ => None
      end
  | AYield o =>
      match pc !! o with
      | Some (PcTask id) =>
          '(_, σ') ← lwt_yield o σ;
          Some (System σ' (if switched σ σ' then <[o := PcIdle id]> pc else pc))
      | None =>
          '(_, σ') ← lwt_yield o σ; Some (System σ' pc)
      | _ => None
      end
  | AJoin o target =>
      match pc !! o with
      | Some (PcTask id) =>
          '(_, σ') ← lwt_join target o σ;
          Some (System σ' (if switched σ σ' then <[o := PcIdle id]> pc else pc))
      | None =>
          '(_, σ') ← lwt_join target o σ; Some (System σ' pc)
      | _ => None
      end
  | ASleepWait o ms now =>
      let σ := set_env (Oracle (mallocs (env σ)) (syscalls (env σ)) now) σ in
      match pc !! o with
      | Some (PcTask id) =>
          '(r, σ') ← lwt_sleep_wait ms o σ;
          Some (System σ'
                  match r with
                  | Some (t, s, w) => <[o := PcSleep id t s w]> pc
                  | None => pc
                  end)
      | None =>
          '(r, σ') ← lwt_sleep ms o σ; Some (System σ' pc)
      | _ => None
      end
  | ASleepWake o =>
      match pc !! o with
      | Some (PcSleep id t s w) =>
          '(_, σ') ← lwt_sleep_wake t s w o σ;
          Some (System σ' (<[o := PcIdle id]> pc))
      | _ => None
      end
  | AFinish o =>
      match pc !! o with
      | Some (PcTask id) =>
          t ← tls_thread σ !! o;
          '(_, σ') ← lwt_thread_finish t o σ;
          Some (System σ' (if switched σ σ' then <[o := PcIdle id]> pc else pc))
      | _ => None
      end
  end.

Fixpoint execs (S : ptr) (acts : list action) (s : system) : option system :=
  match acts with
  | [] => Some s
  | a :: acts' => s' ← exec S a s; execs S acts' s'
  end.

(** The world at program start: nothing allocated, no TLS written. *)
Definition boot (orc : oracle) : world := World ∅ ∅ ∅ ∅ ∅ 0 orc [].

(** [s] is reached from a fresh scheduler at [S] by a schedule. *)
Definition reachable (S : ptr) (s : system) : Prop :=
  ∃ n me orc σ0 acts,
    lwt_scheduler_create n me (boot orc) = Some (S, σ0) ∧ S ≠ NULL ∧
    execs S acts (System σ0 ∅) = Some s.

(** ** Closed forms of the queue operations' effects *)

Definition push_threads (h : gmap ptr lwt_thread) (tl t : ptr) : gmap ptr lwt_thread :=
  let h1 := alter (with_next NULL) t h in
  if decide (tl = NULL) then h1 else alter (with_next t) tl h1.

Definition push_queue (Q : lwt_thread_queue_t) (t : ptr) : lwt_thread_queue_t :=
  Queue (if decide (tail Q = NULL) then t else head Q) t (qmutex Q) (count Q + 1).

Definition pop_threads (h : gmap ptr lwt_thread) (hd : ptr) : gmap ptr lwt_thread :=
  alter (with_next NULL) hd h.

Definition pop_queue (Q : lwt_thread_queue_t) (nx : ptr) : lwt_thread_queue_t :=
  Queue nx (if decide (nx = NULL) then NULL else tail Q) (qmutex Q) (count Q - 1).

(** Typed objects live in live blocks. *)
Definition heap_wf (σ : world) : Prop :=
  (∀ p, is_Some (threads σ !! p) → p ∈ live σ) ∧
  (∀ p, is_Some (scheds σ !! p) → p ∈ live σ).

(** ** The invariant of the runtime *)

(** OS thread [o] is executing, or sleeping on behalf of, task [t]; [cur]
    reads the thread-local [current_thread] of an OS thread. *)
Definition active (cur : nat → option ptr) (pc : gmap nat pc_t) (o : nat) (t : ptr) : Prop :=
  (∃ id, pc !! o = Some (PcTask id) ∧ cur o = Some t) ∨
  (∃ id s w, pc !! o = Some (PcSleep id t s w)).

(** OS thread [o] runs the worker whose local [id] is [id]. *)
Definition worker_of (pc : gmap nat pc_t) (o : nat) (id : Z) : Prop :=
  pc !! o = Some (PcIdle id) ∨ pc !! o = Some (PcTask id) ∨
  ∃ t s w, pc !! o = Some (PcSleep id t s w).

(** The part of the invariant that relates task states, joiner links, the
    queue content and the workers; [st] and [wt] read the [state] and the
    [waiting] field of a task. *)
Record SInv (S : ptr) (st : ptr → option lwt_state_t) (wt : ptr → option ptr)
            (l : list ptr) (cur : nat → option ptr) (pc : gmap nat pc_t) : Prop := {
  s_null : st NULL = None;
  s_ready : ∀ t, t ∈ l ↔ st t = Some LWT_STATE_READY;
  s_link : ∀ a b, wt a = Some b → b ≠ NULL → st b = Some LWT_STATE_BLOCKED;
  s_inj : ∀ a a' b, wt a = Some b → wt a' = Some b → b ≠ NULL → a = a';
  s_task : ∀ o id, pc !! o = Some (PcTask id) →
             ∃ t, cur o = Some t ∧ st t = Some LWT_STATE_RUNNING;
  s_sleep : ∀ o id t s w, pc !! o = Some (PcSleep id t s w) →
              s = S ∧ w = id ∧ st t = Some LWT_STATE_BLOCKED ∧ ∀ a, wt a ≠ Some t;
  s_distinct : ∀ o o' t, o ≠ o' → active cur pc o t → active cur pc o' t → False
}.

Record Inv (S : ptr) (σ : world) (pc : gmap nat pc_t)
           (l : list ptr) (sc : lwt_scheduler) : Prop := {
  inv_sc : scheds σ !! S = Some sc;
  inv_rep : rep (threads σ) (ready_queue sc) l;
  inv_mutex : mutex sc = MxUnlocked;
  inv_qmutex : qmutex (ready_queue sc) = MxUnlocked;
  inv_cond : cond sc = CvReady;
  inv_nw : (1 ≤ num_workers sc ≤ 64)%Z;
  inv_arrays : length (running sc) = 64 ∧ length (workers sc) = 64;
  inv_ids : ∀ i, i < Z.to_nat (num_workers sc) →
                 worker_ids sc !! i = Some (Z.of_nat i);
  inv_S : S ≠ NULL ∧ S ∈ live σ;
  inv_wf : heap_wf σ;
  inv_owner : ∀ t s, scheduler <$> threads σ !! t = Some s → s = S;
  inv_state : SInv S (thread_state σ) (thread_waiting σ) l
                   (λ o, tls_thread σ !! o) pc;
  inv_wid : ∀ o id, worker_of pc o id →
      tls_worker σ !! o = Some id ∧ (0 ≤ id < num_workers sc)%Z;
  inv_entry : ∀ o i, pc !! o = Some (PcEntry i) → i < Z.to_nat (num_workers sc);
  inv_outside : ∀ o, pc !! o = None → tls_thread σ !! o = None;
  inv_os : ∀ o, is_Some (pc !! o) → o ≤ os_threads σ
}.

Definition invariant (S : ptr) (s : system) : Prop :=
  ∃ l sc, Inv S (sys_world s) (sys_pc s) l sc.

(** The worker id held in a control state. *)
Definition pc_id (x : pc_t) : option Z :=
  match x with
  | PcIdle id | PcTask id | PcSleep id _ _ _ => Some id
  | _ => None
  end.

(** [sc'] differs from [sc] at most in the queue links and count, in the
    contents of [running] and [workers], in [running_flag] and in
    [next_thread_id]. *)
Definition sched_same (sc sc' : lwt_scheduler) : Prop :=
  mutex sc' = mutex sc ∧ cond sc' = cond sc ∧
  qmutex (ready_queue sc') = qmutex (ready_queue sc) ∧
  num_workers sc' = num_workers sc ∧ worker_ids sc' = worker_ids sc ∧
  length (running sc') = length (running sc) ∧
  length (workers sc') = length (workers sc).

(** [σ'] has the tasks of [σ], owned by the same schedulers, the same live
    blocks, worker ids and OS threads, and the same schedulers other than
    the one at [S]. *)
Definition world_frame (S : ptr) (σ σ' : world) : Prop :=
  live σ' = live σ ∧ tls_worker σ' = tls_worker σ ∧ os_threads σ' = os_threads σ ∧
  (∀ p, p ≠ S → scheds σ' !! p = scheds σ !! p) ∧
  (∀ p, is_Some (threads σ' !! p) ↔ is_Some (threads σ !! p)) ∧
  (∀ p, scheduler <$> threads σ' !! p = scheduler <$> threads σ !! p).

(** A call made on OS thread [me] from within task [t], which worker [w] of
    scheduler [s] is running, while nobody holds the scheduler mutex. *)
Record in_task (σ : world) (me : nat) (t s : ptr) (w : Z) : Prop := {
  it_current : tls_thread σ !! me = Some t;
  it_nonnull : t ≠ NULL;
  it_owner : scheduler <$> threads σ !! t = Some s;
  it_worker : tls_worker σ !! me = Some w;
  it_sched : ∃ sc, scheds σ !! s = Some sc ∧
                   (0 ≤ w < num_workers sc)%Z ∧
                   (num_workers sc ≤ Z.of_nat (length (running sc)))%Z ∧
                   mutex sc = MxUnlocked ∧ cond sc = CvReady
}.

(** A call made on an OS thread that is running no task. *)
Definition outside_task (σ : world) (me : nat) : Prop :=
  default NULL (tls_thread σ !! me) = NULL.

(** The events a call appended to the trace. *)
Definition emitted (σ σ' : world) : list event :=
  drop (length (trace σ)) (trace σ').

(** Everything but the trace. *)
Definition same_data (σ σ' : world) : Prop :=
  threads σ' = threads σ ∧ scheds σ' = scheds σ ∧ live σ' = live σ ∧
  tls_thread σ' = tls_thread σ ∧ tls_worker σ' = tls_worker σ ∧
  os_threads σ' = os_threads σ.

(** ** Closed forms for the environment's answers *)

Definition pop_syscall (σ : world) : world :=
  match syscalls (env σ) with
  | [] => σ
  | _ :: rest => set_env (Oracle (mallocs (env σ)) rest (clock (env σ))) σ
  end.

(** The coming [k] fallible system calls succeed. *)
Definition calls_succeed (k : nat) (σ : world) : Prop :=
  ∀ i r, i < k → syscalls (env σ) !! i = Some r → r = 0%Z.

(** The coming malloc does not hand out a block that is still live. *)
Definition malloc_sane (σ : world) : Prop :=
  ∀ p, mallocs (env σ) !! 0 = Some p → p ∉ live σ.

(** The coming malloc succeeds. *)
Definition malloc_succeeds (σ : world) : Prop :=
  ∃ p, mallocs (env σ) !! 0 = Some p ∧ p ≠ NULL ∧ p ∉ live σ.

(** The scheduler struct after a successful [lwt_scheduler_init]. *)
Definition sched_fresh (n : Z) : lwt_scheduler :=
  Scheduler (Queue NULL NULL MxUnlocked 0) (replicate 64 0)
            (fill_worker_ids (Z.to_nat n) 0 (replicate 64 0%Z)) n
            (replicate 64 NULL) MxUnlocked CvReady 0 1.

(** The scheduler object holds no pthread resource. *)
Definition sched_released (sc : lwt_scheduler) : Prop :=
  mutex sc = MxNone ∧ cond sc = CvNone ∧ qmutex (ready_queue sc) = MxNone.

(** Scenario 5 of the specification: create; stop; stop; destroy. *)
Definition stop_twice (n : Z) : M unit :=
  s ← lwt_scheduler_create n;
  lwt_scheduler_stop s;;
  lwt_scheduler_stop s;;
  lwt_scheduler_destroy s.

(** The stack size [lwt_thread_init] settles on. *)
Definition init_stack_size (sz : Z) : Z :=
  if decide (sz = 0%Z) then LWT_DEFAULT_STACK_SIZE else sz.

(** The thread struct after a successful and after a failed
    [lwt_thread_init]. *)
Definition thread_fresh (func arg s stk : ptr) (sz nid : Z) : lwt_thread :=
  Thread (Ucontext stk sz NULL true) stk sz LWT_STATE_NEW func arg NULL NULL s nid.

Definition thread_failed (func arg s : ptr) (sz : Z) : lwt_thread :=
  Thread ucontext_zero NULL sz LWT_STATE_NEW func arg NULL NULL s 0.

(** ** Closed forms for the cooperative primitives *)

(** The scheduler struct with a new queue and a new [running] array. *)
Definition sched_after (Q : lwt_thread_queue_t) (r : list ptr) (sc : lwt_scheduler)
  : lwt_scheduler :=
  Scheduler Q (workers sc) (worker_ids sc) (num_workers sc) r
            (mutex sc) (cond sc) (running_flag sc) (next_thread_id sc).

(** The world with a new thread heap, a new scheduler heap and more events. *)
Definition upd_world (h : gmap ptr lwt_thread) (ss : gmap ptr lwt_scheduler)
    (evs : list event) (σ : world) : world :=
  World h ss (live σ) (tls_thread σ) (tls_worker σ) (os_threads σ) (env σ)
        (trace σ ++ evs).

(** [running] with slot [w] cleared. *)
Definition clear_slot (w : Z) (sc : lwt_scheduler) : list ptr :=
  <[Z.to_nat w := NULL]> (running sc).

(** The wake time [lwt_sleep] computes from the clock reading [now]. *)
Definition wake_time (now : Z * Z) (ms : Z) : Z * Z :=
  let sec := (now.1 + ms / 1000)%Z in
  let nsec := (now.2 + (ms mod 1000) * 1000000)%Z in
  if decide (nsec >= 1000000000)%Z then ((sec + 1)%Z, (nsec - 1000000000)%Z)
  else (sec, nsec).

(** A [timespec] as a number of nanoseconds. *)
Definition nanos (ts : Z * Z) : Z := (ts.1 * 1000000000 + ts.2)%Z.

(** The [next] field of [t] after [push_threads h tl j]. *)
Definition pushed_next (tl j t : ptr) (old : ptr) : ptr :=
  if decide (tl ≠ NULL ∧ t = tl) then j
  else if decide (t = j) then NULL else old.

(** ** Concrete states used in examples *)

Definition demo_sched : lwt_scheduler :=
  Scheduler (Queue NULL NULL MxUnlocked 0) (replicate 64 0) (replicate 64 0%Z) 1
            (replicate 64 NULL) MxUnlocked CvReady 0 1.

Definition demo_thread (st : lwt_state_t) (i : Z) : lwt_thread :=
  Thread ucontext_zero NULL 0 st 7 NULL NULL NULL 100 i.

(** A scheduler at address 100 with an empty queue, and three tasks at 1, 2
    and 3 that are in no queue. *)
Definition demo_world : world :=
  World (<[1 := demo_thread LWT_STATE_NEW 1]>
          (<[2 := demo_thread LWT_STATE_NEW 2]>
            (<[3 := demo_thread LWT_STATE_NEW 3]> ∅)))
        (<[100 := demo_sched]> ∅)
        ({[1]} ∪ {[2]} ∪ {[3]} ∪ {[100]})
        ∅ ∅ 0 (Oracle [] [] (0, 0)%Z) [].

(** A scheduler with one worker at address 100, created at program start. *)
Definition demo_created : world :=
  from_option snd (boot (Oracle [100] [] (0, 0)%Z))
    (lwt_scheduler_create 1 0 (boot (Oracle [100] [] (0, 0)%Z))).

Definition run_schedule (acts : list action) : system :=
  default (System demo_created ∅) (execs 100 acts (System demo_created ∅)).

(** Tasks 1 and 3 are spawned (their stacks are at 2 and 4), the scheduler
    is started, its worker (OS thread 1) enters its loop and dispatches
    task 1. *)
Definition schedule_running : list action :=
  [ASpawn 0 7 0 [1; 2] []; ASpawn 0 7 0 [3; 4] []; AStart 0; AEnter 1; ADispatch 1].

Definition demo_running : system := run_schedule schedule_running.

(** Then task 1 yields, task 3 is dispatched and joins task 1, and task 1
    is dispatched again: it runs with task 3 as its joiner. *)
Definition schedule_joined : list action :=
  schedule_running ++ [AYield 1; ADispatch 1; AJoin 1 1; ADispatch 1].

Definition demo_joined : system := run_schedule schedule_joined.

(** [demo_running] with the running task marked FINISHED, as inside the
    entry trampoline just before its final yield. *)
Definition demo_finishing : world :=
  set_threads (alter (with_state LWT_STATE_FINISHED) 1 (threads (sys_world demo_running)))
              (sys_world demo_running).

(** The scheduler is started and its worker has entered the loop, with
    tasks 1 and 3 waiting in the queue. *)
Definition schedule_idle : list action :=
  [ASpawn 0 7 0 [1; 2] []; ASpawn 0 7 0 [3; 4] []; AStart 0; AEnter 1].

Definition demo_idle : system := run_schedule schedule_idle.

(** Three tasks 1, 3 and 5: task 3 has joined task 1 and is blocked, and
    task 5 is running. *)
Definition schedule_second_join : list action :=
  [ASpawn 0 7 0 [1; 2] []; ASpawn 0 7 0 [3; 4] []; ASpawn 0 7 0 [5; 6] [];
   AStart 0; AEnter 1; ADispatch 1; AYield 1; ADispatch 1; AJoin 1 1; ADispatch 1].

Definition demo_second_join : system := run_schedule schedule_second_join.

(** [demo_running] seen from an OS thread whose [current_thread] is task 1
    but whose worker id was never set. *)
Definition demo_no_worker : world :=
  set_tls_worker ∅ (sys_world demo_running).

(** [scheduler->running[w]] *)
Definition running_slot (σ : world) (s : ptr) (w : Z) : option ptr :=
  sc ← scheds σ !! s; running sc !! Z.to_nat w.

(** ** What the scheduling operations leave alone *)

(** The fields of a task that are set when it is initialised. *)
Definition task_const (th : lwt_thread) : ptr * ptr * ptr * Z * ptr * Z :=
  (func th, arg th, stack th, stack_size th, scheduler th, id th).

(** The fields of a scheduler that only initialisation and spawning set. *)
Definition sched_const (sc : lwt_scheduler) : Z * list Z * Z :=
  (num_workers sc, worker_ids sc, next_thread_id sc).

(** From [σ] to [σ'] no block was allocated or freed, no task or scheduler
    appeared or disappeared, and the fields above are unchanged. *)
Definition quiet (σ σ' : world) : Prop :=
  live σ' = live σ ∧
  (∀ t, task_const <$> threads σ' !! t = task_const <$> threads σ !! t) ∧
  (∀ s, sched_const <$> scheds σ' !! s = sched_const <$> scheds σ !! s).

(** Every run of [m] that returns is related by [R]. *)
Definition preserves {A} (R : world → world → Prop) (m : M A) : Prop :=
  ∀ me σ a σ', m me σ = Some (a, σ') → R σ σ'.


(** ** The life cycle of a task *)

(** The changes of a task's state from one state of the system to the
    next: none; a task that did not exist is READY (spawned); READY to
    RUNNING (dispatched); RUNNING to READY (yield), to BLOCKED (join,
    sleep) or to FINISHED (the entry function returned); BLOCKED to READY
    (woken). *)
Definition state_edge (a b : option lwt_state_t) : bool :=
  match a, b with
  | None, None => true
  | None, Some LWT_STATE_READY => true
  | Some LWT_STATE_NEW, Some LWT_STATE_NEW => true
  | Some LWT_STATE_READY, Some LWT_STATE_READY => true
  | Some LWT_STATE_READY, Some LWT_STATE_RUNNING => true
  | Some LWT_STATE_RUNNING, Some LWT_STATE_RUNNING => true
  | Some LWT_STATE_RUNNING, Some LWT_STATE_READY => true
  | Some LWT_STATE_RUNNING, Some LWT_STATE_BLOCKED => true
  | Some LWT_STATE_RUNNING, Some LWT_STATE_FINISHED => true
  | Some LWT_STATE_BLOCKED, Some LWT_STATE_BLOCKED => true
  | Some LWT_STATE_BLOCKED, Some LWT_STATE_READY => true
  | Some LWT_STATE_FINISHED, Some LWT_STATE_FINISHED => true
  | _, _ => false
  end.

(** ** A spawn that overlaps another call

    [lwt_create] enqueues the new task through [lwt_scheduler_add_thread]
    and [lwt_queue_push], that is while it holds the mutex of the queue and
    not the mutex of the scheduler (scheduler.c:107-113, queue.c:43-45),
    whereas [lwt_yield], [lwt_sleep], the trampoline and the worker loop
    push and pop under the scheduler mutex only.  Neither lock keeps the
    two groups apart, so the body of [lwt_queue_push_locked] run by
    [lwt_create] can be overtaken by a complete call of the other group.
    The definitions below cut [lwt_create] in two at the test of
    [lwt_queue_push_locked]. *)

(** [lwt_queue_push_locked] up to and including the evaluation of
    [queue->tail == NULL] (queue.c:50-51); the result is the outcome of the
    test. *)
Definition lwt_queue_push_locked_test (queue thread : ptr) : M bool :=
  store_thread thread (with_next NULL);;
  q ← load_queue queue;
  mret (bool_decide (tail q = NULL)).

(** [lwt_queue_push_locked] from the branch on (queue.c:51-57), [empty]
    being the outcome of the test. *)
Definition lwt_queue_push_locked_link (queue thread : ptr) (empty : bool) : M unit :=
  (if empty then
     store_queue queue (with_tail thread);;
     store_queue queue (with_head thread)
   else
     q ← load_queue queue;
     store_thread (tail q) (with_next thread);;
     store_queue queue (with_tail thread));;
  q ← load_queue queue;
  store_queue queue (with_count (count q + 1));;
  emit (EvPush queue thread).

(** [lwt_create] up to the test of [lwt_queue_push_locked], through
    [lwt_scheduler_add_thread] and [lwt_queue_push].  The result is
    [Some (thread, empty)], the local [thread] and the outcome of the test,
    or [None] when the function has returned NULL before. *)
Definition lwt_create_test (scheduler func arg : ptr) : M (option (ptr * bool)) :=
  if decide (scheduler = NULL ∨ func = NULL) then mret None else
  thread ← malloc;
  if decide (thread = NULL) then mret None else
  r ← lwt_thread_init thread func arg scheduler 0;
  if decide (r ≠ 0%Z) then
    free thread;; mret None
  else
  (* lwt_scheduler_add_thread(scheduler, thread), both non-NULL *)
  set_state thread LWT_STATE_READY;;
  (* lwt_queue_push(&scheduler->ready_queue, thread) *)
  queue_mutex_lock scheduler;;
  empty ← lwt_queue_push_locked_test scheduler thread;
  mret (Some (thread, empty)).

(** [lwt_create] from there to its return. *)
Definition lwt_create_link (scheduler thread : ptr) (empty : bool) : M ptr :=
  lwt_queue_push_locked_link scheduler thread empty;;
  queue_mutex_unlock scheduler;;
  (* lwt_queue_push has returned 0 *)
  pthread_mutex_lock scheduler;;
  pthread_cond_signal scheduler;;
  pthread_mutex_unlock scheduler;;
  (* lwt_scheduler_add_thread has returned 0 *)
  mret thread.

(** [lwt_create] on OS thread [me], with the call [other] made on OS thread
    [o] between the test of [lwt_queue_push_locked] and its branch. *)
Definition lwt_create_overlapped {A} (scheduler func arg : ptr) (other : M A) (o : nat)
  : M ptr := λ me σ,
  '(r, σ1) ← lwt_create_test scheduler func arg me σ;
  match r with
  | None => Some (NULL, σ1)
  | Some (thread, empty) =>
      '(_, σ2) ← other o σ1;
      lwt_create_link scheduler thread empty me σ2
  end.




(** * Evaluation of the primitives *)

Lemma insert_alter_same {A} (h : gmap ptr A) t (f : A → A) x :
  h !! t = Some x → <[t := f x]> h = alter f t h.
Proof.
  intros Hx. apply map_eq; intros i. destruct (decide (t = i)) as [->|Hne].
  - by rewrite lookup_insert_eq, lookup_alter_eq, Hx.
  - by rewrite lookup_insert_ne, lookup_alter_ne.
Qed.

Lemma is_Some_alter {A} (h : gmap ptr A) (f : A → A) i j :
  is_Some (h !! j) → is_Some (alter f i h !! j).
Proof.
  intros [x Hx]. destruct (decide (i = j)) as [->|Hne].
  - rewrite lookup_alter_eq, Hx. by eexists.
  - rewrite lookup_alter_ne by done. by eexists.
Qed.

Lemma is_Some_alter_iff {A} (h : gmap ptr A) (f : A → A) i j :
  is_Some (alter f i h !! j) ↔ is_Some (h !! j).
Proof.
  destruct (decide (i = j)) as [->|Hne].
  - rewrite lookup_alter_eq. apply fmap_is_Some.
  - by rewrite lookup_alter_ne.
Qed.

Lemma lookup_push_threads h tl j t :
  push_threads h tl j !! t =
  (λ th, with_next (pushed_next tl j t (next th)) th) <$> h !! t.
Proof.
  unfold push_threads, pushed_next. cbv zeta.
  assert (Heta : ∀ th : lwt_thread, with_next (next th) th = th) by (by intros []).
  destruct (decide (tl = NULL)) as [?|?], (decide (t = tl)) as [?|?],
           (decide (t = j)) as [?|?]; subst;
    repeat first [ rewrite decide_True by naive_solver
                 | rewrite decide_False by naive_solver ];
    repeat first [ rewrite lookup_alter_eq
                 | rewrite lookup_alter_ne by (done || congruence) ];
    match goal with
    | |- context [h !! ?x] => destruct (h !! x); cbn; [|done]
    end;
    repeat first [ rewrite decide_True by naive_solver
                 | rewrite decide_False by naive_solver ];
    by rewrite ?Heta.
Qed.

Lemma is_Some_push_threads h tl t p :
  is_Some (push_threads h tl t !! p) ↔ is_Some (h !! p).
Proof.
  unfold push_threads. cbn. case_decide; by rewrite ?is_Some_alter_iff.
Qed.

Lemma load_thread_eval t me σ th :
  threads σ !! t = Some th → load_thread t me σ = Some (th, σ).
Proof. intros H. unfold load_thread, get, lift, mbind, M_bind. simpl. by rewrite H. Qed.

Lemma store_thread_eval t f me σ :
  is_Some (threads σ !! t) →
  store_thread t f me σ = Some ((), set_threads (alter f t (threads σ)) σ).
Proof.
  intros [th H]. unfold store_thread, mbind, M_bind.
  rewrite (load_thread_eval _ _ _ _ H). unfold modify.
  by rewrite (insert_alter_same _ _ _ _ H).
Qed.

Lemma load_sched_eval s me σ sc :
  scheds σ !! s = Some sc → load_sched s me σ = Some (sc, σ).
Proof. intros H. unfold load_sched, get, lift, mbind, M_bind. simpl. by rewrite H. Qed.

Lemma store_sched_eval s f me σ sc :
  scheds σ !! s = Some sc →
  store_sched s f me σ = Some ((), set_scheds (<[s := f sc]> (scheds σ)) σ).
Proof. intros H. unfold store_sched, mbind, M_bind. by rewrite (load_sched_eval _ _ _ _ H). Qed.

Lemma emit_eval e me σ : emit e me σ = Some ((), set_trace (trace σ ++ [e]) σ).
Proof. reflexivity. Qed.

Global Arguments load_thread : simpl never.
Global Arguments store_thread : simpl never.
Global Arguments load_sched : simpl never.
Global Arguments store_sched : simpl never.
Global Arguments emit : simpl never.

Ltac solve_lookup :=
  cbn;
  repeat first
    [ rewrite lookup_insert_eq
    | rewrite lookup_insert_ne by (done || congruence)
    | rewrite lookup_alter_eq
    | rewrite lookup_alter_ne by (done || congruence)
    | rewrite lookup_delete_ne by (done || congruence)
    | rewrite lookup_push_threads ];
  first [ eassumption | reflexivity
        | match goal with H : _ !! _ = Some _ |- _ => rewrite H; reflexivity end ].

Ltac solve_alloc :=
  cbn;
  repeat first [ apply is_Some_alter | apply is_Some_push_threads
               | rewrite lookup_delete_ne by (done || congruence) ];
  repeat first [ rewrite lookup_insert_eq | rewrite lookup_insert_ne by (done || congruence) ];
  first [ eassumption | by eexists | eauto ].

Ltac mprim :=
  match goal with
  | |- context [load_thread ?t ?me ?σ] =>
      erewrite (load_thread_eval t me σ) by solve_lookup
  | |- context [store_thread ?t ?f ?me ?σ] =>
      rewrite (store_thread_eval t f me σ) by solve_alloc
  | |- context [load_sched ?t ?me ?σ] =>
      erewrite (load_sched_eval t me σ) by solve_lookup
  | |- context [store_sched ?t ?f ?me ?σ] =>
      erewrite (store_sched_eval t f me σ) by solve_lookup
  | |- context [emit ?e ?me ?σ] => rewrite (emit_eval e me σ)
  | |- context [decide ?P] =>
      first [ rewrite (decide_True (P:=P)) by (done || lia || tauto)
            | rewrite (decide_False (P:=P)) by (done || lia || congruence || tauto) ]
  end.

Ltac decide_by_compute := apply (bool_decide_unpack _); vm_compute; exact I.

Ltac munfold :=
  repeat progress unfold set_state, store_queue, load_queue, pthread_mutex_lock, pthread_mutex_unlock,
    queue_mutex_lock, queue_mutex_unlock, pthread_cond_signal, pthread_cond_broadcast,
    set_running, swapcontext, nanosleep, clock_gettime,
    lwt_thread_self, lwt_thread_set_current, lwt_scheduler_get_worker_id,
    lwt_scheduler_set_worker_id, get, put, modify, lift, fault, self_os,
    mbind, mret, M_bind, M_ret.

Ltac mnorm :=
  unfold set_threads, set_scheds, set_live, set_tls_thread, set_tls_worker,
    set_os_threads, set_env, set_trace,
    with_queue, with_workers, with_worker_ids, with_running, with_mutex,
    with_cond, with_running_flag, with_next_thread_id,
    with_head, with_tail, with_qmutex, with_count;
  cbn [threads scheds live tls_thread tls_worker os_threads env trace
       ready_queue workers worker_ids num_workers running mutex cond running_flag
       next_thread_id head tail qmutex count fst snd].

Ltac mrun := munfold; repeat (mnorm; cbv beta iota; mprim); mnorm; cbv beta iota.

Lemma push_locked_eval q t me σ sc :
  scheds σ !! q = Some sc →
  is_Some (threads σ !! t) →
  (tail (ready_queue sc) = NULL ∨ is_Some (threads σ !! tail (ready_queue sc))) →
  lwt_queue_push_locked q t me σ =
  Some ((), set_trace (trace σ ++ [EvPush q t])
     (set_scheds (<[q := with_queue (push_queue (ready_queue sc) t) sc]> (scheds σ))
       (set_threads (push_threads (threads σ) (tail (ready_queue sc)) t) σ))).
Proof.
  intros Hs Ht Htl. destruct σ as [h ss lv tt tw os e tr]. cbn in *.
  unfold lwt_queue_push_locked, push_threads, push_queue.
  destruct (decide (tail (ready_queue sc) = NULL)) as [Hn|Hn].
  - mrun. rewrite !insert_insert_eq. destruct sc as [[]]; cbn in *. reflexivity.
  - destruct Htl as [?|Htl]; [done|]. mrun. rewrite !insert_insert_eq.
    destruct sc as [[]]; cbn in *. reflexivity.
Qed.

Lemma pop_locked_eval_empty q me σ sc :
  scheds σ !! q = Some sc → head (ready_queue sc) = NULL →
  lwt_queue_pop_locked q me σ = Some (NULL, σ).
Proof.
  intros Hs Hh. unfold lwt_queue_pop_locked. mrun. reflexivity.
Qed.

Lemma pop_locked_eval q me σ sc th :
  scheds σ !! q = Some sc → head (ready_queue sc) ≠ NULL →
  threads σ !! head (ready_queue sc) = Some th →
  lwt_queue_pop_locked q me σ =
  Some (head (ready_queue sc),
     set_trace (trace σ ++ [EvPop q (head (ready_queue sc))])
     (set_scheds (<[q := with_queue (pop_queue (ready_queue sc) (next th)) sc]> (scheds σ))
       (set_threads (pop_threads (threads σ) (head (ready_queue sc))) σ))).
Proof.
  intros Hs Hh Ht. destruct σ as [h ss lv tt tw os e tr]. cbn in *.
  unfold lwt_queue_pop_locked, pop_threads, pop_queue.
  mrun.
  destruct (decide (next th = NULL)) as [Hn|Hn].
  - mrun. rewrite !insert_insert_eq. destruct sc as [[]]; cbn in *. reflexivity.
  - mrun. rewrite !insert_insert_eq. destruct sc as [[]]; cbn in *. reflexivity.
Qed.

(** * The intrusive list *)

Section Chain.
Implicit Types (h : gmap ptr lwt_thread) (l : list ptr) (Q : lwt_thread_queue_t).

Lemma last_ptr_cons a l : l ≠ [] → last_ptr (a :: l) = last_ptr l.
Proof. unfold last_ptr. destruct l; [done|]. intros _. by rewrite last_cons_cons. Qed.

Lemma last_ptr_snoc l t : last_ptr (l ++ [t]) = t.
Proof. unfold last_ptr. by rewrite last_snoc. Qed.

Lemma last_ptr_in l : l ≠ [] → last_ptr l ∈ l.
Proof.
  unfold last_ptr. intros Hl. destruct (last l) as [x|] eqn:E.
  - cbn. apply last_Some in E as [l' ->]. set_solver.
  - apply last_None in E. done.
Qed.

Lemma chain_nonnull h p l t : chain h p l → t ∈ l → t ≠ NULL.
Proof.
  revert p. induction l as [|a l IH]; intros p Hc Hin; [by apply not_elem_of_nil in Hin|].
  destruct Hc as (-> & Hn & th & Hth & Hc).
  apply elem_of_cons in Hin as [->|Hin]; [done|]. eauto.
Qed.

Lemma chain_alloc h p l t : chain h p l → t ∈ l → is_Some (h !! t).
Proof.
  revert p. induction l as [|a l IH]; intros p Hc Hin; [by apply not_elem_of_nil in Hin|].
  destruct Hc as (-> & Hn & th & Hth & Hc).
  apply elem_of_cons in Hin as [->|Hin]; [by eexists|]. eauto.
Qed.

(** A chain only depends on the [next] fields of its members. *)
Lemma chain_frame h h' p l :
  (∀ t, t ∈ l → next <$> h' !! t = next <$> h !! t) →
  chain h p l → chain h' p l.
Proof.
  revert p. induction l as [|a l IH]; intros p Hf Hc; [done|].
  destruct Hc as (-> & Hn & th & Hth & Hc).
  split; [done|]. split; [done|].
  assert (Ha : next <$> h' !! a = Some (next th)).
  { rewrite Hf by set_solver. by rewrite Hth. }
  destruct (h' !! a) as [th'|] eqn:E; [|done]. cbn in Ha.
  exists th'. split; [done|]. injection Ha as ->.
  apply IH; [|done]. intros t Ht. apply Hf. set_solver.
Qed.

Lemma chain_alter h p l (f : lwt_thread → lwt_thread) t :
  (∀ th, next (f th) = next th) → chain h p l → chain (alter f t h) p l.
Proof.
  intros Hf. apply chain_frame. intros u _.
  destruct (decide (t = u)) as [->|Hne].
  - rewrite lookup_alter_eq. destruct (h !! u); cbn; [by rewrite Hf|done].
  - by rewrite lookup_alter_ne.
Qed.

Lemma chain_alter_out h p l (f : lwt_thread → lwt_thread) t :
  t ∉ l → chain h p l → chain (alter f t h) p l.
Proof.
  intros Ht. apply chain_frame. intros u Hu.
  rewrite lookup_alter_ne; [done|]. intros ->. done.
Qed.

Lemma chain_insert_fresh h p l t x :
  h !! t = None → chain h p l → chain (<[t := x]> h) p l.
Proof.
  intros Hfresh Hc. eapply chain_frame; [|exact Hc]. intros u Hu.
  rewrite lookup_insert_ne; [done|]. intros ->.
  destruct (chain_alloc _ _ _ _ Hc Hu) as [? ?]. congruence.
Qed.

Lemma chain_delete_out h p l t :
  t ∉ l → chain h p l → chain (delete t h) p l.
Proof.
  intros Ht. apply chain_frame. intros u Hu.
  rewrite lookup_delete_ne; [done|]. intros ->. done.
Qed.

Lemma chain_snoc h p l t :
  chain h p l → l ≠ [] → NoDup l → t ∉ l → t ≠ NULL → is_Some (h !! t) →
  chain (alter (with_next t) (last_ptr l) (alter (with_next NULL) t h)) p (l ++ [t]).
Proof.
  revert p. induction l as [|a l IH]; intros p Hc Hne Hnd Ht Hn [tht Htht]; [done|].
  destruct Hc as (-> & Han & tha & Htha & Hc).
  apply NoDup_cons in Hnd as [Hal Hnd].
  assert (a ≠ t) by set_solver.
  cbn. split; [done|]. split; [done|].
  destruct l as [|b l].
  - cbn in Hc. unfold last_ptr. cbn.
    rewrite lookup_alter_eq, lookup_alter_ne, Htha by done. cbn.
    eexists. split; [done|]. cbn. split; [done|]. split; [done|].
    rewrite lookup_alter_ne, lookup_alter_eq, Htht by done. cbn.
    eexists. split; [done|]. done.
  - rewrite last_ptr_cons by done.
    assert (a ≠ last_ptr (b :: l)).
    { intros ->. apply Hal. by apply last_ptr_in. }
    rewrite lookup_alter_ne, lookup_alter_ne, Htha by done.
    eexists. split; [done|].
    apply IH; try done; try (by eexists). by apply not_elem_of_cons in Ht as [_ ?].
Qed.

Lemma rep_nil h Q : head Q = NULL → tail Q = NULL → count Q = 0%Z → rep h Q [].
Proof. intros. repeat split; try done. apply NoDup_nil_2. Qed.

Lemma rep_head_null h Q l : rep h Q l → head Q = NULL → l = [].
Proof.
  intros (Hc & _) Hh. destruct l as [|a l]; [done|].
  destruct Hc as (Ha & Hn & _). congruence.
Qed.

Lemma rep_head h Q a l :
  rep h Q (a :: l) → head Q = a ∧ a ≠ NULL ∧ is_Some (h !! a).
Proof. intros ((-> & Hn & th & Hth & _) & _). eauto. Qed.

Lemma rep_tail_alloc h Q l :
  rep h Q l → tail Q = NULL ∨ is_Some (h !! tail Q).
Proof.
  intros (Hc & Ht & _). destruct l as [|a l]; [by left|]. right.
  rewrite Ht. eapply chain_alloc; [done|]. by apply last_ptr_in.
Qed.

Lemma rep_push h Q l t :
  rep h Q l → is_Some (h !! t) → t ≠ NULL → t ∉ l →
  rep (push_threads h (tail Q) t) (push_queue Q t) (l ++ [t]).
Proof.
  intros (Hc & Htl & Hcnt & Hnd) Hal Hn Hin.
  unfold push_threads, push_queue, rep. cbn.
  rewrite last_ptr_snoc, length_app, Hcnt. cbn.
  split; [|split; [done|split; [lia|]]].
  - destruct l as [|a l].
    + rewrite Htl. unfold last_ptr. cbn. rewrite !decide_True by done.
      cbn in Hc. destruct Hal as [th Hth]. cbn. split; [done|split; [done|]].
      rewrite lookup_alter_eq, Hth. cbn. eexists. split; [done|]. done.
    + assert (last_ptr (a :: l) ≠ NULL).
      { eapply chain_nonnull; [done|]. by apply last_ptr_in. }
      rewrite Htl, !decide_False by done.
      by apply chain_snoc.
  - apply NoDup_app. split; [done|]. split; [|apply NoDup_singleton].
    intros x Hx Hx'. apply list_elem_of_singleton in Hx' as ->. done.
Qed.

Lemma rep_pop h Q a l tha :
  rep h Q (a :: l) → h !! a = Some tha →
  rep (pop_threads h a) (pop_queue Q (next tha)) l.
Proof.
  intros ((Ha & Han & th & Hth & Hc) & Htl & Hcnt & Hnd) Htha.
  assert (th = tha) as -> by congruence.
  apply NoDup_cons in Hnd as [Hal Hnd].
  unfold pop_threads, pop_queue, rep. cbn.
  split; [by apply chain_alter_out|].
  split; [|split; [cbn in Hcnt; lia|done]].
  destruct l as [|b l].
  - cbn in Hc. by rewrite decide_True.
  - destruct Hc as (Hb & Hbn & _). rewrite decide_False by congruence.
    by rewrite Htl, last_ptr_cons.
Qed.

Lemma rep_alter h Q l (f : lwt_thread → lwt_thread) t :
  (∀ th, next (f th) = next th) → rep h Q l → rep (alter f t h) Q l.
Proof. intros Hf (Hc & ?). split; [by apply chain_alter|done]. Qed.

Lemma rep_insert_fresh h Q l t x :
  h !! t = None → rep h Q l → rep (<[t := x]> h) Q l.
Proof. intros Hf (Hc & ?). split; [by apply chain_insert_fresh|done]. Qed.

Lemma rep_same_queue h Q Q' l :
  head Q' = head Q → tail Q' = tail Q → count Q' = count Q →
  rep h Q l → rep h Q' l.
Proof. unfold rep. intros -> -> ->. done. Qed.

Lemma rep_unique h Q l l' : rep h Q l → rep h Q l' → l = l'.
Proof.
  intros (Hc & _) (Hc' & _). revert Hc Hc'. generalize (head Q).
  revert l'. induction l as [|a l IH]; intros [|a' l'] p Hc Hc'; try done.
  - destruct Hc' as (? & ? & _). cbn in Hc. congruence.
  - destruct Hc as (? & ? & _). cbn in Hc'. congruence.
  - destruct Hc as (-> & _ & th & Hth & Hc), Hc' as (<- & _ & th' & Hth' & Hc').
    assert (th' = th) as -> by congruence. f_equal. eauto.
Qed.

Lemma rep_length_le h Q l : rep h Q l → length l ≤ size h.
Proof.
  intros (Hc & _ & _ & Hnd).
  rewrite <- (size_dom (D := gset ptr)), <- (size_list_to_set (C := gset ptr) l) by done.
  apply subseteq_size. intros x Hx. apply elem_of_list_to_set in Hx.
  apply elem_of_dom. by eapply chain_alloc.
Qed.

Lemma walk_chain n h l : ∀ p,
  chain h p l → NoDup l → length l ≤ n → walk n h p (last_ptr l) = l.
Proof.
  revert n. induction l as [|a l IH]; intros n p Hc Hnd Hlen.
  - cbn in Hc. subst p. destruct n; [done|]. cbn. by rewrite decide_True.
  - destruct Hc as (-> & Han & th & Hth & Hc).
    apply NoDup_cons in Hnd as [Hal Hnd].
    destruct n as [|n]; [cbn in Hlen; lia|]. cbn.
    rewrite decide_False, Hth by done. f_equal.
    destruct l as [|b l].
    + unfold last_ptr. cbn. by rewrite decide_True.
    + rewrite last_ptr_cons by done.
      rewrite decide_False.
      * apply IH; [done|done|cbn in *; lia].
      * intros ->. apply Hal. by apply last_ptr_in.
Qed.

Lemma walk_rep h Q l : rep h Q l → walk (size h) h (head Q) (tail Q) = l.
Proof.
  intros Hr. pose proof (rep_length_le _ _ _ Hr).
  destruct Hr as (Hc & -> & _ & Hnd). by apply walk_chain.
Qed.
End Chain.

Lemma queue_tasks_rep σ q l : queue_rep σ q l → queue_tasks σ q = l.
Proof.
  intros (sc & Hsc & Hr). unfold queue_tasks. rewrite Hsc. by apply walk_rep.
Qed.

Lemma queue_count_rep σ q l : queue_rep σ q l → queue_count σ q = Z.of_nat (length l).
Proof.
  intros (sc & Hsc & Hr). unfold queue_count. rewrite Hsc. apply Hr.
Qed.

(** * Queue operations on the represented list *)


Lemma push_locked_spec q t me σ l :
  queue_rep σ q l → is_Some (threads σ !! t) → t ≠ NULL → t ∉ l →
  ∃ σ', lwt_queue_push_locked q t me σ = Some ((), σ') ∧
        queue_rep σ' q (l ++ [t]) ∧
        (tail ∘ ready_queue) <$> scheds σ' !! q = Some t ∧
        (∀ p, is_Some (threads σ' !! p) ↔ is_Some (threads σ !! p)) ∧
        (qmutex ∘ ready_queue) <$> scheds σ' !! q = (qmutex ∘ ready_queue) <$> scheds σ !! q ∧
        queue_count σ' q = (queue_count σ q + 1)%Z.
Proof.
  intros (sc & Hsc & Hr) Hal Hn Hin. eexists. split.
  { apply push_locked_eval; [done|done|]. by eapply rep_tail_alloc. }
  mnorm. split; [|split; [|split; [|split]]].
  - exists (with_queue (push_queue (ready_queue sc) t) sc).
    mnorm. rewrite lookup_insert_eq. split; [done|]. by apply rep_push.
  - by rewrite lookup_insert_eq.
  - intros p. apply is_Some_push_threads.
  - rewrite lookup_insert_eq. by rewrite Hsc.
  - unfold queue_count. mnorm. rewrite lookup_insert_eq. by rewrite Hsc.
Qed.

Lemma pop_locked_spec q me σ l :
  queue_rep σ q l →
  ∃ σ', lwt_queue_pop_locked q me σ = Some (hd NULL l, σ') ∧
        queue_rep σ' q (drop 1 l) ∧
        (l = [] → σ' = σ) ∧
        (∀ p, is_Some (threads σ' !! p) ↔ is_Some (threads σ !! p)) ∧
        (qmutex ∘ ready_queue) <$> scheds σ' !! q = (qmutex ∘ ready_queue) <$> scheds σ !! q ∧
        (l ≠ [] → queue_count σ' q = (queue_count σ q - 1)%Z).
Proof.
  intros (sc & Hsc & Hr). destruct l as [|a l].
  - exists σ. pose proof Hr as (Hc & _). cbn in Hc.
    split; [by eapply pop_locked_eval_empty|].
    split; [|done]. by exists sc.
  - destruct (rep_head _ _ _ _ Hr) as (Hh & Hn & th & Hth).
    eexists. split.
    { rewrite <- Hh. eapply pop_locked_eval; [done|congruence|]. by rewrite Hh. }
    mnorm. rewrite Hh. split; [|split; [done|split; [|split]]].
    + exists (with_queue (pop_queue (ready_queue sc) (next th)) sc).
      mnorm. rewrite lookup_insert_eq. split; [done|]. cbn. by eapply rep_pop.
    + intros p. apply is_Some_alter_iff.
    + rewrite lookup_insert_eq. by rewrite Hsc.
    + intros _. unfold queue_count. mnorm. rewrite lookup_insert_eq. by rewrite Hsc.
Qed.

Lemma pops_spec q me l : ∀ σ k,
  queue_rep σ q l →
  ∃ σ', run_qops q (replicate (length l + k) QPop) me σ =
          Some (l ++ replicate k NULL, σ') ∧
        queue_rep σ' q [].
Proof.
  induction l as [|a l IH]; intros σ k Hr.
  - induction k as [|k IHk]; [by exists σ|].
    destruct IHk as (σ' & Hrun & Hr').
    destruct (pop_locked_spec q me σ [] Hr) as (σ1 & Hpop & _ & Heq & _).
    rewrite (Heq eq_refl) in Hpop.
    exists σ'. split; [|done]. cbn in *. unfold mbind, M_bind.
    rewrite Hpop, Hrun. done.
  - destruct (pop_locked_spec q me σ (a :: l) Hr) as (σ1 & Hpop & Hr1 & _).
    destruct (IH σ1 k Hr1) as (σ' & Hrun & Hr').
    exists σ'. split; [|done]. cbn in *. unfold mbind, M_bind.
    rewrite Hpop, Hrun. done.
Qed.

(** C5 (amended) — The ready queue is FIFO.  In every queue state, pushing
    a task that is not already in the queue makes it the tail and appends
    it to the content; pop removes and returns the head, and returns NULL
    (leaving the state as it is) on an empty queue; hence pushing pairwise
    distinct tasks, none of them already queued, and then popping returns
    the old content followed by the pushed tasks in the order of the
    pushes, and NULL from then on. *)
Theorem queue_fifo q me σ l :
  queue_rep σ q l →
  (∀ t, is_Some (threads σ !! t) → t ≠ NULL → t ∉ l →
     ∃ σ', lwt_queue_push_locked q t me σ = Some ((), σ') ∧
           queue_rep σ' q (l ++ [t]) ∧
           (tail ∘ ready_queue) <$> scheds σ' !! q = Some t) ∧
  (∃ σ', lwt_queue_pop_locked q me σ = Some (hd NULL l, σ') ∧
         queue_rep σ' q (drop 1 l) ∧
         (l = [] → σ' = σ)) ∧
  (∀ ts k, NoDup (l ++ ts) →
     Forall (λ t, t ≠ NULL ∧ is_Some (threads σ !! t)) ts →
     ∃ σ', run_qops q ((QPush <$> ts) ++ replicate (length (l ++ ts) + k) QPop) me σ =
             Some ((l ++ ts) ++ replicate k NULL, σ') ∧
           queue_rep σ' q []).
Proof.
  intros Hr. split; [|split].
  - intros t Hal Hn Hin.
    destruct (push_locked_spec q t me σ l Hr Hal Hn Hin) as (σ' & ? & ? & ? & _).
    eauto.
  - destruct (pop_locked_spec q me σ l Hr) as (σ' & ? & ? & ? & _). eauto.
  - intros ts. revert σ l Hr. induction ts as [|t ts IH]; intros σ l Hr k Hnd Hok.
    + rewrite app_nil_r. cbn [fmap list_fmap app]. by apply pops_spec.
    + apply Forall_cons in Hok as [[Hn Hal] Hok].
      assert (t ∉ l).
      { apply NoDup_app in Hnd as (_ & Hd & _). intros Hin. apply (Hd t Hin). set_solver. }
      destruct (push_locked_spec q t me σ l Hr Hal Hn H) as (σ1 & Hpush & Hr1 & _ & Hdom & _).
      destruct (IH σ1 (l ++ [t]) Hr1 k) as (σ' & Hrun & Hr').
      { by rewrite <- app_assoc. }
      { eapply Forall_impl; [exact Hok|]. intros x [? ?]. split; [done|]. by apply Hdom. }
      exists σ'. split; [|done].
      rewrite <- app_assoc in Hrun. cbn in *. unfold mbind, M_bind. rewrite Hpush. exact Hrun.
Qed.

Lemma demo_world_rep : queue_rep demo_world 100 [].
Proof. exists demo_sched. split; [reflexivity|]. by apply rep_nil. Qed.

Lemma queue_fifo_witness :
  queue_rep demo_world 100 [] ∧
  ∃ σ', run_qops 100 ((QPush <$> [2; 1; 3]) ++ replicate (length ([] ++ [2; 1; 3]) + 1) QPop)
                 0 demo_world
        = Some (([] ++ [2; 1; 3]) ++ replicate 1 NULL, σ') ∧
        queue_rep σ' 100 [].
Proof.
  split; [exact demo_world_rep|].
  apply (queue_fifo 100 0 demo_world [] demo_world_rep).
  - cbn. decide_by_compute.
  - repeat constructor; try done; by vm_compute.
Defined.

(** C5, as stated, fails: pushing 1, 2 and 1 again onto the empty queue and
    popping three times returns 1 and then NULL twice, not 1, 2, 1. *)
Lemma queue_fifo_counterexample :
  fst <$> run_qops 100 [QPush 1; QPush 2; QPush 1; QPop; QPop; QPop] 0 demo_world
    = Some [1; NULL; NULL] ∧
  [1; NULL; NULL] ≠ [1; 2; 1].
Proof. split; [by vm_compute|done]. Qed.

(** * Size and emptiness *)

Lemma next_syscall_eval me σ :
  next_syscall me σ = Some (hd 0%Z (syscalls (env σ)), pop_syscall σ).
Proof.
  unfold next_syscall, pop_syscall. munfold. cbn. by destruct (syscalls (env σ)).
Qed.

Lemma sched_relock (ss : gmap ptr lwt_scheduler) q sc :
  ss !! q = Some sc → qmutex (ready_queue sc) = MxUnlocked →
  <[q := with_queue (with_qmutex MxUnlocked
          (ready_queue (with_queue (with_qmutex MxLocked (ready_queue sc)) sc)))
          (with_queue (with_qmutex MxLocked (ready_queue sc)) sc)]>
    (<[q := with_queue (with_qmutex MxLocked (ready_queue sc)) sc]> ss) = ss.
Proof.
  intros Hq Hm. rewrite insert_insert_eq. apply insert_id. rewrite Hq. f_equal.
  destruct sc as [[]]; cbn in *. by subst.
Qed.

Lemma lwt_queue_size_eval q me σ sc :
  q ≠ NULL → scheds σ !! q = Some sc → qmutex (ready_queue sc) = MxUnlocked →
  lwt_queue_size q me σ =
  Some (count (ready_queue sc), set_trace (trace σ ++ [EvQLock q; EvQUnlock q]) σ).
Proof.
  intros Hn Hq Hm. destruct σ as [h ss lv tt tw os e tr]. cbn in *.
  unfold lwt_queue_size. mrun. rewrite Hm. mrun.
  pose proof (sched_relock ss q sc Hq Hm) as E. unfold with_queue, with_qmutex in E.
  cbn in E. cbn. rewrite E. by rewrite <- app_assoc.
Qed.

Lemma lwt_queue_empty_eval q me σ sc :
  q ≠ NULL → scheds σ !! q = Some sc → qmutex (ready_queue sc) = MxUnlocked →
  lwt_queue_empty q me σ =
  Some (if decide (head (ready_queue sc) = NULL) then 1%Z else 0%Z,
        set_trace (trace σ ++ [EvQLock q; EvQUnlock q]) σ).
Proof.
  intros Hn Hq Hm. destruct σ as [h ss lv tt tw os e tr]. cbn in *.
  unfold lwt_queue_empty. mrun. rewrite Hm. mrun.
  pose proof (sched_relock ss q sc Hq Hm) as E. unfold with_queue, with_qmutex in E.
  cbn in E. cbn. rewrite E. by rewrite <- app_assoc.
Qed.






(** * Allocation and the scheduler's life cycle *)

Lemma malloc_eval_nil me σ :
  mallocs (env σ) = [] → malloc me σ = Some (NULL, σ).
Proof. intros H. unfold malloc. munfold. cbn. by rewrite H. Qed.

Lemma malloc_eval_null me σ rest :
  mallocs (env σ) = NULL :: rest →
  malloc me σ = Some (NULL, set_env (Oracle rest (syscalls (env σ)) (clock (env σ))) σ).
Proof. intros H. unfold malloc. munfold. cbn. rewrite H. by rewrite decide_True. Qed.

Lemma malloc_eval_cons me σ p rest :
  mallocs (env σ) = p :: rest → p ≠ NULL → p ∉ live σ →
  malloc me σ = Some (p, set_live ({[p]} ∪ live σ)
                         (set_env (Oracle rest (syscalls (env σ)) (clock (env σ))) σ)).
Proof.
  intros H Hn Hl. unfold malloc. munfold. cbn. rewrite H.
  rewrite decide_False by done. cbn. by rewrite decide_False.
Qed.

Lemma free_eval me σ p :
  p ≠ NULL → p ∈ live σ →
  free p me σ = Some ((), set_scheds (delete p (scheds σ))
                           (set_threads (delete p (threads σ))
                              (set_live (live σ ∖ {[p]}) σ))).
Proof.
  intros Hn Hl. unfold free. munfold. rewrite decide_False by done.
  by rewrite decide_True.
Qed.

Lemma memset_sched_eval me σ s :
  s ∈ live σ →
  memset_sched s me σ = Some ((), set_scheds (<[s := scheduler_zero]> (scheds σ)) σ).
Proof. intros Hl. unfold memset_sched. munfold. by rewrite decide_True. Qed.

Lemma memset_thread_eval me σ t :
  t ∈ live σ →
  memset_thread t me σ = Some ((), set_threads (<[t := thread_zero]> (threads σ)) σ).
Proof. intros Hl. unfold memset_thread. munfold. by rewrite decide_True. Qed.

Ltac mprim2 :=
  match goal with
  | |- context [next_syscall ?me ?σ] =>
      rewrite (next_syscall_eval me σ); unfold pop_syscall;
      cbn [syscalls env mallocs clock hd]
  | |- context [memset_sched ?s ?me ?σ] =>
      rewrite (memset_sched_eval me σ s) by (cbn; set_solver)
  | |- context [memset_thread ?s ?me ?σ] =>
      rewrite (memset_thread_eval me σ s) by (cbn; set_solver)
  | |- context [free ?p ?me ?σ] =>
      rewrite (free_eval me σ p) by (first [done | cbn; set_solver])
  | _ => mprim
  end.

Ltac mrun2 :=
  munfold; repeat (mnorm; cbn [syscalls env mallocs clock hd]; cbv beta iota; mprim2);
  mnorm; cbv beta iota.

Lemma fill_worker_ids_lookup k : ∀ (s : nat) ids i,
  s + k ≤ length ids →
  fill_worker_ids k (Z.of_nat s) ids !! i =
    if decide (s ≤ i < s + k) then Some (Z.of_nat i) else ids !! i.
Proof.
  induction k as [|k IH]; intros s ids i Hlen.
  - cbn. rewrite decide_False by lia. done.
  - cbn. replace (Z.of_nat s + 1)%Z with (Z.of_nat (S s)) by lia.
    rewrite IH by (rewrite length_insert; lia). rewrite Nat2Z.id.
    destruct (decide (S s ≤ i < S s + k)).
    + rewrite decide_True by lia. done.
    + destruct (decide (i = s)) as [->|].
      * rewrite decide_True by lia. rewrite list_lookup_insert_eq by lia. done.
      * rewrite decide_False by lia. by rewrite list_lookup_insert_ne.
Qed.

Lemma calls_succeed_cons k r rest σ m c :
  env σ = Oracle m (r :: rest) c →
  calls_succeed (S k) σ ↔ r = 0%Z ∧ calls_succeed k (set_env (Oracle m rest c) σ).
Proof.
  intros He. unfold calls_succeed. rewrite He. cbn. split.
  - intros H. split; [apply (H 0); [lia|done]|].
    intros i x Hi Hx. apply (H (S i)); [lia|done].
  - intros [-> H] [|i] x Hi Hx; [by injection Hx|]. apply (H i); [lia|done].
Qed.

Lemma calls_succeed_nil k σ : syscalls (env σ) = [] → calls_succeed k σ.
Proof. intros He i r _. by rewrite He. Qed.

Lemma lwt_scheduler_init_total s n me σ :
  s ≠ NULL → (1 ≤ n ≤ 64)%Z → s ∈ live σ →
  ∃ r σ', lwt_scheduler_init s n me σ = Some (r, σ') ∧
    live σ' = live σ ∧ threads σ' = threads σ ∧
    tls_thread σ' = tls_thread σ ∧ tls_worker σ' = tls_worker σ ∧
    os_threads σ' = os_threads σ ∧ trace σ' = trace σ ∧
    mallocs (env σ') = mallocs (env σ) ∧
    (∀ s', s' ≠ s → scheds σ' !! s' = scheds σ !! s') ∧
    ((r = 0%Z ∧ calls_succeed 3 σ ∧ scheds σ' !! s = Some (sched_fresh n)) ∨
     (r = (-1)%Z ∧ ¬ calls_succeed 3 σ ∧
      ∃ sc, scheds σ' !! s = Some sc ∧ sched_released sc)).
Proof.
  intros Hs Hn Hl. destruct σ as [h ss lv tt tw os [m sy c] tr]. cbn in Hl.
  unfold lwt_scheduler_init, lwt_queue_init, lwt_queue_destroy, pthread_mutex_destroy,
    mutex_destroy, LWT_MAX_WORKERS.
  rewrite (decide_False (P := s = NULL ∨ _)) by lia.
  destruct sy as [|a sy].
  { mrun2. eexists _, _. split; [done|]. mnorm.
    repeat (split; [done|]). rewrite !lookup_insert_eq.
    split; [intros; by rewrite !lookup_insert_ne|].
    left. split; [done|]. split; [by apply calls_succeed_nil|]. done. }
  destruct (decide (a = 0%Z)) as [->|Ha].
  2:{ mrun2. eexists _, _. split; [done|]. mnorm.
      repeat (split; [done|]). rewrite !lookup_insert_eq.
      split; [intros; by rewrite !lookup_insert_ne|].
      right. split; [done|]. split; [|by eexists].
      intros H. apply Ha. apply (H 0); [lia|done]. }
  destruct sy as [|b sy].
  { mrun2. eexists _, _. split; [done|]. mnorm.
    repeat (split; [done|]). rewrite !lookup_insert_eq.
    split; [intros; by rewrite !lookup_insert_ne|].
    left. split; [done|]. split; [|done].
    intros [|i] r Hi Hr; cbn in Hr; [by injection Hr|by destruct i]. }
  destruct (decide (b = 0%Z)) as [->|Hb].
  2:{ mrun2. eexists _, _. split; [done|]. mnorm.
      repeat (split; [done|]). rewrite !lookup_insert_eq.
      split; [intros; by rewrite !lookup_insert_ne|].
      right. split; [done|]. split; [|by eexists].
      intros H. apply Hb. apply (H 1); [lia|done]. }
  destruct sy as [|d sy].
  { mrun2. eexists _, _. split; [done|]. mnorm.
    repeat (split; [done|]). rewrite !lookup_insert_eq.
    split; [intros; by rewrite !lookup_insert_ne|].
    left. split; [done|]. split; [|done].
    intros [|[|i]] r Hi Hr; cbn in Hr; [by injection Hr|by injection Hr|by destruct i]. }
  destruct (decide (d = 0%Z)) as [->|Hd].
  2:{ mrun2. eexists _, _. split; [done|]. mnorm.
      repeat (split; [done|]). rewrite !lookup_insert_eq.
      split; [intros; by rewrite !lookup_insert_ne|].
      right. split; [done|]. split; [|by eexists].
      intros H. apply Hd. apply (H 2); [lia|done]. }
  mrun2. eexists _, _. split; [done|]. mnorm.
  repeat (split; [done|]). rewrite !lookup_insert_eq.
  split; [intros; by rewrite !lookup_insert_ne|].
  left. split; [done|]. split; [|done].
  intros [|[|[|i]]] r Hi Hr; cbn in Hr; try (by injection Hr). lia.
Qed.

Ltac mprim3 :=
  match goal with
  | |- context [malloc ?me ?σ] =>
      first [ rewrite (malloc_eval_nil me σ) by reflexivity
            | erewrite (malloc_eval_null me σ) by reflexivity
            | erewrite (malloc_eval_cons me σ) by (first [reflexivity | done | cbn; set_solver]) ]
  | H : ?x = ?v |- context [match ?x with _ => _ end] => rewrite H
  | _ => mprim2
  end.

Ltac mrun3 :=
  munfold; repeat (mnorm; cbn [syscalls env mallocs clock hd]; cbv beta iota; mprim3);
  mnorm; cbv beta iota.

Lemma lwt_scheduler_create_total n me σ :
  (1 ≤ n ≤ 64)%Z → malloc_sane σ →
  ∃ s σ', lwt_scheduler_create n me σ = Some (s, σ') ∧
    tls_thread σ' = tls_thread σ ∧
    tls_worker σ' = tls_worker σ ∧ os_threads σ' = os_threads σ ∧
    trace σ' = trace σ ∧
    ((s = NULL ∧ live σ' = live σ ∧ (¬ (malloc_succeeds σ ∧ calls_succeed 3 σ))) ∨
     (s ≠ NULL ∧ mallocs (env σ) !! 0 = Some s ∧ (s ∉ live σ) ∧
      live σ' = {[s]} ∪ live σ ∧ threads σ' = threads σ ∧
      malloc_succeeds σ ∧ calls_succeed 3 σ ∧
      scheds σ' !! s = Some (sched_fresh n) ∧
      ∀ p, p ≠ s → scheds σ' !! p = scheds σ !! p)).
Proof.
  intros Hn Hsane. unfold lwt_scheduler_create, LWT_MAX_WORKERS.
  rewrite decide_False by lia.
  destruct (mallocs (env σ)) as [|p rest] eqn:Hm.
  { unfold mbind, M_bind. rewrite (malloc_eval_nil _ _ Hm). cbv beta iota.
    rewrite decide_True by done. unfold mret, M_ret.
    eexists _, _. split; [done|]. repeat (split; [done|]). left.
    split; [done|]. split; [done|]. intros [(p & Hp & _) _]. by rewrite Hm in Hp. }
  destruct (decide (p = NULL)) as [->|Hp].
  { unfold mbind, M_bind. rewrite (malloc_eval_null _ _ _ Hm). cbv beta iota.
    rewrite decide_True by done. unfold mret, M_ret.
    eexists _, _. split; [done|]. repeat (split; [done|]). left.
    split; [done|]. split; [done|]. intros [(p & Hp & Hpn & _) _].
    rewrite Hm in Hp. cbn in Hp. congruence. }
  assert (Hfresh : p ∉ live σ) by (apply Hsane; by rewrite Hm).
  unfold mbind, M_bind. rewrite (malloc_eval_cons _ _ _ _ Hm Hp Hfresh). cbv beta iota.
  rewrite decide_False by done.
  match goal with |- context [lwt_scheduler_init p n me ?σ1] =>
    destruct (lwt_scheduler_init_total p n me σ1 Hp Hn) as
      (r & σ' & Hinit & Hlive & Hth & Htt & Htw & Hos & Htr & Hmal & Hother & Hcase);
      [mnorm; set_solver|]
  end.
  rewrite Hinit. cbv beta iota. revert Hlive Hth Htt Htw Hos Htr. mnorm.
  intros Hlive Hth Htt Htw Hos Htr.
  assert (Hcs : ∀ m, calls_succeed 3 (set_live m (set_env
                  (Oracle rest (syscalls (env σ)) (clock (env σ))) σ))
                ↔ calls_succeed 3 σ) by done.
  destruct Hcase as [(-> & Hok & Hsc)|(-> & Hbad & _)].
  - rewrite decide_False by (intuition congruence). unfold mret, M_ret.
    eexists _, _. split; [done|]. repeat (split; [done|]). right.
    split; [done|]. split; [done|]. split; [done|]. split; [done|].
    split; [done|].
    split; [exists p; by rewrite Hm|]. split; [by apply Hcs in Hok|].
    split; [done|]. intros q Hq. by rewrite Hother.
  - rewrite decide_True by done. rewrite free_eval by (first [done|rewrite Hlive; set_solver]).
    unfold mret, M_ret. eexists _, _. split; [done|]. mnorm.
    repeat (split; [done|]). left. split; [done|]. split; [rewrite Hlive; set_solver|].
    intros [_ Hok]. apply Hbad. by apply Hcs.
Qed.

Lemma sched_fresh_rep h n : rep h (ready_queue (sched_fresh n)) [].
Proof. by apply rep_nil. Qed.

(** C7 — [lwt_scheduler_create] validates the worker count: it returns NULL,
    changing nothing, when [n < 1] or [n > 64]; and for [1 ≤ n ≤ 64], when
    the allocation and the three initialisations succeed, it returns a
    non-NULL scheduler whose [running_flag] is 0, whose [next_thread_id] is
    1, whose ready queue is empty and whose worker ids are [0 .. n-1]. *)
Theorem scheduler_create_spec n me σ :
  ((n < 1 ∨ n > LWT_MAX_WORKERS)%Z → lwt_scheduler_create n me σ = Some (NULL, σ)) ∧
  ((1 ≤ n ≤ LWT_MAX_WORKERS)%Z → malloc_succeeds σ → calls_succeed 3 σ →
   ∃ s σ' sc,
     lwt_scheduler_create n me σ = Some (s, σ') ∧ s ≠ NULL ∧
     scheds σ' !! s = Some sc ∧
     running_flag sc = 0%Z ∧ next_thread_id sc = 1%Z ∧ num_workers sc = n ∧
     queue_rep σ' s [] ∧ queue_tasks σ' s = [] ∧ queue_count σ' s = 0%Z ∧
     head (ready_queue sc) = NULL ∧
     ∀ i, (0 ≤ i < n)%Z → worker_ids sc !! Z.to_nat i = Some i).
Proof.
  unfold LWT_MAX_WORKERS. split.
  - intros Hn. unfold lwt_scheduler_create, LWT_MAX_WORKERS.
    by rewrite decide_True by lia.
  - intros Hn (p & Hp & Hpn & Hpl) Hok.
    destruct (lwt_scheduler_create_total n me σ Hn) as (s & σ' & Hc & _ & _ & _ & _ & Hcase).
    { intros q Hq. congruence. }
    destruct Hcase as [(_ & _ & Hbad)|(Hs & _ & _ & _ & _ & _ & _ & Hsc & _)].
    { exfalso. apply Hbad. split; [by exists p|done]. }
    assert (Hr : queue_rep σ' s []) by (eexists; split; [done|apply sched_fresh_rep]).
    exists s, σ', (sched_fresh n). split; [done|]. split; [done|]. split; [done|].
    split; [done|]. split; [done|]. split; [done|]. split; [done|].
    split; [by apply queue_tasks_rep|]. split; [by rewrite (queue_count_rep _ _ _ Hr)|].
    split; [done|]. intros i Hi. unfold sched_fresh. cbn [worker_ids].
    rewrite (fill_worker_ids_lookup _ 0) by (rewrite length_replicate; lia).
    rewrite decide_True by lia. f_equal. lia.
Qed.

Lemma scheduler_create_spec_witness :
  (lwt_scheduler_create 0 0 (boot (Oracle [100] [] (0, 0)%Z))
     = Some (NULL, boot (Oracle [100] [] (0, 0)%Z))) ∧
  (lwt_scheduler_create 65 0 (boot (Oracle [100] [] (0, 0)%Z))
     = Some (NULL, boot (Oracle [100] [] (0, 0)%Z))) ∧
  ∃ s σ' sc,
     lwt_scheduler_create 4 0 (boot (Oracle [100] [] (0, 0)%Z)) = Some (s, σ') ∧ s ≠ NULL ∧
     scheds σ' !! s = Some sc ∧
     running_flag sc = 0%Z ∧ next_thread_id sc = 1%Z ∧ num_workers sc = 4%Z ∧
     queue_rep σ' s [] ∧ queue_tasks σ' s = [] ∧ queue_count σ' s = 0%Z ∧
     head (ready_queue sc) = NULL ∧
     ∀ i, (0 ≤ i < 4)%Z → worker_ids sc !! Z.to_nat i = Some i.
Proof.
  pose proof (scheduler_create_spec 0 0 (boot (Oracle [100] [] (0, 0)%Z))) as [H0 _].
  pose proof (scheduler_create_spec 65 0 (boot (Oracle [100] [] (0, 0)%Z))) as [H65 _].
  pose proof (scheduler_create_spec 4 0 (boot (Oracle [100] [] (0, 0)%Z))) as [_ H4].
  split; [apply H0; lia|]. split; [apply H65; unfold LWT_MAX_WORKERS; lia|].
  apply H4.
  - unfold LWT_MAX_WORKERS. lia.
  - exists 100. split; [reflexivity|]. split; [done|]. cbn. decide_by_compute.
  - intros i r Hi Hr. done.
Defined.

Lemma malloc_eval_fault me σ p rest :
  mallocs (env σ) = p :: rest → p ≠ NULL → p ∈ live σ → malloc me σ = None.
Proof.
  intros H Hn Hl. unfold malloc. munfold. cbn. rewrite H.
  rewrite decide_False by done. cbn. by rewrite decide_True.
Qed.

Lemma lwt_thread_init_eval t f a s sz me σ sc :
  t ≠ NULL → f ≠ NULL → s ≠ NULL → t ∈ live σ →
  scheds σ !! s = Some sc → mutex sc = MxUnlocked → heap_wf σ →
  (¬ malloc_sane σ ∧ lwt_thread_init t f a s sz me σ = None) ∨
  ∃ r σ', lwt_thread_init t f a s sz me σ = Some (r, σ') ∧
    tls_thread σ' = tls_thread σ ∧ tls_worker σ' = tls_worker σ ∧
    os_threads σ' = os_threads σ ∧
    ((r = (-1)%Z ∧ live σ' = live σ ∧ scheds σ' = scheds σ ∧ trace σ' = trace σ ∧
      threads σ' = <[t := thread_failed f a s (init_stack_size sz)]> (threads σ) ∧
      (¬ (malloc_succeeds σ ∧ hd 0%Z (syscalls (env σ)) ≠ (-1)%Z))) ∨
     (r = 0%Z ∧ ∃ stk, mallocs (env σ) !! 0 = Some stk ∧ stk ≠ NULL ∧ (stk ∉ live σ) ∧
      hd 0%Z (syscalls (env σ)) ≠ (-1)%Z ∧
      live σ' = {[stk]} ∪ live σ ∧
      threads σ' = <[t := thread_fresh f a s stk (init_stack_size sz) (next_thread_id sc)]>
                     (threads σ) ∧
      scheds σ' = <[s := with_next_thread_id (next_thread_id sc + 1) sc]> (scheds σ) ∧
      trace σ' = trace σ ++ [EvLock s; EvUnlock s])).
Proof.
  intros Ht Hf Hs Hl Hsc Hmx [Hwt Hws].
  destruct σ as [h ss lv tt tw os [m sy c] tr]. cbn in Hl, Hsc, Hwt, Hws.
  unfold lwt_thread_init. fold (init_stack_size sz).
  rewrite (decide_False (P := t = NULL ∨ _)) by (intuition congruence).
  destruct m as [|stk m].
  { right. mrun3. eexists _, _. split; [done|]. mnorm. repeat (split; [done|]).
    left. repeat (split; [done|]). split.
    - by rewrite !alter_insert_eq.
    - intros [(p & Hp & _) _]. done. }
  destruct (decide (stk = NULL)) as [->|Hstk].
  { right. mrun3. eexists _, _. split; [done|]. mnorm. repeat (split; [done|]).
    left. repeat (split; [done|]). split.
    - by rewrite !alter_insert_eq.
    - intros [(p & Hp & Hpn & _) _]. cbn in Hp. congruence. }
  destruct (decide (stk ∈ lv)) as [Hin|Hout].
  { left. split.
    - intros Hsane. apply (Hsane stk); [done|]. done.
    - mrun3. erewrite malloc_eval_fault; [done|reflexivity|done|done]. }
  assert (stk ≠ t) by (intros ->; done).
  assert (Hhs : h !! stk = None).
  { destruct (h !! stk) eqn:E; [|done]. exfalso. apply Hout, Hwt. by eexists. }
  assert (Hss : ss !! stk = None).
  { destruct (ss !! stk) eqn:E; [|done]. exfalso. apply Hout, Hws. by eexists. }
  right. destruct (decide (hd 0%Z sy = (-1)%Z)) as [Hr|Hr].
  - destruct sy as [|r sy]; [done|]. cbn in Hr. subst r.
    mrun3. eexists _, _. split; [done|]. mnorm. repeat (split; [done|]).
    left. split; [done|]. split; [set_solver|]. split; [by apply delete_id|].
    split; [done|]. split.
    + rewrite !alter_insert_eq. rewrite delete_insert_ne by done.
      rewrite delete_id by done. by rewrite alter_insert_eq.
    + intros [_ Hbad]. by apply Hbad.
  - destruct sy as [|r sy].
    + mrun3. eexists _, _. split; [done|]. mnorm. repeat (split; [done|]).
      right. split; [done|]. exists stk. repeat (split; [done|]).
      split; [by rewrite !alter_insert_eq|]. split; [by rewrite !insert_insert_eq|].
      by rewrite <- app_assoc.
    + cbn in Hr. mrun3. eexists _, _. split; [done|]. mnorm. repeat (split; [done|]).
      right. split; [done|]. exists stk. repeat (split; [done|]).
      split; [by rewrite !alter_insert_eq|]. split; [by rewrite !insert_insert_eq|].
      by rewrite <- app_assoc.
Qed.

(** C8 — A task-init or scheduler-init call that fails partway reports the
    failure by returning -1 and has rolled the object back on return:
    after a failed [lwt_thread_init] (stack allocation or [getcontext]
    failed) the set of live blocks is what it was before the call and the
    task's [stack] is NULL; after a failed [lwt_scheduler_init] (one of the
    three pthread initialisations failed) the scheduler holds no mutex, no
    condition variable and no queue mutex.  Failure occurs exactly when
    the environment makes one of these calls fail. *)
Theorem init_rollback :
  (∀ t f a s sz me σ sc,
     t ≠ NULL → f ≠ NULL → s ≠ NULL → t ∈ live σ →
     scheds σ !! s = Some sc → mutex sc = MxUnlocked → heap_wf σ → malloc_sane σ →
     ∃ r σ', lwt_thread_init t f a s sz me σ = Some (r, σ') ∧
       (r = 0%Z ∨ r = (-1)%Z) ∧
       (r = 0%Z ↔ malloc_succeeds σ ∧ hd 0%Z (syscalls (env σ)) ≠ (-1)%Z) ∧
       (r = (-1)%Z →
          live σ' = live σ ∧ scheds σ' = scheds σ ∧
          stack <$> threads σ' !! t = Some NULL)) ∧
  (∀ s n me σ,
     s ≠ NULL → (1 ≤ n ≤ LWT_MAX_WORKERS)%Z → s ∈ live σ →
     ∃ r σ', lwt_scheduler_init s n me σ = Some (r, σ') ∧
       (r = 0%Z ∨ r = (-1)%Z) ∧
       (r = 0%Z ↔ calls_succeed 3 σ) ∧
       (r = (-1)%Z →
          live σ' = live σ ∧
          ∃ sc, scheds σ' !! s = Some sc ∧ sched_released sc)).
Proof.
  split.
  - intros t f a s sz me σ sc Ht Hf Hs Hl Hsc Hmx Hwf Hsane.
    destruct (lwt_thread_init_eval t f a s sz me σ sc Ht Hf Hs Hl Hsc Hmx Hwf)
      as [[Hbad _]|(r & σ' & Hrun & _ & _ & _ & Hcase)]; [done|].
    exists r, σ'. split; [done|].
    destruct Hcase as [(-> & Hlive & Hss & _ & Hth & Hno)
                      |(-> & stk & Hm & Hstk & Hfresh & Hgc & _)].
    + split; [by right|]. split; [split; [done|]; intros ?; by exfalso|].
      intros _. split; [done|]. split; [done|]. by rewrite Hth, lookup_insert_eq.
    + split; [by left|]. split; [|done]. split; [|done]. intros _.
      split; [by exists stk|done].
  - unfold LWT_MAX_WORKERS. intros s n me σ Hs Hn Hl.
    destruct (lwt_scheduler_init_total s n me σ Hs Hn Hl)
      as (r & σ' & Hrun & Hlive & _ & _ & _ & _ & _ & _ & _ & Hcase).
    exists r, σ'. split; [done|].
    destruct Hcase as [(-> & Hok & _)|(-> & Hbad & Hrel)].
    + split; [by left|]. split; [done|]. done.
    + split; [by right|]. split; [split; [done|]; intros ?; by exfalso|]. done.
Qed.

Lemma demo_world_wf orc : heap_wf (set_env orc demo_world).
Proof.
  split; intros p [x Hx]; cbn in *.
  - destruct (decide (p = 1)) as [->|]; [decide_by_compute|].
    destruct (decide (p = 2)) as [->|]; [decide_by_compute|].
    destruct (decide (p = 3)) as [->|]; [decide_by_compute|].
    by rewrite !lookup_insert_ne in Hx.
  - destruct (decide (p = 100)) as [->|]; [decide_by_compute|].
    by rewrite !lookup_insert_ne in Hx.
Qed.

Lemma init_rollback_witness :
  (* getcontext fails after the stack at 50 was allocated *)
  (∃ σ', lwt_thread_init 1 7 0 100 0 0
           (set_env (Oracle [50] [(-1)%Z] (0, 0)%Z) demo_world) = Some ((-1)%Z, σ') ∧
         live σ' = live demo_world ∧
         stack <$> threads σ' !! 1 = Some NULL) ∧
  (* pthread_cond_init fails after the queue and the mutex were initialised *)
  (∃ σ' sc, lwt_scheduler_init 100 4 0
              (set_env (Oracle [] [0; 0; 11]%Z (0, 0)%Z) demo_world) = Some ((-1)%Z, σ') ∧
            live σ' = live demo_world ∧
            scheds σ' !! 100 = Some sc ∧ sched_released sc).
Proof.
  destruct init_rollback as [HA HB]. split.
  - assert (Hl : 1 ∈ live (set_env (Oracle [50] [(-1)%Z] (0, 0)%Z) demo_world))
      by (cbn; decide_by_compute).
    assert (Hsane : malloc_sane (set_env (Oracle [50] [(-1)%Z] (0, 0)%Z) demo_world)).
    { intros p [= <-]. cbn. decide_by_compute. }
    destruct (HA 1 7 0 100 0%Z 0 (set_env (Oracle [50] [(-1)%Z] (0, 0)%Z) demo_world)
                demo_sched ltac:(done) ltac:(done) ltac:(done) Hl eq_refl eq_refl
                (demo_world_wf _) Hsane) as (r & σ' & Hrun & _ & Hiff & Hroll).
    assert (r = (-1)%Z) as ->.
    { cut (fst <$> lwt_thread_init 1 7 0 100 0 0
             (set_env (Oracle [50] [(-1)%Z] (0, 0)%Z) demo_world) = Some (-1)%Z).
      { rewrite Hrun. by intros [=]. }
      by vm_compute. }
    exists σ'. split; [done|]. destruct (Hroll eq_refl) as (? & _ & ?). done.
  - assert (Hl : 100 ∈ live (set_env (Oracle [] [0; 0; 11]%Z (0, 0)%Z) demo_world))
      by (cbn; decide_by_compute).
    destruct (HB 100 4%Z 0 (set_env (Oracle [] [0; 0; 11]%Z (0, 0)%Z) demo_world)
                ltac:(done) ltac:(unfold LWT_MAX_WORKERS; lia) Hl)
      as (r & σ' & Hrun & _ & Hiff & Hroll).
    assert (r = (-1)%Z) as ->.
    { cut (fst <$> lwt_scheduler_init 100 4 0
             (set_env (Oracle [] [0; 0; 11]%Z (0, 0)%Z) demo_world) = Some (-1)%Z).
      { rewrite Hrun. by intros [=]. }
      by vm_compute. }
    destruct (Hroll eq_refl) as (? & sc & ? & ?). by exists σ', sc.
Defined.

(** * Stopping a scheduler that is not running *)

Lemma lwt_scheduler_stop_idle s me σ sc :
  scheds σ !! s = Some sc → running_flag sc = 0%Z →
  lwt_scheduler_stop s me σ = Some ((), σ).
Proof.
  intros Hsc Hf. unfold lwt_scheduler_stop. destruct (decide (s = NULL)); [done|].
  mrun3. done.
Qed.

(** C9 — [lwt_scheduler_stop] on a scheduler that is not running returns
    with the whole state unchanged; so stopping twice is stopping once;
    and the sequence create; stop; stop; destroy completes without a
    fault, whatever the worker count and whatever the environment answers,
    and gives back every block it allocated. *)
Theorem stop_idempotent :
  (∀ s me σ sc, scheds σ !! s = Some sc → running_flag sc = 0%Z →
     lwt_scheduler_stop s me σ = Some ((), σ) ∧
     (lwt_scheduler_stop s;; lwt_scheduler_stop s) me σ = lwt_scheduler_stop s me σ) ∧
  (∀ n me σ, malloc_sane σ →
     ∃ σ', stop_twice n me σ = Some ((), σ') ∧ live σ' = live σ).
Proof.
  split.
  - intros s me σ sc Hsc Hf. pose proof (lwt_scheduler_stop_idle s me σ sc Hsc Hf) as E.
    split; [done|]. unfold mbind, M_bind. by rewrite E.
  - intros n me σ Hsane. unfold stop_twice.
    destruct (decide (1 ≤ n ≤ 64)%Z) as [Hn|Hn].
    2:{ unfold lwt_scheduler_create, LWT_MAX_WORKERS. rewrite decide_True by lia.
        exists σ. by mrun3. }
    destruct (lwt_scheduler_create_total n me σ Hn Hsane)
      as (s & σ1 & Hc & _ & _ & _ & _ & Hcase).
    unfold mbind at 1. unfold M_bind at 1. rewrite Hc. cbv beta iota.
    destruct Hcase as [(-> & Hlive & _)|(Hs & _ & Hfresh & Hlive & _ & _ & _ & Hsc & _)].
    { exists σ1. split; [|done]. by mrun3. }
    unfold mbind at 1. unfold M_bind at 1.
    rewrite (lwt_scheduler_stop_idle s me σ1 _ Hsc eq_refl). cbv beta iota.
    unfold mbind at 1. unfold M_bind at 1.
    rewrite (lwt_scheduler_stop_idle s me σ1 _ Hsc eq_refl). cbv beta iota.
    unfold lwt_scheduler_destroy. rewrite decide_False by done.
    unfold mbind at 1. unfold M_bind at 1.
    rewrite (lwt_scheduler_stop_idle s me σ1 _ Hsc eq_refl). cbv beta iota.
    unfold lwt_scheduler_cleanup, lwt_queue_destroy, pthread_mutex_destroy,
      pthread_cond_destroy, mutex_destroy.
    unfold sched_fresh in Hsc. destruct σ1 as [h ss lv tt tw os e tr]. cbn in *.
    mrun3. eexists. split; [done|]. mnorm. rewrite Hlive. set_solver.
Qed.

Lemma stop_idempotent_witness :
  (∃ σ, lwt_scheduler_create 4 0 (boot (Oracle [100] [] (0, 0)%Z)) = Some (100, σ) ∧
        lwt_scheduler_stop 100 0 σ = Some ((), σ) ∧
        (lwt_scheduler_stop 100;; lwt_scheduler_stop 100) 0 σ
          = lwt_scheduler_stop 100 0 σ) ∧
  (∃ σ', stop_twice 4 0 (boot (Oracle [100] [] (0, 0)%Z)) = Some ((), σ') ∧
         live σ' = live (boot (Oracle [100] [] (0, 0)%Z))).
Proof.
  destruct stop_idempotent as [HA HB]. split.
  - eexists. split; [by vm_compute|].
    eapply HA; [by vm_compute|reflexivity].
  - apply HB. intros p [= <-]. cbn. decide_by_compute.
Defined.

(** * The cooperative primitives *)

Ltac solve_tail :=
  mnorm;
  match goal with
  | H : tail _ = NULL ∨ is_Some _ |- _ =>
      destruct H as [H|H]; [left; exact H|right; solve_alloc]
  | H : rep _ _ _ |- _ =>
      destruct (rep_tail_alloc _ _ _ H) as [H'|H']; [left; exact H'|right; solve_alloc]
  end.

Ltac mprim4 :=
  match goal with
  | H : ?m !! ?k = Some _ |- context [?m !! ?k] => rewrite H
  | |- context [lwt_queue_push_locked ?q ?t ?me ?σ] =>
      erewrite (push_locked_eval q t me σ); [ | solve_lookup | solve_alloc | solve_tail ]
  | _ => mprim3
  end.

Ltac mrun4 :=
  munfold;
  repeat (mnorm;
          cbn [syscalls env mallocs clock hd from_option Datatypes.id
               context stack stack_size state func arg next waiting scheduler id
               with_state with_next with_waiting with_stack with_context with_id];
          cbv beta iota; mprim4);
  mnorm; cbv beta iota.

Ltac mfinish :=
  rewrite ?insert_insert_eq; unfold upd_world, sched_after, clear_slot;
  cbn [threads scheds live tls_thread tls_worker os_threads env trace];
  repeat match goal with
         | H : mutex ?sc = _ |- context [mutex ?sc] => rewrite H
         | H : cond ?sc = _ |- context [cond ?sc] => rewrite H
         end;
  rewrite <- ?app_assoc; cbn [app]; reflexivity.

Lemma tls_default (m : gmap nat ptr) me t : m !! me = Some t → default NULL (m !! me) = t.
Proof. by intros ->. Qed.

Lemma tlsw_default (m : gmap nat Z) me w : m !! me = Some w → default (-1)%Z (m !! me) = w.
Proof. by intros ->. Qed.

Lemma sched_eta sc :
  mutex sc = MxUnlocked → cond sc = CvReady →
  ∀ Q r, Scheduler Q (workers sc) (worker_ids sc) (num_workers sc) r
                   MxUnlocked (cond sc) (running_flag sc) (next_thread_id sc)
         = sched_after Q r sc.
Proof. intros Hm Hc Q r. unfold sched_after. by rewrite Hm. Qed.

Lemma lwt_yield_eval me σ t s w th sc :
  tls_thread σ !! me = Some t → t ≠ NULL → threads σ !! t = Some th →
  scheduler th = s → tls_worker σ !! me = Some w →
  scheds σ !! s = Some sc → (0 ≤ w < num_workers sc)%Z →
  (num_workers sc ≤ Z.of_nat (length (running sc)))%Z →
  mutex sc = MxUnlocked → cond sc = CvReady →
  (tail (ready_queue sc) = NULL ∨ is_Some (threads σ !! tail (ready_queue sc))) →
  state th ≠ LWT_STATE_FINISHED →
  lwt_yield me σ = Some ((),
    upd_world
      (push_threads (alter (with_state LWT_STATE_READY) t (threads σ))
                    (tail (ready_queue sc)) t)
      (<[s := sched_after (push_queue (ready_queue sc) t) (clear_slot w sc) sc]> (scheds σ))
      [EvLock s; EvState t LWT_STATE_READY; EvPush s t; EvRunning s w NULL;
       EvSignal s; EvUnlock s; EvSwap (CtxThread t) (CtxMain s w)] σ).
Proof.
  intros Hcur Ht Hth Hs Hw Hsc Hwr Hlen Hmx Hcv Htl Hst.
  destruct σ as [h ss lv tt tw os e tr]. cbn in *. subst s.
  unfold lwt_yield. mrun4. mfinish.
Qed.

Lemma lwt_yield_eval_finished me σ t s w th sc :
  tls_thread σ !! me = Some t → t ≠ NULL → threads σ !! t = Some th →
  scheduler th = s → tls_worker σ !! me = Some w →
  scheds σ !! s = Some sc → (0 ≤ w < num_workers sc)%Z →
  (num_workers sc ≤ Z.of_nat (length (running sc)))%Z →
  mutex sc = MxUnlocked → cond sc = CvReady →
  state th = LWT_STATE_FINISHED →
  lwt_yield me σ = Some ((),
    upd_world (threads σ)
      (<[s := sched_after (ready_queue sc) (clear_slot w sc) sc]> (scheds σ))
      [EvLock s; EvRunning s w NULL; EvSignal s; EvUnlock s;
       EvSwap (CtxThread t) (CtxMain s w)] σ).
Proof.
  intros Hcur Ht Hth Hs Hw Hsc Hwr Hlen Hmx Hcv Hst.
  destruct σ as [h ss lv tt tw os e tr]. cbn in *. subst s.
  unfold lwt_yield. mrun4. mfinish.
Qed.

Lemma lwt_yield_eval_outside me σ :
  outside_task σ me → lwt_yield me σ = Some ((), σ).
Proof.
  unfold outside_task. intros Hout. unfold lwt_yield. munfold. rewrite Hout.
  by rewrite decide_True.
Qed.

Lemma lwt_join_eval_finished me σ target t s w th sc tth :
  tls_thread σ !! me = Some t → t ≠ NULL → threads σ !! t = Some th →
  scheduler th = s → tls_worker σ !! me = Some w →
  scheds σ !! s = Some sc → (0 ≤ w < num_workers sc)%Z →
  mutex sc = MxUnlocked →
  target ≠ NULL → threads σ !! target = Some tth →
  state tth = LWT_STATE_FINISHED →
  lwt_join target me σ = Some ((), set_trace (trace σ ++ [EvLock s; EvUnlock s]) σ).
Proof.
  intros Hcur Ht Hth Hs Hw Hsc Hwr Hmx Htn Htth Hst.
  destruct σ as [h ss lv tt tw os e tr]. cbn in *. subst s.
  unfold lwt_join. mrun4. rewrite insert_insert_eq, insert_id.
  - by rewrite <- app_assoc.
  - rewrite Hsc. f_equal. destruct sc; cbn in *. by subst.
Qed.

Lemma lwt_join_eval me σ target t s w th sc tth :
  tls_thread σ !! me = Some t → t ≠ NULL → threads σ !! t = Some th →
  scheduler th = s → tls_worker σ !! me = Some w →
  scheds σ !! s = Some sc → (0 ≤ w < num_workers sc)%Z →
  (num_workers sc ≤ Z.of_nat (length (running sc)))%Z →
  mutex sc = MxUnlocked →
  target ≠ NULL → threads σ !! target = Some tth →
  state tth ≠ LWT_STATE_FINISHED →
  lwt_join target me σ = Some ((),
    upd_world
      (alter (with_waiting t) target (alter (with_state LWT_STATE_BLOCKED) t (threads σ)))
      (<[s := sched_after (ready_queue sc) (clear_slot w sc) sc]> (scheds σ))
      [EvLock s; EvState t LWT_STATE_BLOCKED; EvWaiting target t; EvRunning s w NULL;
       EvUnlock s; EvSwap (CtxThread t) (CtxMain s w)] σ).
Proof.
  intros Hcur Ht Hth Hs Hw Hsc Hwr Hlen Hmx Htn Htth Hst.
  destruct σ as [h ss lv tt tw os e tr]. cbn in *. subst s.
  unfold lwt_join. mrun4. mfinish.
Qed.

Lemma lwt_join_eval_outside me σ target :
  outside_task σ me → lwt_join target me σ = Some ((), σ).
Proof.
  unfold outside_task. intros Hout. unfold lwt_join.
  destruct (decide (target = NULL)); [done|]. munfold. rewrite Hout.
  by rewrite decide_True.
Qed.

Lemma lwt_sleep_eval_outside me σ ms :
  outside_task σ me →
  lwt_sleep ms me σ =
  Some ((), set_trace (trace σ ++ [EvNanosleep (ms / 1000) ((ms mod 1000) * 1000000)]) σ).
Proof.
  unfold outside_task. intros Hout. unfold lwt_sleep, lwt_sleep_wait. munfold.
  rewrite Hout. by rewrite decide_True.
Qed.

Lemma lwt_sleep_wait_eval me σ ms t s w th sc :
  tls_thread σ !! me = Some t → t ≠ NULL → threads σ !! t = Some th →
  scheduler th = s → tls_worker σ !! me = Some w →
  scheds σ !! s = Some sc → (0 ≤ w < num_workers sc)%Z →
  (num_workers sc ≤ Z.of_nat (length (running sc)))%Z →
  mutex sc = MxUnlocked →
  lwt_sleep_wait ms me σ = Some (Some (t, s, w),
    upd_world
      (alter (with_state LWT_STATE_BLOCKED) t (threads σ))
      (<[s := sched_after (ready_queue sc) (clear_slot w sc) sc]> (scheds σ))
      [EvClock; EvLock s; EvState t LWT_STATE_BLOCKED; EvRunning s w NULL; EvUnlock s;
       EvNanosleep (wake_time (clock (env σ)) ms).1 (wake_time (clock (env σ)) ms).2] σ).
Proof.
  intros Hcur Ht Hth Hs Hw Hsc Hwr Hlen Hmx.
  destruct σ as [h ss lv tt tw os e tr]. cbn in *. subst s.
  unfold lwt_sleep_wait. mrun4. unfold wake_time. cbv zeta. mfinish.
Qed.

Lemma lwt_sleep_wake_eval me σ t s w sc :
  is_Some (threads σ !! t) →
  scheds σ !! s = Some sc → mutex sc = MxUnlocked → cond sc = CvReady →
  (tail (ready_queue sc) = NULL ∨ is_Some (threads σ !! tail (ready_queue sc))) →
  lwt_sleep_wake t s w me σ = Some ((),
    upd_world
      (push_threads (alter (with_state LWT_STATE_READY) t (threads σ))
                    (tail (ready_queue sc)) t)
      (<[s := sched_after (push_queue (ready_queue sc) t) (running sc) sc]> (scheds σ))
      [EvLock s; EvState t LWT_STATE_READY; EvPush s t; EvSignal s; EvUnlock s;
       EvSwap (CtxThread t) (CtxMain s w)] σ).
Proof.
  intros Hth Hsc Hmx Hcv Htl.
  destruct σ as [h ss lv tt tw os e tr]. cbn in *.
  unfold lwt_sleep_wake. mrun4. mfinish.
Qed.

Lemma lwt_thread_finish_eval me σ t s w th sc :
  tls_thread σ !! me = Some t → t ≠ NULL → threads σ !! t = Some th →
  scheduler th = s → tls_worker σ !! me = Some w →
  scheds σ !! s = Some sc → (0 ≤ w < num_workers sc)%Z →
  (num_workers sc ≤ Z.of_nat (length (running sc)))%Z →
  mutex sc = MxUnlocked → cond sc = CvReady →
  waiting th = NULL →
  lwt_thread_finish t me σ = Some ((),
    upd_world
      (alter (with_state LWT_STATE_FINISHED) t (threads σ))
      (<[s := sched_after (ready_queue sc) (clear_slot w sc) sc]> (scheds σ))
      [EvLock s; EvState t LWT_STATE_FINISHED; EvUnlock s;
       EvLock s; EvRunning s w NULL; EvSignal s; EvUnlock s;
       EvSwap (CtxThread t) (CtxMain s w)] σ).
Proof.
  intros Hcur Ht Hth Hs Hw Hsc Hwr Hlen Hmx Hcv Hj.
  destruct σ as [h ss lv tt tw os e tr]. cbn in *. subst s.
  unfold lwt_thread_finish, lwt_yield. mrun4. mfinish.
Qed.

Lemma lwt_thread_finish_eval_joiner me σ t s w th sc j :
  tls_thread σ !! me = Some t → t ≠ NULL → threads σ !! t = Some th →
  scheduler th = s → tls_worker σ !! me = Some w →
  scheds σ !! s = Some sc → (0 ≤ w < num_workers sc)%Z →
  (num_workers sc ≤ Z.of_nat (length (running sc)))%Z →
  mutex sc = MxUnlocked → cond sc = CvReady →
  (tail (ready_queue sc) = NULL ∨ is_Some (threads σ !! tail (ready_queue sc))) →
  waiting th = j → j ≠ NULL → j ≠ t → is_Some (threads σ !! j) →
  lwt_thread_finish t me σ = Some ((),
    upd_world
      (alter (with_waiting NULL) t
         (push_threads
            (alter (with_state LWT_STATE_READY) j
               (alter (with_state LWT_STATE_FINISHED) t (threads σ)))
            (tail (ready_queue sc)) j))
      (<[s := sched_after (push_queue (ready_queue sc) j) (clear_slot w sc) sc]> (scheds σ))
      [EvLock s; EvState t LWT_STATE_FINISHED; EvState j LWT_STATE_READY; EvPush s j;
       EvWaiting t NULL; EvSignal s; EvUnlock s;
       EvLock s; EvRunning s w NULL; EvSignal s; EvUnlock s;
       EvSwap (CtxThread t) (CtxMain s w)] σ).
Proof.
  intros Hcur Ht Hth Hs Hw Hsc Hwr Hlen Hmx Hcv Htl Hj Hjn Hjt Hja.
  destruct σ as [h ss lv tt tw os e tr]. cbn in *. subst s j.
  unfold lwt_thread_finish, lwt_yield. mrun4. mfinish.
Qed.

(** * What the primitives do, in terms of the queue content *)

Lemma emitted_upd h ss evs σ : emitted σ (upd_world h ss evs σ) = evs.
Proof. unfold emitted, upd_world. cbn. by rewrite drop_app_length. Qed.

Lemma emitted_set_trace evs σ : emitted σ (set_trace (trace σ ++ evs) σ) = evs.
Proof. unfold emitted, set_trace. cbn. by rewrite drop_app_length. Qed.

Lemma queue_rep_upd σ h ss evs s sc l :
  ss !! s = Some sc → rep h (ready_queue sc) l → queue_rep (upd_world h ss evs σ) s l.
Proof. intros Hs Hr. by exists sc. Qed.

Lemma rep_push_ready h Q l t :
  rep h Q l → is_Some (h !! t) → t ≠ NULL → t ∉ l →
  rep (push_threads (alter (with_state LWT_STATE_READY) t h) (tail Q) t)
      (push_queue Q t) (l ++ [t]).
Proof.
  intros Hr Hal Hn Hin. apply rep_push; [|by apply is_Some_alter|done|done].
  by apply rep_alter.
Qed.

Lemma lookup_push_state h tl j t :
  state <$> push_threads h tl j !! t = state <$> h !! t.
Proof. rewrite lookup_push_threads. by destruct (h !! t). Qed.

Lemma lookup_push_waiting h tl j t :
  waiting <$> push_threads h tl j !! t = waiting <$> h !! t.
Proof. rewrite lookup_push_threads. by destruct (h !! t). Qed.

Lemma lookup_push_scheduler h tl j t :
  scheduler <$> push_threads h tl j !! t = scheduler <$> h !! t.
Proof. rewrite lookup_push_threads. by destruct (h !! t). Qed.

(** C4 — A yield from within a task whose state is not FINISHED makes the
    task READY, appends it at the tail of the ready queue and signals the
    condition variable (under the scheduler mutex, before switching to
    the worker's dispatch context); a yield by a FINISHED task leaves the
    queue and the task as they are; a yield from outside any task changes
    nothing at all. *)
Theorem yield_spec me σ :
  (∀ t s w th l,
     in_task σ me t s w → threads σ !! t = Some th →
     state th ≠ LWT_STATE_FINISHED → queue_rep σ s l → t ∉ l →
     ∃ σ', lwt_yield me σ = Some ((), σ') ∧
           thread_state σ' t = Some LWT_STATE_READY ∧
           queue_rep σ' s (l ++ [t]) ∧
           queue_tasks σ' s = queue_tasks σ s ++ [t] ∧
           (tail ∘ ready_queue) <$> scheds σ' !! s = Some t ∧
           emitted σ σ' =
             [EvLock s; EvState t LWT_STATE_READY; EvPush s t; EvRunning s w NULL;
              EvSignal s; EvUnlock s; EvSwap (CtxThread t) (CtxMain s w)]) ∧
  (∀ t s w th l,
     in_task σ me t s w → threads σ !! t = Some th →
     state th = LWT_STATE_FINISHED → queue_rep σ s l →
     ∃ σ', lwt_yield me σ = Some ((), σ') ∧
           threads σ' = threads σ ∧
           queue_rep σ' s l ∧
           queue_tasks σ' s = queue_tasks σ s ∧
           emitted σ σ' =
             [EvLock s; EvRunning s w NULL; EvSignal s; EvUnlock s;
              EvSwap (CtxThread t) (CtxMain s w)]) ∧
  (outside_task σ me → lwt_yield me σ = Some ((), σ)).
Proof.
  split; [|split].
  - intros t s w th l [Hcur Hn Hown Hw (sc & Hsc & Hwr & Hlen & Hmx & Hcv)] Hth Hst Hr Hin.
    rewrite Hth in Hown. injection Hown as Hown.
    pose proof Hr as (sc' & Hsc' & Hrep). assert (sc' = sc) as -> by congruence.
    eexists. split.
    { eapply lwt_yield_eval; try done. by eapply rep_tail_alloc. }
    assert (Hr' : queue_rep
              (upd_world
                 (push_threads (alter (with_state LWT_STATE_READY) t (threads σ))
                    (tail (ready_queue sc)) t)
                 (<[s:=sched_after (push_queue (ready_queue sc) t) (clear_slot w sc) sc]>
                    (scheds σ))
                 [EvLock s; EvState t LWT_STATE_READY; EvPush s t; EvRunning s w NULL;
                  EvSignal s; EvUnlock s; EvSwap (CtxThread t) (CtxMain s w)] σ)
              s (l ++ [t])).
    { eapply queue_rep_upd; [apply lookup_insert_eq|]. cbn.
      apply rep_push_ready; [done|by eexists|done|done]. }
    split; [|split; [done|split; [|split]]].
    + unfold thread_state, upd_world. cbn.
      rewrite lookup_push_state, lookup_alter_eq, Hth. done.
    + by rewrite (queue_tasks_rep _ _ _ Hr'), (queue_tasks_rep _ _ _ Hr).
    + unfold upd_world. cbn. by rewrite lookup_insert_eq.
    + apply emitted_upd.
  - intros t s w th l [Hcur Hn Hown Hw (sc & Hsc & Hwr & Hlen & Hmx & Hcv)] Hth Hst Hr.
    rewrite Hth in Hown. injection Hown as Hown.
    pose proof Hr as (sc' & Hsc' & Hrep). assert (sc' = sc) as -> by congruence.
    eexists. split.
    { eapply lwt_yield_eval_finished; done. }
    assert (Hr' : queue_rep
              (upd_world (threads σ)
                 (<[s:=sched_after (ready_queue sc) (clear_slot w sc) sc]> (scheds σ))
                 [EvLock s; EvRunning s w NULL; EvSignal s; EvUnlock s;
                  EvSwap (CtxThread t) (CtxMain s w)] σ) s l).
    { eapply queue_rep_upd; [apply lookup_insert_eq|]. done. }
    split; [done|]. split; [done|]. split.
    + by rewrite (queue_tasks_rep _ _ _ Hr'), (queue_tasks_rep _ _ _ Hr).
    + apply emitted_upd.
  - apply lwt_yield_eval_outside.
Qed.

(** C3 — A join made from within a task on a FINISHED target returns with
    every part of the state other than the trace unchanged, having only
    taken and released the scheduler mutex: no context switch.  On any
    other target it makes the caller BLOCKED, installs the caller as the
    target's [waiting], leaves the ready queue as it was, and switches to
    the dispatch context of the worker. *)
Theorem join_spec me σ target t s w tth :
  in_task σ me t s w → target ≠ NULL → threads σ !! target = Some tth →
  (state tth = LWT_STATE_FINISHED →
     ∃ σ', lwt_join target me σ = Some ((), σ') ∧
           same_data σ σ' ∧
           emitted σ σ' = [EvLock s; EvUnlock s]) ∧
  (state tth ≠ LWT_STATE_FINISHED →
     ∃ σ', lwt_join target me σ = Some ((), σ') ∧
           thread_state σ' t = Some LWT_STATE_BLOCKED ∧
           thread_waiting σ' target = Some t ∧
           (∀ l, queue_rep σ s l → queue_rep σ' s l) ∧
           (∀ l, queue_rep σ s l → queue_tasks σ' s = queue_tasks σ s) ∧
           emitted σ σ' =
             [EvLock s; EvState t LWT_STATE_BLOCKED; EvWaiting target t;
              EvRunning s w NULL; EvUnlock s;
              EvSwap (CtxThread t) (CtxMain s w)]).
Proof.
  intros [Hcur Hn Hown Hw (sc & Hsc & Hwr & Hlen & Hmx & Hcv)] Htn Htth.
  destruct (threads σ !! t) as [th|] eqn:Hth; [|done]. injection Hown as Hown.
  split.
  - intros Hst. eexists. split.
    { eapply lwt_join_eval_finished; done. }
    split; [by repeat split|]. apply emitted_set_trace.
  - intros Hst. eexists. split.
    { eapply lwt_join_eval; done. }
    assert (Hq : ∀ l, queue_rep σ s l → queue_rep
              (upd_world
                 (alter (with_waiting t) target
                    (alter (with_state LWT_STATE_BLOCKED) t (threads σ)))
                 (<[s:=sched_after (ready_queue sc) (clear_slot w sc) sc]> (scheds σ))
                 [EvLock s; EvState t LWT_STATE_BLOCKED; EvWaiting target t;
                  EvRunning s w NULL; EvUnlock s; EvSwap (CtxThread t) (CtxMain s w)] σ)
              s l).
    { intros l (sc' & Hsc' & Hrep). assert (sc' = sc) as -> by congruence.
      eapply queue_rep_upd; [apply lookup_insert_eq|]. cbn.
      apply rep_alter; [done|]. by apply rep_alter. }
    split; [|split; [|split; [done|split]]].
    + unfold thread_state, upd_world. cbn.
      destruct (decide (target = t)) as [->|Hne].
      * rewrite !lookup_alter_eq, Hth. done.
      * rewrite lookup_alter_ne, lookup_alter_eq, Hth by done. done.
    + unfold thread_waiting, upd_world. cbn. rewrite lookup_alter_eq.
      destruct (decide (t = target)) as [->|Hne].
      * rewrite lookup_alter_eq, Htth. done.
      * rewrite lookup_alter_ne, Htth by done. done.
    + intros l Hr. by rewrite (queue_tasks_rep _ _ _ (Hq l Hr)), (queue_tasks_rep _ _ _ Hr).
    + apply emitted_upd.
Qed.

Lemma wake_time_nanos now ms :
  (0 ≤ ms)%Z → (0 ≤ now.2 < 1000000000)%Z →
  nanos (wake_time now ms) = (nanos now + ms * 1000000)%Z ∧
  (0 ≤ (wake_time now ms).2 < 1000000000)%Z.
Proof.
  intros Hms Hns. unfold wake_time, nanos. cbv zeta.
  pose proof (Z.div_mod ms 1000 ltac:(lia)) as Hdm.
  pose proof (Z.mod_pos_bound ms 1000 ltac:(lia)) as Hmod.
  case_decide; cbn [fst snd]; lia.
Qed.

(** C6 — [lwt_sleep] called outside any task only calls [nanosleep] with
    the requested duration and changes no other state.  Called from
    within a task it reads the clock and computes the absolute wake time
    (now + ms), takes the scheduler mutex, makes the task BLOCKED and
    clears the worker's [running] slot, releases the mutex and only then
    calls [nanosleep]; after the wait it takes the mutex again, makes the
    task READY, appends it to the ready queue, signals the condition
    variable, releases the mutex and switches to the worker's dispatch
    context. *)
Theorem sleep_spec me σ ms :
  (outside_task σ me →
     ∃ σ', lwt_sleep ms me σ = Some ((), σ') ∧ same_data σ σ' ∧
           emitted σ σ' = [EvNanosleep (ms / 1000) ((ms mod 1000) * 1000000)]) ∧
  (∀ t s w l,
     in_task σ me t s w → queue_rep σ s l → t ∉ l →
     ∃ σ1 σ',
       lwt_sleep_wait ms me σ = Some (Some (t, s, w), σ1) ∧
       thread_state σ1 t = Some LWT_STATE_BLOCKED ∧
       (∃ sc1, scheds σ1 !! s = Some sc1 ∧ mutex sc1 = MxUnlocked ∧
               running sc1 !! Z.to_nat w = Some NULL) ∧
       queue_rep σ1 s l ∧
       emitted σ σ1 =
         [EvClock; EvLock s; EvState t LWT_STATE_BLOCKED; EvRunning s w NULL;
          EvUnlock s;
          EvNanosleep (wake_time (clock (env σ)) ms).1 (wake_time (clock (env σ)) ms).2] ∧
       lwt_sleep_wake t s w me σ1 = Some ((), σ') ∧
       lwt_sleep ms me σ = Some ((), σ') ∧
       thread_state σ' t = Some LWT_STATE_READY ∧
       queue_rep σ' s (l ++ [t]) ∧
       queue_tasks σ' s = queue_tasks σ s ++ [t] ∧
       emitted σ1 σ' =
         [EvLock s; EvState t LWT_STATE_READY; EvPush s t; EvSignal s; EvUnlock s;
          EvSwap (CtxThread t) (CtxMain s w)]) ∧
  ((0 ≤ ms)%Z → (0 ≤ (clock (env σ)).2 < 1000000000)%Z →
     nanos (wake_time (clock (env σ)) ms) = (nanos (clock (env σ)) + ms * 1000000)%Z ∧
     (0 ≤ (wake_time (clock (env σ)) ms).2 < 1000000000)%Z).
Proof.
  split; [|split].
  - intros Hout. eexists. split; [by apply lwt_sleep_eval_outside|].
    split; [by repeat split|]. apply emitted_set_trace.
  - intros t s w l [Hcur Hn Hown Hw (sc & Hsc & Hwr & Hlen & Hmx & Hcv)] Hr Hin.
    destruct (threads σ !! t) as [th|] eqn:Hth; [|done]. injection Hown as Hown.
    pose proof Hr as (sc' & Hsc' & Hrep). assert (sc' = sc) as -> by congruence.
    pose proof (lwt_sleep_wait_eval me σ ms t s w th sc Hcur Hn Hth Hown Hw Hsc Hwr Hlen Hmx)
      as Hwait.
    set (σ1 := upd_world (alter (with_state LWT_STATE_BLOCKED) t (threads σ))
                 (<[s:=sched_after (ready_queue sc) (clear_slot w sc) sc]> (scheds σ))
                 [EvClock; EvLock s; EvState t LWT_STATE_BLOCKED; EvRunning s w NULL;
                  EvUnlock s;
                  EvNanosleep (wake_time (clock (env σ)) ms).1
                              (wake_time (clock (env σ)) ms).2] σ) in *.
    assert (Hsc1 : scheds σ1 !! s = Some (sched_after (ready_queue sc) (clear_slot w sc) sc))
      by apply lookup_insert_eq.
    assert (Hrep1 : rep (threads σ1) (ready_queue sc) l) by (by apply rep_alter).
    assert (Hal1 : is_Some (threads σ1 !! t)) by (apply is_Some_alter; by eexists).
    pose proof (lwt_sleep_wake_eval me σ1 t s w _ Hal1 Hsc1 Hmx Hcv
                  (rep_tail_alloc _ _ _ Hrep1)) as Hwake.
    cbn [ready_queue sched_after running] in Hwake.
    eexists σ1, _. split; [exact Hwait|].
    split.
    { unfold thread_state, σ1, upd_world. cbn. by rewrite lookup_alter_eq, Hth. }
    split.
    { eexists. split; [exact Hsc1|]. split; [done|]. unfold sched_after, clear_slot. cbn.
      apply list_lookup_insert_eq. lia. }
    split; [by eapply queue_rep_upd|].
    split; [apply emitted_upd|].
    split; [exact Hwake|].
    split.
    { unfold lwt_sleep, mbind, M_bind. rewrite Hwait. exact Hwake. }
    assert (Hr' : queue_rep
              (upd_world
                 (push_threads (alter (with_state LWT_STATE_READY) t (threads σ1))
                    (tail (ready_queue sc)) t)
                 (<[s:=sched_after (push_queue (ready_queue sc) t) (clear_slot w sc)
                         (sched_after (ready_queue sc) (clear_slot w sc) sc)]>
                    (scheds σ1))
                 [EvLock s; EvState t LWT_STATE_READY; EvPush s t; EvSignal s; EvUnlock s;
                  EvSwap (CtxThread t) (CtxMain s w)] σ1) s (l ++ [t])).
    { eapply queue_rep_upd; [apply lookup_insert_eq|]. cbn.
      by apply rep_push_ready. }
    split.
    { unfold thread_state, upd_world. cbn -[σ1].
      rewrite lookup_push_state, lookup_alter_eq.
      destruct Hal1 as [x ->]. done. }
    split; [exact Hr'|].
    split; [by rewrite (queue_tasks_rep _ _ _ Hr'), (queue_tasks_rep _ _ _ Hr)|].
    apply emitted_upd.
  - apply wake_time_nanos.
Qed.


(** * The primitives on concrete states *)

Lemma demo_running_in_task : in_task (sys_world demo_running) 1 1 100 0.
Proof.
  split; try (by vm_compute).
  eexists. split; [by vm_compute|]. repeat split; by vm_compute.
Qed.

Lemma demo_running_rep : queue_rep (sys_world demo_running) 100 [3].
Proof.
  eexists. split; [by vm_compute|]. repeat split; try (by vm_compute).
  - eexists. split; by vm_compute.
  - decide_by_compute.
Qed.

Lemma demo_finishing_in_task : in_task demo_finishing 1 1 100 0.
Proof.
  split; try (by vm_compute).
  eexists. split; [by vm_compute|]. repeat split; by vm_compute.
Qed.

Lemma demo_finishing_rep : queue_rep demo_finishing 100 [3].
Proof.
  eexists. split; [by vm_compute|]. repeat split; try (by vm_compute).
  - eexists. split; by vm_compute.
  - decide_by_compute.
Qed.

Lemma yield_spec_witness :
  (∃ σ', lwt_yield 1 (sys_world demo_running) = Some ((), σ') ∧
         thread_state σ' 1 = Some LWT_STATE_READY ∧
         queue_tasks σ' 100 = queue_tasks (sys_world demo_running) 100 ++ [1]) ∧
  (∃ σ', lwt_yield 1 demo_finishing = Some ((), σ') ∧
         queue_tasks σ' 100 = queue_tasks demo_finishing 100) ∧
  lwt_yield 0 (sys_world demo_running) = Some ((), sys_world demo_running).
Proof.
  split; [|split].
  - destruct (yield_spec 1 (sys_world demo_running)) as (HA & _ & _).
    destruct (HA 1 100 0%Z _ [3] demo_running_in_task ltac:(by vm_compute)
                ltac:(by vm_compute) demo_running_rep ltac:(decide_by_compute))
      as (σ' & H1 & H2 & _ & H3 & _).
    exists σ'. split; [exact H1|]. split; [exact H2|exact H3].
  - destruct (yield_spec 1 demo_finishing) as (_ & HB & _).
    destruct (HB 1 100 0%Z _ [3] demo_finishing_in_task ltac:(by vm_compute)
                ltac:(by vm_compute) demo_finishing_rep)
      as (σ' & H1 & _ & _ & H2 & _).
    exists σ'. split; [exact H1|exact H2].
  - destruct (yield_spec 0 (sys_world demo_running)) as (_ & _ & HC).
    apply HC. by vm_compute.
Defined.

Lemma join_spec_witness :
  (∃ σ', lwt_join 3 1 (sys_world demo_running) = Some ((), σ') ∧
         thread_state σ' 1 = Some LWT_STATE_BLOCKED ∧
         thread_waiting σ' 3 = Some 1 ∧
         queue_tasks σ' 100 = queue_tasks (sys_world demo_running) 100) ∧
  (∃ σ', lwt_join 1 1 demo_finishing = Some ((), σ') ∧
         same_data demo_finishing σ' ∧
         emitted demo_finishing σ' = [EvLock 100; EvUnlock 100]).
Proof.
  split.
  - destruct (join_spec 1 (sys_world demo_running) 3 1 100 0%Z _
                demo_running_in_task ltac:(done) ltac:(by vm_compute)) as [_ HB].
    destruct (HB ltac:(by vm_compute)) as (σ' & H1 & H2 & H3 & _ & Hq & _).
    exists σ'. split; [exact H1|]. split; [exact H2|]. split; [exact H3|].
    exact (Hq _ demo_running_rep).
  - destruct (join_spec 1 demo_finishing 1 1 100 0%Z _
                demo_finishing_in_task ltac:(done) ltac:(by vm_compute)) as [HA _].
    exact (HA ltac:(by vm_compute)).
Defined.

Lemma sleep_spec_witness :
  (∃ σ', lwt_sleep 1500 0 (sys_world demo_running) = Some ((), σ') ∧
         emitted (sys_world demo_running) σ' = [EvNanosleep 1 500000000]) ∧
  (∃ σ', lwt_sleep 1500 1 (sys_world demo_running) = Some ((), σ') ∧
         thread_state σ' 1 = Some LWT_STATE_READY ∧
         queue_tasks σ' 100 = queue_tasks (sys_world demo_running) 100 ++ [1]) ∧
  nanos (wake_time (clock (env (sys_world demo_running))) 1500)
    = (nanos (clock (env (sys_world demo_running))) + 1500 * 1000000)%Z.
Proof.
  destruct (sleep_spec 1 (sys_world demo_running) 1500%Z) as (_ & HB & HC).
  destruct (sleep_spec 0 (sys_world demo_running) 1500%Z) as (HA & _ & _).
  split; [|split].
  - destruct (HA ltac:(by vm_compute)) as (σ' & H1 & _ & H2).
    exists σ'. split; [exact H1|exact H2].
  - destruct (HB 1 100 0%Z [3] demo_running_in_task demo_running_rep
                ltac:(decide_by_compute))
      as (σ1 & σ' & _ & _ & _ & _ & _ & _ & H1 & H2 & _ & H3 & _).
    exists σ'. split; [exact H1|]. split; [exact H2|exact H3].
  - apply HC; [lia|by vm_compute].
Defined.

(** * The state invariant under the abstract transitions *)

Section StateInvariant.
Variable S : ptr.
Implicit Types (st : ptr → option lwt_state_t) (wt : ptr → option ptr)
               (cur : nat → option ptr) (pc : gmap nat pc_t) (l : list ptr).

Lemma active_insert_inv cur pc o x o1 t1 :
  (∀ id, x ≠ PcTask id) → (∀ id t s w, x ≠ PcSleep id t s w) →
  active cur (<[o := x]> pc) o1 t1 → o1 ≠ o ∧ active cur pc o1 t1.
Proof.
  intros Hx1 Hx2 Hact. destruct (decide (o1 = o)) as [->|Hne].
  - exfalso. destruct Hact as [(id & Hpc & _)|(id & s & w & Hpc)];
      rewrite lookup_insert_eq in Hpc; injection Hpc as Hpc;
      [by eapply Hx1|by eapply Hx2].
  - split; [done|]. destruct Hact as [(id & Hpc & Hc)|(id & s & w & Hpc)];
      rewrite lookup_insert_ne in Hpc by done; [left|right]; eauto.
Qed.

Lemma sinv_nonnull st wt l cur pc t :
  SInv S st wt l cur pc → is_Some (st t) → t ≠ NULL.
Proof. intros HI [x Hx] ->. rewrite (s_null _ _ _ _ _ _ HI) in Hx. done. Qed.

Lemma sinv_active_state st wt l cur pc o t :
  SInv S st wt l cur pc → active cur pc o t →
  st t = Some LWT_STATE_RUNNING ∨ st t = Some LWT_STATE_BLOCKED.
Proof.
  intros HI [(id & Hpc & Hc)|(id & s & w & Hpc)].
  - destruct (s_task _ _ _ _ _ _ HI _ _ Hpc) as (t' & Hc' & Hst).
    left. congruence.
  - destruct (s_sleep _ _ _ _ _ _ HI _ _ _ _ _ Hpc) as (_ & _ & Hst & _). by right.
Qed.

Lemma sinv_running_unlinked st wt l cur pc t a :
  SInv S st wt l cur pc → st t = Some LWT_STATE_RUNNING → wt a ≠ Some t.
Proof.
  intros HI Hst Hw.
  assert (t ≠ NULL) by (eapply sinv_nonnull; [done|by eexists]).
  pose proof (s_link _ _ _ _ _ _ HI _ _ Hw ltac:(done)). congruence.
Qed.

(** The active task of [o] becomes READY, is appended to the queue, and
    [o] goes back to its loop: yield, and the wake-up after a sleep. *)
Lemma sinv_requeue st wt l cur pc st' o id t :
  SInv S st wt l cur pc →
  active cur pc o t → (∀ a, wt a ≠ Some t) →
  (∀ p, st' p = if decide (p = t) then Some LWT_STATE_READY else st p) →
  SInv S st' wt (l ++ [t]) cur (<[o := PcIdle id]> pc).
Proof.
  intros HI Hact Hun Hst'.
  assert (Ht : st t = Some LWT_STATE_RUNNING ∨ st t = Some LWT_STATE_BLOCKED)
    by (by eapply sinv_active_state).
  assert (Htn : t ≠ NULL) by (eapply sinv_nonnull; [done|]; destruct Ht as [->| ->]; by eexists).
  split.
  - rewrite Hst', decide_False by done. apply HI.
  - intros p. rewrite Hst', elem_of_app, list_elem_of_singleton.
    case_decide as Hp; [naive_solver|].
    rewrite (s_ready _ _ _ _ _ _ HI). naive_solver.
  - intros a b Hw Hb. rewrite Hst', decide_False; [by eapply HI|].
    intros ->. by apply (Hun a).
  - apply HI.
  - intros o' id' Hpc. destruct (decide (o' = o)) as [->|Hne];
      [by rewrite lookup_insert_eq in Hpc|rewrite lookup_insert_ne in Hpc by done].
    destruct (s_task _ _ _ _ _ _ HI _ _ Hpc) as (t' & Hc & Hs).
    exists t'. split; [done|]. rewrite Hst', decide_False; [done|].
    intros ->. eapply (s_distinct _ _ _ _ _ _ HI o o' t); [done|done|]. left. eauto.
  - intros o' id' t' s w Hpc. destruct (decide (o' = o)) as [->|Hne];
      [by rewrite lookup_insert_eq in Hpc|rewrite lookup_insert_ne in Hpc by done].
    destruct (s_sleep _ _ _ _ _ _ HI _ _ _ _ _ Hpc) as (? & ? & Hs & Hu).
    repeat (split; [done|]). split; [|done]. rewrite Hst', decide_False; [done|].
    intros ->. eapply (s_distinct _ _ _ _ _ _ HI o o' t); [done|done|]. right. eauto.
  - intros o1 o2 t1 Hne H1 H2.
    apply active_insert_inv in H1 as [_ H1]; [|done|done].
    apply active_insert_inv in H2 as [_ H2]; [|done|done].
    by eapply (s_distinct _ _ _ _ _ _ HI o1 o2).
Qed.

(** The running task of [o] blocks in a join on [target]. *)
Lemma sinv_join st wt l cur pc st' wt' o id t target :
  SInv S st wt l cur pc →
  pc !! o = Some (PcTask id) → cur o = Some t →
  (∀ p, st' p = if decide (p = t) then Some LWT_STATE_BLOCKED else st p) →
  (∀ p, wt' p = if decide (p = target) then Some t else wt p) →
  SInv S st' wt' l cur (<[o := PcIdle id]> pc).
Proof.
  intros HI Hpc Hc Hst' Hwt'.
  destruct (s_task _ _ _ _ _ _ HI _ _ Hpc) as (t0 & Hc0 & Hrun).
  assert (t0 = t) as -> by congruence.
  assert (Htn : t ≠ NULL) by (eapply sinv_nonnull; [done|by eexists]).
  assert (Hact : active cur pc o t) by (left; eauto).
  split.
  - rewrite Hst', decide_False by done. apply HI.
  - intros p. rewrite Hst'. case_decide as Hp.
    + subst p. rewrite (s_ready _ _ _ _ _ _ HI). split; congruence.
    + apply HI.
  - intros a b. rewrite Hwt', Hst'. case_decide as Ha.
    + intros [= <-] _. by rewrite decide_True.
    + intros Hw Hb. case_decide; [done|]. by eapply HI.
  - intros a a' b. rewrite !Hwt'. repeat case_decide; subst; try done.
    + intros [= <-] Hw _. by eapply sinv_running_unlinked in Hw.
    + intros Hw [= <-] _. by eapply sinv_running_unlinked in Hw.
    + apply HI.
  - intros o' id' Hpc'. destruct (decide (o' = o)) as [->|Hne];
      [by rewrite lookup_insert_eq in Hpc'|rewrite lookup_insert_ne in Hpc' by done].
    destruct (s_task _ _ _ _ _ _ HI _ _ Hpc') as (t' & Hc' & Hs).
    exists t'. split; [done|]. rewrite Hst', decide_False; [done|].
    intros ->. eapply (s_distinct _ _ _ _ _ _ HI o o' t); [done|done|]. left. eauto.
  - intros o' id' t' s w Hpc'. destruct (decide (o' = o)) as [->|Hne];
      [by rewrite lookup_insert_eq in Hpc'|rewrite lookup_insert_ne in Hpc' by done].
    destruct (s_sleep _ _ _ _ _ _ HI _ _ _ _ _ Hpc') as (? & ? & Hs & Hu).
    assert (t' ≠ t).
    { intros ->. eapply (s_distinct _ _ _ _ _ _ HI o o' t); [done|done|]. right. eauto. }
    repeat (split; [done|]). split.
    + by rewrite Hst', decide_False.
    + intros a. rewrite Hwt'. case_decide; [congruence|apply Hu].
  - intros o1 o2 t1 Hne H1 H2.
    apply active_insert_inv in H1 as [_ H1]; [|done|done].
    apply active_insert_inv in H2 as [_ H2]; [|done|done].
    by eapply (s_distinct _ _ _ _ _ _ HI o1 o2).
Qed.

(** The running task of [o] blocks in a sleep. *)
Lemma sinv_sleep st wt l cur pc st' o id t :
  SInv S st wt l cur pc →
  pc !! o = Some (PcTask id) → cur o = Some t →
  (∀ p, st' p = if decide (p = t) then Some LWT_STATE_BLOCKED else st p) →
  SInv S st' wt l cur (<[o := PcSleep id t S id]> pc).
Proof.
  intros HI Hpc Hc Hst'.
  destruct (s_task _ _ _ _ _ _ HI _ _ Hpc) as (t0 & Hc0 & Hrun).
  assert (t0 = t) as -> by congruence.
  assert (Htn : t ≠ NULL) by (eapply sinv_nonnull; [done|by eexists]).
  assert (Hact : active cur pc o t) by (left; eauto).
  assert (Hold : ∀ o1 t1, o1 ≠ o → active cur (<[o := PcSleep id t S id]> pc) o1 t1 →
                          active cur pc o1 t1).
  { intros o1 t1 Hne [(i & Hp & Hcc)|(i & s & w & Hp)];
      rewrite lookup_insert_ne in Hp by done; [left|right]; eauto. }
  assert (Hnew : ∀ t1, active cur (<[o := PcSleep id t S id]> pc) o t1 → t1 = t).
  { intros t1 [(i & Hp & Hcc)|(i & s & w & Hp)]; rewrite lookup_insert_eq in Hp;
      congruence. }
  split.
  - rewrite Hst', decide_False by done. apply HI.
  - intros p. rewrite Hst'. case_decide as Hp.
    + subst p. rewrite (s_ready _ _ _ _ _ _ HI). split; congruence.
    + apply HI.
  - intros a b Hw Hb. rewrite Hst'. case_decide; [done|]. by eapply HI.
  - apply HI.
  - intros o' id' Hpc'. destruct (decide (o' = o)) as [->|Hne];
      [by rewrite lookup_insert_eq in Hpc'|rewrite lookup_insert_ne in Hpc' by done].
    destruct (s_task _ _ _ _ _ _ HI _ _ Hpc') as (t' & Hc' & Hs).
    exists t'. split; [done|]. rewrite Hst', decide_False; [done|].
    intros ->. eapply (s_distinct _ _ _ _ _ _ HI o o' t); [done|done|]. left. eauto.
  - intros o' id' t' s w Hpc'. destruct (decide (o' = o)) as [->|Hne].
    + rewrite lookup_insert_eq in Hpc'. injection Hpc' as <- <- <- <-.
      repeat (split; [done|]). split; [by rewrite Hst', decide_True|].
      intros a. by eapply sinv_running_unlinked.
    + rewrite lookup_insert_ne in Hpc' by done.
      destruct (s_sleep _ _ _ _ _ _ HI _ _ _ _ _ Hpc') as (? & ? & Hs & Hu).
      repeat (split; [done|]). split; [|done]. rewrite Hst'. by case_decide.
  - intros o1 o2 t1 Hne H1 H2.
    destruct (decide (o1 = o)) as [->|Hn1], (decide (o2 = o)) as [->|Hn2]; [done| | |].
    + apply Hnew in H1 as ->. eapply (s_distinct _ _ _ _ _ _ HI o o2 t); eauto.
    + apply Hnew in H2 as ->. eapply (s_distinct _ _ _ _ _ _ HI o1 o t); eauto.
    + eapply (s_distinct _ _ _ _ _ _ HI o1 o2 t1); eauto.
Qed.

(** The running task of [o] finishes; it has no joiner. *)
Lemma sinv_finish st wt l cur pc st' o id t :
  SInv S st wt l cur pc →
  pc !! o = Some (PcTask id) → cur o = Some t →
  (∀ p, st' p = if decide (p = t) then Some LWT_STATE_FINISHED else st p) →
  SInv S st' wt l cur (<[o := PcIdle id]> pc).
Proof.
  intros HI Hpc Hc Hst'.
  destruct (s_task _ _ _ _ _ _ HI _ _ Hpc) as (t0 & Hc0 & Hrun).
  assert (t0 = t) as -> by congruence.
  assert (Htn : t ≠ NULL) by (eapply sinv_nonnull; [done|by eexists]).
  assert (Hact : active cur pc o t) by (left; eauto).
  split.
  - rewrite Hst', decide_False by done. apply HI.
  - intros p. rewrite Hst'. case_decide as Hp.
    + subst p. rewrite (s_ready _ _ _ _ _ _ HI). split; congruence.
    + apply HI.
  - intros a b Hw Hb. rewrite Hst'. case_decide as Hbt; [|by eapply HI].
    subst b. by eapply sinv_running_unlinked in Hw.
  - apply HI.
  - intros o' id' Hpc'. destruct (decide (o' = o)) as [->|Hne];
      [by rewrite lookup_insert_eq in Hpc'|rewrite lookup_insert_ne in Hpc' by done].
    destruct (s_task _ _ _ _ _ _ HI _ _ Hpc') as (t' & Hc' & Hs).
    exists t'. split; [done|]. rewrite Hst', decide_False; [done|].
    intros ->. eapply (s_distinct _ _ _ _ _ _ HI o o' t); [done|done|]. left. eauto.
  - intros o' id' t' s w Hpc'. destruct (decide (o' = o)) as [->|Hne];
      [by rewrite lookup_insert_eq in Hpc'|rewrite lookup_insert_ne in Hpc' by done].
    destruct (s_sleep _ _ _ _ _ _ HI _ _ _ _ _ Hpc') as (? & ? & Hs & Hu).
    repeat (split; [done|]). split; [|done]. rewrite Hst', decide_False; [done|].
    intros ->. eapply (s_distinct _ _ _ _ _ _ HI o o' t); [done|done|]. right. eauto.
  - intros o1 o2 t1 Hne H1 H2.
    apply active_insert_inv in H1 as [_ H1]; [|done|done].
    apply active_insert_inv in H2 as [_ H2]; [|done|done].
    by eapply (s_distinct _ _ _ _ _ _ HI o1 o2).
Qed.

(** The running task of [o] finishes and wakes its joiner [j]. *)
Lemma sinv_finish_joiner st wt l cur pc st' wt' o id t j :
  SInv S st wt l cur pc →
  pc !! o = Some (PcTask id) → cur o = Some t →
  wt t = Some j → j ≠ NULL →
  (∀ p, st' p = if decide (p = j) then Some LWT_STATE_READY
                else if decide (p = t) then Some LWT_STATE_FINISHED else st p) →
  (∀ p, wt' p = if decide (p = t) then Some NULL else wt p) →
  SInv S st' wt' (l ++ [j]) cur (<[o := PcIdle id]> pc).
Proof.
  intros HI Hpc Hc Hj Hjn Hst' Hwt'.
  destruct (s_task _ _ _ _ _ _ HI _ _ Hpc) as (t0 & Hc0 & Hrun).
  assert (t0 = t) as -> by congruence.
  assert (Htn : t ≠ NULL) by (eapply sinv_nonnull; [done|by eexists]).
  assert (Hact : active cur pc o t) by (left; eauto).
  assert (Hjb : st j = Some LWT_STATE_BLOCKED) by (by eapply (s_link _ _ _ _ _ _ HI t j)).
  assert (Hjt : j ≠ t) by congruence.
  split.
  - rewrite Hst', !decide_False by done. apply HI.
  - intros p. rewrite Hst', elem_of_app, list_elem_of_singleton.
    rewrite (s_ready _ _ _ _ _ _ HI). repeat case_decide; subst; naive_solver.
  - intros a b. rewrite Hwt', Hst'. case_decide as Ha; [by intros [= <-]|].
    intros Hw Hb. rewrite decide_False.
    + rewrite decide_False; [by eapply HI|].
      intros ->. by eapply sinv_running_unlinked in Hw.
    + intros ->. apply Ha. by eapply (s_inj _ _ _ _ _ _ HI a t j).
  - intros a a' b. rewrite !Hwt'. repeat case_decide; subst; try done.
    + by intros [= <-].
    + by intros _ [= <-].
    + apply HI.
  - intros o' id' Hpc'. destruct (decide (o' = o)) as [->|Hne];
      [by rewrite lookup_insert_eq in Hpc'|rewrite lookup_insert_ne in Hpc' by done].
    destruct (s_task _ _ _ _ _ _ HI _ _ Hpc') as (t' & Hc' & Hs).
    exists t'. split; [done|]. rewrite Hst'.
    rewrite decide_False by congruence. rewrite decide_False; [done|].
    intros ->. eapply (s_distinct _ _ _ _ _ _ HI o o' t); [done|done|]. left. eauto.
  - intros o' id' t' s w Hpc'. destruct (decide (o' = o)) as [->|Hne];
      [by rewrite lookup_insert_eq in Hpc'|rewrite lookup_insert_ne in Hpc' by done].
    destruct (s_sleep _ _ _ _ _ _ HI _ _ _ _ _ Hpc') as (? & ? & Hs & Hu).
    assert (t' ≠ NULL) by (eapply sinv_nonnull; [done|by eexists]).
    repeat (split; [done|]). split.
    + rewrite Hst'. rewrite decide_False by (intros ->; by apply (Hu t)).
      rewrite decide_False; [done|].
      intros ->. eapply (s_distinct _ _ _ _ _ _ HI o o' t); [done|done|]. right. eauto.
    + intros a. rewrite Hwt'. case_decide; [congruence|apply Hu].
  - intros o1 o2 t1 Hne H1 H2.
    apply active_insert_inv in H1 as [_ H1]; [|done|done].
    apply active_insert_inv in H2 as [_ H2]; [|done|done].
    by eapply (s_distinct _ _ _ _ _ _ HI o1 o2).
Qed.

(** Worker [o] takes the head [t] of the queue and runs it. *)
Lemma sinv_dispatch st wt l cur pc st' cur' o id t :
  SInv S st wt (t :: l) cur pc → NoDup (t :: l) →
  pc !! o = Some (PcIdle id) →
  (∀ p, st' p = if decide (p = t) then Some LWT_STATE_RUNNING else st p) →
  (∀ o', cur' o' = if decide (o' = o) then Some t else cur o') →
  SInv S st' wt l cur' (<[o := PcTask id]> pc).
Proof.
  intros HI Hnd Hpc Hst' Hcur'.
  apply NoDup_cons in Hnd as [Htl Hnd].
  assert (Hrdy : st t = Some LWT_STATE_READY).
  { apply (s_ready _ _ _ _ _ _ HI). set_solver. }
  assert (Htn : t ≠ NULL) by (eapply sinv_nonnull; [done|by eexists]).
  assert (Hold : ∀ o1 t1, o1 ≠ o → active cur' (<[o := PcTask id]> pc) o1 t1 →
                          active cur pc o1 t1).
  { intros o1 t1 Hne [(i & Hp & Hcc)|(i & s & w & Hp)];
      rewrite lookup_insert_ne in Hp by done; [left|right]; eauto.
    rewrite Hcur', decide_False in Hcc by done. eauto. }
  assert (Hnew : ∀ t1, active cur' (<[o := PcTask id]> pc) o t1 → t1 = t).
  { intros t1 [(i & Hp & Hcc)|(i & s & w & Hp)]; rewrite lookup_insert_eq in Hp; [|done].
    rewrite Hcur', decide_True in Hcc by done. congruence. }
  assert (Hnot : ∀ o1, active cur pc o1 t → False).
  { intros o1 Ha. destruct (sinv_active_state _ _ _ _ _ _ _ HI Ha); congruence. }
  split.
  - rewrite Hst', decide_False by done. apply HI.
  - intros p. rewrite Hst'. case_decide as Hp.
    + subst p. split; [done|congruence].
    + rewrite <- (s_ready _ _ _ _ _ _ HI). set_solver.
  - intros a b Hw Hb. rewrite Hst'. case_decide as Hbt; [|by eapply HI].
    subst b. pose proof (s_link _ _ _ _ _ _ HI _ _ Hw Hb). congruence.
  - apply HI.
  - intros o' id' Hpc'. destruct (decide (o' = o)) as [->|Hne].
    + exists t. rewrite Hcur', Hst', !decide_True by done. done.
    + rewrite lookup_insert_ne in Hpc' by done.
      destruct (s_task _ _ _ _ _ _ HI _ _ Hpc') as (t' & Hc' & Hs).
      exists t'. rewrite Hcur', decide_False by done. split; [done|].
      rewrite Hst'. case_decide; [done|done].
  - intros o' id' t' s w Hpc'. destruct (decide (o' = o)) as [->|Hne];
      [by rewrite lookup_insert_eq in Hpc'|rewrite lookup_insert_ne in Hpc' by done].
    destruct (s_sleep _ _ _ _ _ _ HI _ _ _ _ _ Hpc') as (? & ? & Hs & Hu).
    repeat (split; [done|]). split; [|done]. rewrite Hst', decide_False; [done|].
    congruence.
  - intros o1 o2 t1 Hne H1 H2.
    destruct (decide (o1 = o)) as [->|Hn1], (decide (o2 = o)) as [->|Hn2]; [done| | |].
    + apply Hnew in H1 as ->. eapply Hnot; eauto.
    + apply Hnew in H2 as ->. eapply Hnot; eauto.
    + eapply (s_distinct _ _ _ _ _ _ HI o1 o2 t1); eauto.
Qed.

(** A new task [t] is created READY and appended to the queue. *)
Lemma sinv_spawn st wt l cur pc st' wt' t :
  SInv S st wt l cur pc →
  t ≠ NULL → st t = None → wt t = None →
  (∀ a, wt a = Some t → False) →
  (∀ p, st' p = if decide (p = t) then Some LWT_STATE_READY else st p) →
  (∀ p, wt' p = if decide (p = t) then Some NULL else wt p) →
  SInv S st' wt' (l ++ [t]) cur pc.
Proof.
  intros HI Htn Hst Hwt Hun Hst' Hwt'.
  split.
  - rewrite Hst', decide_False by done. apply HI.
  - intros p. rewrite Hst', elem_of_app, list_elem_of_singleton.
    rewrite (s_ready _ _ _ _ _ _ HI). case_decide; subst; [|naive_solver].
    split; [done|]. by right.
  - intros a b. rewrite Hwt', Hst'. case_decide as Ha; [by intros [= <-]|].
    intros Hw Hb. rewrite decide_False; [by eapply HI|]. intros ->. by eapply Hun.
  - intros a a' b. rewrite !Hwt'. repeat case_decide; subst; try done.
    + by intros [= <-].
    + by intros _ [= <-].
    + apply HI.
  - intros o id Hpc. destruct (s_task _ _ _ _ _ _ HI _ _ Hpc) as (t' & Hc & Hs).
    exists t'. split; [done|]. rewrite Hst', decide_False; [done|]. congruence.
  - intros o id t' s w Hpc.
    destruct (s_sleep _ _ _ _ _ _ HI _ _ _ _ _ Hpc) as (? & ? & Hs & Hu).
    assert (t' ≠ NULL) by (eapply sinv_nonnull; [done|by eexists]).
    repeat (split; [done|]). split.
    + rewrite Hst', decide_False; [done|]. congruence.
    + intros a. rewrite Hwt'. case_decide; [congruence|apply Hu].
  - apply HI.
Qed.

(** A change of control state that neither enters nor leaves a task. *)
Lemma sinv_pc st wt l cur pc pc' :
  SInv S st wt l cur pc →
  (∀ o id, pc' !! o = Some (PcTask id) → pc !! o = Some (PcTask id)) →
  (∀ o id t s w, pc' !! o = Some (PcSleep id t s w) → pc !! o = Some (PcSleep id t s w)) →
  SInv S st wt l cur pc'.
Proof.
  intros HI Ht Hs.
  assert (Hact : ∀ o t, active cur pc' o t → active cur pc o t).
  { intros o t [(i & Hp & Hcc)|(i & s & w & Hp)]; [left|right]; eauto 10. }
  split; try apply HI.
  - intros o id Hpc. apply Ht in Hpc. by eapply HI.
  - intros o id t s w Hpc. apply Hs in Hpc. by eapply (s_sleep _ _ _ _ _ _ HI).
  - intros o1 o2 t1 Hne H1 H2. eapply (s_distinct _ _ _ _ _ _ HI o1 o2 t1); eauto.
Qed.

(** The state invariant only depends on the values of its readers. *)
Lemma sinv_ext st wt l cur pc st' wt' cur' :
  SInv S st wt l cur pc →
  (∀ p, st' p = st p) → (∀ p, wt' p = wt p) → (∀ o, cur' o = cur o) →
  SInv S st' wt' l cur' pc.
Proof.
  intros HI Hst Hwt Hcur.
  assert (Hact : ∀ o t, active cur' pc o t → active cur pc o t).
  { intros o t [(i & Hp & Hcc)|(i & s & w & Hp)]; [left|right]; eauto 10.
    rewrite Hcur in Hcc. eauto. }
  split.
  - rewrite Hst. apply HI.
  - intros p. rewrite Hst. apply HI.
  - intros a b. rewrite Hwt, Hst. apply HI.
  - intros a a' b. rewrite !Hwt. apply HI.
  - intros o id Hpc. destruct (s_task _ _ _ _ _ _ HI _ _ Hpc) as (t & ? & ?).
    exists t. by rewrite Hcur, Hst.
  - intros o id t s w Hpc.
    destruct (s_sleep _ _ _ _ _ _ HI _ _ _ _ _ Hpc) as (? & ? & ? & Hu).
    rewrite Hst. repeat (split; [done|]). intros a. rewrite Hwt. apply Hu.
  - intros o1 o2 t1 Hne H1 H2. eapply (s_distinct _ _ _ _ _ _ HI o1 o2 t1); eauto.
Qed.
End StateInvariant.

(** * The invariant under the runtime's operations *)

Lemma lookup_alter_proj {A} (g : lwt_thread → A) (f : lwt_thread → lwt_thread)
    (h : gmap ptr lwt_thread) t p :
  (∀ th, g (f th) = g th) → g <$> alter f t h !! p = g <$> h !! p.
Proof.
  intros Hg. destruct (decide (t = p)) as [->|Hne].
  - rewrite lookup_alter_eq. destruct (h !! p); cbn; [by rewrite Hg|done].
  - by rewrite lookup_alter_ne.
Qed.

Lemma lookup_alter_set {A} (g : lwt_thread → A) (f : lwt_thread → lwt_thread) x
    (h : gmap ptr lwt_thread) t p :
  (∀ th, g (f th) = x) → is_Some (h !! t) →
  g <$> alter f t h !! p = if decide (p = t) then Some x else g <$> h !! p.
Proof.
  intros Hg [th Hth]. case_decide as Hp.
  - subst p. rewrite lookup_alter_eq, Hth. cbn. by rewrite Hg.
  - by rewrite lookup_alter_ne.
Qed.

Lemma worker_of_pc_id pc o id :
  worker_of pc o id ↔ ∃ x, pc !! o = Some x ∧ pc_id x = Some id.
Proof.
  unfold worker_of. split.
  - intros [H|[H|(t & s & w & H)]]; eexists; (split; [exact H|done]).
  - intros (x & Hx & Hid). destruct x; cbn in Hid; try done; injection Hid as <-; eauto 10.
Qed.

Lemma worker_of_insert (pc : gmap nat pc_t) o x y :
  pc !! o = Some y → (∀ id, pc_id x = Some id → pc_id y = Some id) →
  ∀ o' id', worker_of (<[o := x]> pc) o' id' → worker_of pc o' id'.
Proof.
  intros Hy Hid o' id'. rewrite !worker_of_pc_id. intros (z & Hz & Hzid).
  destruct (decide (o' = o)) as [->|Hne].
  - rewrite lookup_insert_eq in Hz. injection Hz as <-. exists y. eauto.
  - rewrite lookup_insert_ne in Hz by done. eauto.
Qed.

Lemma sched_same_refl sc : sched_same sc sc.
Proof. by repeat split. Qed.

Lemma sched_same_after sc Q r :
  qmutex Q = qmutex (ready_queue sc) → length r = length (running sc) →
  sched_same sc (sched_after Q r sc).
Proof. intros HQ Hr. by repeat split. Qed.

Lemma length_clear_slot w sc : length (clear_slot w sc) = length (running sc).
Proof. unfold clear_slot. apply length_insert. Qed.

Lemma world_frame_upd S σ h evs sc :
  (∀ p, is_Some (h !! p) ↔ is_Some (threads σ !! p)) →
  (∀ p, scheduler <$> h !! p = scheduler <$> threads σ !! p) →
  world_frame S σ (upd_world h (<[S := sc]> (scheds σ)) evs σ).
Proof.
  intros Hd Ho. unfold world_frame, upd_world. cbn. repeat (split; [done|]).
  split; [|done]. intros p Hp. by rewrite lookup_insert_ne.
Qed.

Lemma Inv_step S σ pc l sc σ' pc' l' sc' :
  Inv S σ pc l sc →
  world_frame S σ σ' → scheds σ' !! S = Some sc' → sched_same sc sc' →
  rep (threads σ') (ready_queue sc') l' →
  SInv S (thread_state σ') (thread_waiting σ') l' (λ o, tls_thread σ' !! o) pc' →
  (∀ o id, worker_of pc' o id → worker_of pc o id) →
  (∀ o i, pc' !! o = Some (PcEntry i) → pc !! o = Some (PcEntry i)) →
  (∀ o, pc' !! o = None → tls_thread σ' !! o = None) →
  (∀ o, is_Some (pc' !! o) → is_Some (pc !! o)) →
  Inv S σ' pc' l' sc'.
Proof.
  intros HI (Hlive & Htw & Hos & Hss & Hdom & Hown) Hsc'
    (Hmx & Hcv & Hqm & Hnw & Hids & Hlr & Hlw) Hrep HS Hwk Hent Hout Hsome.
  split; try done.
  - rewrite Hmx. apply HI.
  - rewrite Hqm. apply HI.
  - rewrite Hcv. apply HI.
  - rewrite Hnw. apply HI.
  - rewrite Hlr, Hlw. apply HI.
  - rewrite Hnw, Hids. apply HI.
  - rewrite Hlive. apply HI.
  - split; intros p Hp; rewrite Hlive.
    + apply (proj1 (inv_wf _ _ _ _ _ HI)). by apply Hdom.
    + destruct (decide (p = S)) as [->|Hne]; [apply HI|].
      apply (proj2 (inv_wf _ _ _ _ _ HI)). by rewrite <- Hss.
  - intros t s. rewrite Hown. apply HI.
  - intros o id Hw. rewrite Htw, Hnw. apply HI. by apply Hwk.
  - intros o i He. rewrite Hnw. eapply HI. by apply Hent.
  - intros o Ho. rewrite Hos. apply HI. by apply Hsome.
Qed.

Lemma Inv_task S σ pc l sc o id :
  Inv S σ pc l sc → pc !! o = Some (PcTask id) →
  ∃ t th, tls_thread σ !! o = Some t ∧ t ≠ NULL ∧ threads σ !! t = Some th ∧
          state th = LWT_STATE_RUNNING ∧ scheduler th = S ∧ (t ∉ l) ∧
          tls_worker σ !! o = Some id ∧ (0 ≤ id < num_workers sc)%Z ∧
          (num_workers sc ≤ Z.of_nat (length (running sc)))%Z ∧
          in_task σ o t S id.
Proof.
  intros HI Hpc.
  destruct (s_task _ _ _ _ _ _ (inv_state _ _ _ _ _ HI) _ _ Hpc) as (t & Hc & Hst).
  unfold thread_state in Hst. destruct (threads σ !! t) as [th|] eqn:Hth; [|done].
  injection Hst as Hst.
  assert (Htn : t ≠ NULL).
  { intros ->. pose proof (s_null _ _ _ _ _ _ (inv_state _ _ _ _ _ HI)) as Hn.
    unfold thread_state in Hn. by rewrite Hth in Hn. }
  assert (Hown : scheduler th = S).
  { apply (inv_owner _ _ _ _ _ HI t). by rewrite Hth. }
  assert (Hin : t ∉ l).
  { intros Hin. apply (s_ready _ _ _ _ _ _ (inv_state _ _ _ _ _ HI)) in Hin.
    unfold thread_state in Hin. rewrite Hth in Hin. cbn in Hin. congruence. }
  destruct (inv_wid _ _ _ _ _ HI o id) as [Hw Hr]; [right; by left|].
  assert (Hlen : (num_workers sc ≤ Z.of_nat (length (running sc)))%Z).
  { destruct (inv_arrays _ _ _ _ _ HI) as [-> _]. pose proof (inv_nw _ _ _ _ _ HI). lia. }
  exists t, th. repeat (split; [done|]).
  split; try done.
  - by rewrite Hth, <- Hown.
  - exists sc. split; [apply HI|]. split; [done|]. split; [done|].
    split; apply HI.
Qed.

Lemma pc_insert_facts (pc : gmap nat pc_t) o x y :
  pc !! o = Some y → (∀ id, pc_id x = Some id → pc_id y = Some id) →
  (∀ i, x ≠ PcEntry i) →
  (∀ o' id, worker_of (<[o := x]> pc) o' id → worker_of pc o' id) ∧
  (∀ o' i, <[o := x]> pc !! o' = Some (PcEntry i) → pc !! o' = Some (PcEntry i)) ∧
  (∀ o', <[o := x]> pc !! o' = None → pc !! o' = None) ∧
  (∀ o', is_Some (<[o := x]> pc !! o') → is_Some (pc !! o')).
Proof.
  intros Hy Hid Hx. split; [by eapply worker_of_insert|].
  split; [|split]; intros o'; destruct (decide (o' = o)) as [->|Hne];
    rewrite ?lookup_insert_eq, ?lookup_insert_ne by done; try done.
  intros i [= Hi]. by apply Hx in Hi.
Qed.

Lemma Inv_coop S σ pc l sc o x y h Q r evs l' :
  Inv S σ pc l sc →
  pc !! o = Some y → (∀ id, pc_id x = Some id → pc_id y = Some id) →
  (∀ i, x ≠ PcEntry i) →
  (∀ p, is_Some (h !! p) ↔ is_Some (threads σ !! p)) →
  (∀ p, scheduler <$> h !! p = scheduler <$> threads σ !! p) →
  qmutex Q = qmutex (ready_queue sc) → length r = length (running sc) →
  rep h Q l' →
  SInv S (λ p, state <$> h !! p) (λ p, waiting <$> h !! p) l'
       (λ o, tls_thread σ !! o) (<[o := x]> pc) →
  Inv S (upd_world h (<[S := sched_after Q r sc]> (scheds σ)) evs σ)
        (<[o := x]> pc) l' (sched_after Q r sc).
Proof.
  intros HI Hy Hid Hx Hdom Hown HQ Hr Hrep HS.
  destruct (pc_insert_facts pc o x y Hy Hid Hx) as (F1 & F2 & F3 & F4).
  eapply Inv_step; [exact HI|by apply world_frame_upd|apply lookup_insert_eq
                   |by apply sched_same_after|exact Hrep|exact HS|exact F1|exact F2| |exact F4].
  intros o' Ho'. apply (inv_outside _ _ _ _ _ HI). by apply F3.
Qed.

Lemma Inv_trace S σ pc l sc tr : Inv S σ pc l sc → Inv S (set_trace tr σ) pc l sc.
Proof. intros HI. split; apply HI. Qed.

Lemma Inv_env S σ pc l sc e : Inv S σ pc l sc → Inv S (set_env e σ) pc l sc.
Proof. intros HI. split; apply HI. Qed.

Lemma switched_upd σ h ss evs a b :
  last evs = Some (EvSwap a b) → switched σ (upd_world h ss evs σ) = true.
Proof.
  intros Hl. unfold switched, upd_world. cbn. by rewrite drop_app_length, Hl.
Qed.

Lemma switched_same σ : switched σ σ = false.
Proof. unfold switched. by rewrite drop_all. Qed.

Lemma switched_trace σ evs :
  (∀ a b, last evs ≠ Some (EvSwap a b)) →
  switched σ (set_trace (trace σ ++ evs) σ) = false.
Proof.
  intros Hl. unfold switched, set_trace. cbn. rewrite drop_app_length.
  destruct (last evs) as [[]|] eqn:E; try done. by exfalso; eapply Hl.
Qed.

Lemma Inv_rep_facts S σ pc l sc :
  Inv S σ pc l sc →
  tail (ready_queue sc) = NULL ∨ is_Some (threads σ !! tail (ready_queue sc)).
Proof. intros HI. eapply rep_tail_alloc. apply HI. Qed.

(** [lwt_yield] by the running task of worker [o]. *)
Lemma yield_inv S σ pc l sc o id r :
  Inv S σ pc l sc → pc !! o = Some (PcTask id) →
  lwt_yield o σ = Some r →
  switched σ r.2 = true ∧ invariant S (System r.2 (<[o := PcIdle id]> pc)).
Proof.
  intros HI Hpc Hrun.
  destruct (Inv_task _ _ _ _ _ _ _ HI Hpc)
    as (t & th & Hcur & Htn & Hth & Hst & Hown & Hin & Hw & Hwr & Hlen & _).
  rewrite (lwt_yield_eval o σ t S id th sc Hcur Htn Hth Hown Hw (inv_sc _ _ _ _ _ HI)
             Hwr Hlen (inv_mutex _ _ _ _ _ HI) (inv_cond _ _ _ _ _ HI)
             (Inv_rep_facts _ _ _ _ _ HI)) in Hrun by congruence.
  injection Hrun as <-. cbn [snd]. split; [by eapply switched_upd|].
  exists (l ++ [t]), (sched_after (push_queue (ready_queue sc) t) (clear_slot id sc) sc).
  cbn [sys_world sys_pc].
  eapply Inv_coop; try done.
  - intros p. by rewrite is_Some_push_threads, is_Some_alter_iff.
  - intros p. rewrite lookup_push_scheduler. by apply lookup_alter_proj.
  - apply length_clear_slot.
  - apply rep_push_ready; [apply HI|by eexists|done|done].
  - eapply sinv_ext with (st := λ p, if decide (p = t) then Some LWT_STATE_READY
                                     else thread_state σ p)
                         (wt := thread_waiting σ) (cur := λ o, tls_thread σ !! o).
    + eapply sinv_requeue; [apply HI| | |done].
      * left. eauto.
      * intros a. eapply sinv_running_unlinked; [apply HI|].
        unfold thread_state. by rewrite Hth, <- Hst.
    + intros p. cbn beta. rewrite lookup_push_state.
      apply lookup_alter_set; [done|by eexists].
    + intros p. cbn beta. rewrite lookup_push_waiting. by apply lookup_alter_proj.
    + done.
Qed.

Lemma lwt_join_alloc me σ target t s w th sc r :
  tls_thread σ !! me = Some t → t ≠ NULL → threads σ !! t = Some th →
  scheduler th = s → tls_worker σ !! me = Some w →
  scheds σ !! s = Some sc → (0 ≤ w < num_workers sc)%Z →
  mutex sc = MxUnlocked → target ≠ NULL →
  lwt_join target me σ = Some r → is_Some (threads σ !! target).
Proof.
  intros Hcur Ht Hth Hs Hw Hsc Hwr Hmx Htn.
  destruct (threads σ !! target) as [tth|] eqn:Htt; [by eexists|].
  destruct σ as [h ss lv tt tw os e tr]. cbn in *. subst s.
  unfold lwt_join. mrun4. unfold load_thread. munfold. cbn. by rewrite Htt.
Qed.

(** [lwt_join] by the running task of worker [o]. *)
Lemma join_inv S σ pc l sc o id target r :
  Inv S σ pc l sc → pc !! o = Some (PcTask id) →
  lwt_join target o σ = Some r →
  invariant S (System r.2 (if switched σ r.2 then <[o := PcIdle id]> pc else pc)).
Proof.
  intros HI Hpc Hrun.
  destruct (Inv_task _ _ _ _ _ _ _ HI Hpc)
    as (t & th & Hcur & Htn & Hth & Hst & Hown & Hin & Hw & Hwr & Hlen & _).
  destruct (decide (target = NULL)) as [->|Htgt].
  { unfold lwt_join in Hrun. rewrite decide_True in Hrun by done.
    injection Hrun as <-. cbn [snd]. rewrite switched_same. by exists l, sc. }
  destruct (lwt_join_alloc o σ target t S id th sc r Hcur Htn Hth Hown Hw
              (inv_sc _ _ _ _ _ HI) Hwr (inv_mutex _ _ _ _ _ HI) Htgt Hrun) as [tth Htth].
  destruct (decide (state tth = LWT_STATE_FINISHED)) as [Hfin|Hfin].
  { rewrite (lwt_join_eval_finished o σ target t S id th sc tth Hcur Htn Hth Hown Hw
               (inv_sc _ _ _ _ _ HI) Hwr (inv_mutex _ _ _ _ _ HI) Htgt Htth Hfin) in Hrun.
    injection Hrun as <-. cbn [snd]. rewrite switched_trace by (by intros a b).
    exists l, sc. by apply Inv_trace. }
  rewrite (lwt_join_eval o σ target t S id th sc tth Hcur Htn Hth Hown Hw
             (inv_sc _ _ _ _ _ HI) Hwr Hlen (inv_mutex _ _ _ _ _ HI) Htgt Htth Hfin) in Hrun.
  injection Hrun as <-. cbn [snd]. erewrite switched_upd by done.
  exists l, (sched_after (ready_queue sc) (clear_slot id sc) sc).
  cbn [sys_world sys_pc].
  eapply Inv_coop; try done.
  - intros p. by rewrite !is_Some_alter_iff.
  - intros p. rewrite !lookup_alter_proj; done.
  - apply length_clear_slot.
  - apply rep_alter; [done|]. apply rep_alter; [done|]. apply HI.
  - eapply sinv_ext with (st := λ p, if decide (p = t) then Some LWT_STATE_BLOCKED
                                     else thread_state σ p)
                         (wt := λ p, if decide (p = target) then Some t
                                     else thread_waiting σ p)
                         (cur := λ o, tls_thread σ !! o).
    + eapply sinv_join; [apply HI|done|done|done|done].
    + intros p. cbn beta. rewrite lookup_alter_proj by done.
      apply lookup_alter_set; [done|by eexists].
    + intros p. cbn beta. rewrite (lookup_alter_set waiting (with_waiting t) t); [|done|].
      * case_decide; [done|]. by apply lookup_alter_proj.
      * apply is_Some_alter. by eexists.
    + done.
Qed.

(** [lwt_sleep] by the running task of worker [o], up to its wait. *)
Lemma sleep_wait_inv S σ pc l sc o id ms r :
  Inv S σ pc l sc → pc !! o = Some (PcTask id) →
  lwt_sleep_wait ms o σ = Some r →
  invariant S (System r.2 match r.1 with
                          | Some (t, s, w) => <[o := PcSleep id t s w]> pc
                          | None => pc
                          end).
Proof.
  intros HI Hpc Hrun.
  destruct (Inv_task _ _ _ _ _ _ _ HI Hpc)
    as (t & th & Hcur & Htn & Hth & Hst & Hown & Hin & Hw & Hwr & Hlen & _).
  rewrite (lwt_sleep_wait_eval o σ ms t S id th sc Hcur Htn Hth Hown Hw
             (inv_sc _ _ _ _ _ HI) Hwr Hlen (inv_mutex _ _ _ _ _ HI)) in Hrun.
  injection Hrun as <-. cbn [fst snd].
  exists l, (sched_after (ready_queue sc) (clear_slot id sc) sc).
  cbn [sys_world sys_pc].
  eapply Inv_coop; try done.
  - intros p. by rewrite !is_Some_alter_iff.
  - intros p. rewrite !lookup_alter_proj; done.
  - apply length_clear_slot.
  - apply rep_alter; [done|]. apply HI.
  - eapply sinv_ext with (st := λ p, if decide (p = t) then Some LWT_STATE_BLOCKED
                                     else thread_state σ p)
                         (wt := thread_waiting σ) (cur := λ o, tls_thread σ !! o).
    + eapply sinv_sleep; [apply HI|done|done|done].
    + intros p. cbn beta. apply lookup_alter_set; [done|by eexists].
    + intros p. cbn beta. by apply lookup_alter_proj.
    + done.
Qed.

(** [lwt_sleep] after the wait. *)
Lemma sleep_wake_inv S σ pc l sc o id t s w r :
  Inv S σ pc l sc → pc !! o = Some (PcSleep id t s w) →
  lwt_sleep_wake t s w o σ = Some r →
  invariant S (System r.2 (<[o := PcIdle id]> pc)).
Proof.
  intros HI Hpc Hrun.
  destruct (s_sleep _ _ _ _ _ _ (inv_state _ _ _ _ _ HI) _ _ _ _ _ Hpc)
    as (-> & -> & Hst & Hun).
  unfold thread_state in Hst. destruct (threads σ !! t) as [th|] eqn:Hth; [|done].
  injection Hst as Hst.
  assert (Htn : t ≠ NULL).
  { intros ->. pose proof (s_null _ _ _ _ _ _ (inv_state _ _ _ _ _ HI)) as Hn.
    unfold thread_state in Hn. by rewrite Hth in Hn. }
  assert (Hin : t ∉ l).
  { intros Hin. apply (s_ready _ _ _ _ _ _ (inv_state _ _ _ _ _ HI)) in Hin.
    unfold thread_state in Hin. rewrite Hth in Hin. cbn in Hin. congruence. }
  rewrite (lwt_sleep_wake_eval o σ t S id sc ltac:(by eexists) (inv_sc _ _ _ _ _ HI)
             (inv_mutex _ _ _ _ _ HI) (inv_cond _ _ _ _ _ HI)
             (Inv_rep_facts _ _ _ _ _ HI)) in Hrun.
  injection Hrun as <-. cbn [snd].
  exists (l ++ [t]), (sched_after (push_queue (ready_queue sc) t) (running sc) sc).
  cbn [sys_world sys_pc].
  eapply Inv_coop; try done.
  - intros p. by rewrite is_Some_push_threads, is_Some_alter_iff.
  - intros p. rewrite lookup_push_scheduler. by apply lookup_alter_proj.
  - apply rep_push_ready; [apply HI|by eexists|done|done].
  - eapply sinv_ext with (st := λ p, if decide (p = t) then Some LWT_STATE_READY
                                     else thread_state σ p)
                         (wt := thread_waiting σ) (cur := λ o, tls_thread σ !! o).
    + eapply sinv_requeue; [apply HI| |done|done]. right. eauto.
    + intros p. cbn beta. rewrite lookup_push_state.
      apply lookup_alter_set; [done|by eexists].
    + intros p. cbn beta. rewrite lookup_push_waiting. by apply lookup_alter_proj.
    + done.
Qed.

(** The entry trampoline after the entry function of the running task of
    worker [o] has returned. *)
Lemma finish_inv S σ pc l sc o id t r :
  Inv S σ pc l sc → pc !! o = Some (PcTask id) → tls_thread σ !! o = Some t →
  lwt_thread_finish t o σ = Some r →
  switched σ r.2 = true ∧ invariant S (System r.2 (<[o := PcIdle id]> pc)).
Proof.
  intros HI Hpc Hcur' Hrun.
  destruct (Inv_task _ _ _ _ _ _ _ HI Hpc)
    as (t0 & th & Hcur & Htn & Hth & Hst & Hown & Hin & Hw & Hwr & Hlen & _).
  assert (t0 = t) as -> by congruence.
  destruct (decide (waiting th = NULL)) as [Hj|Hj].
  { rewrite (lwt_thread_finish_eval o σ t S id th sc Hcur Htn Hth Hown Hw
               (inv_sc _ _ _ _ _ HI) Hwr Hlen (inv_mutex _ _ _ _ _ HI)
               (inv_cond _ _ _ _ _ HI) Hj) in Hrun.
    injection Hrun as <-. cbn [snd]. split; [by eapply switched_upd|].
    exists l, (sched_after (ready_queue sc) (clear_slot id sc) sc).
    cbn [sys_world sys_pc].
    eapply Inv_coop; try done.
    - intros p. by rewrite !is_Some_alter_iff.
    - intros p. rewrite !lookup_alter_proj; done.
    - apply length_clear_slot.
    - apply rep_alter; [done|]. apply HI.
    - eapply sinv_ext with (st := λ p, if decide (p = t) then Some LWT_STATE_FINISHED
                                       else thread_state σ p)
                           (wt := thread_waiting σ) (cur := λ o, tls_thread σ !! o).
      + eapply sinv_finish; [apply HI|done|done|done].
      + intros p. cbn beta. apply lookup_alter_set; [done|by eexists].
      + intros p. cbn beta. by apply lookup_alter_proj.
      + done. }
  set (j := waiting th) in *.
  assert (Hwt : thread_waiting σ t = Some j) by (unfold thread_waiting; by rewrite Hth).
  pose proof (s_link _ _ _ _ _ _ (inv_state _ _ _ _ _ HI) _ _ Hwt Hj) as Hjb.
  unfold thread_state in Hjb. destruct (threads σ !! j) as [thj|] eqn:Hthj; [|done].
  injection Hjb as Hjb.
  assert (Hjt : j ≠ t) by (intros E; rewrite E, Hth in Hthj; congruence).
  assert (Hjl : j ∉ l).
  { intros Hjl. apply (s_ready _ _ _ _ _ _ (inv_state _ _ _ _ _ HI)) in Hjl.
    unfold thread_state in Hjl. rewrite Hthj in Hjl. cbn in Hjl. congruence. }
  rewrite (lwt_thread_finish_eval_joiner o σ t S id th sc j Hcur Htn Hth Hown Hw
             (inv_sc _ _ _ _ _ HI) Hwr Hlen (inv_mutex _ _ _ _ _ HI)
             (inv_cond _ _ _ _ _ HI) (Inv_rep_facts _ _ _ _ _ HI) eq_refl Hj Hjt
             ltac:(by eexists)) in Hrun.
  injection Hrun as <-. cbn [snd]. split; [by eapply switched_upd|].
  exists (l ++ [j]), (sched_after (push_queue (ready_queue sc) j) (clear_slot id sc) sc).
  cbn [sys_world sys_pc].
  assert (Hal1 : is_Some (alter (with_state LWT_STATE_FINISHED) t (threads σ) !! j)).
  { apply is_Some_alter. by eexists. }
  eapply Inv_coop; try done.
  - intros p. by rewrite is_Some_alter_iff, is_Some_push_threads, !is_Some_alter_iff.
  - intros p. rewrite lookup_alter_proj by done. rewrite lookup_push_scheduler.
    rewrite !lookup_alter_proj; done.
  - apply length_clear_slot.
  - apply rep_alter; [done|]. apply rep_push_ready; [|done|done|done].
    apply rep_alter; [done|]. apply HI.
  - eapply sinv_ext with
      (st := λ p, if decide (p = j) then Some LWT_STATE_READY
                  else if decide (p = t) then Some LWT_STATE_FINISHED
                  else thread_state σ p)
      (wt := λ p, if decide (p = t) then Some NULL else thread_waiting σ p)
      (cur := λ o, tls_thread σ !! o).
    + eapply sinv_finish_joiner; [apply HI|done|done|done|done|done|done].
    + intros p. cbn beta. rewrite lookup_alter_proj by done. rewrite lookup_push_state.
      rewrite (lookup_alter_set state (with_state LWT_STATE_READY) LWT_STATE_READY)
        by done.
      case_decide; [done|]. apply lookup_alter_set; [done|by eexists].
    + intros p. cbn beta.
      rewrite (lookup_alter_set waiting (with_waiting NULL) NULL); [|done|].
      * case_decide; [done|]. rewrite lookup_push_waiting.
        rewrite !lookup_alter_proj; done.
      * apply is_Some_push_threads. apply is_Some_alter. apply is_Some_alter. by eexists.
    + done.
Qed.

(** * The worker loop *)

Ltac mprim5 :=
  match goal with
  | |- context [lwt_queue_pop_locked ?q ?me ?σ] =>
      erewrite (pop_locked_eval q me σ); [ | solve_lookup | done | solve_lookup ]
  | _ => mprim4
  end.

Ltac mrun5 :=
  munfold;
  repeat (mnorm;
          cbn [syscalls env mallocs clock hd from_option Datatypes.id
               context stack stack_size state func arg next waiting scheduler id
               with_state with_next with_waiting with_stack with_context with_id];
          cbv beta iota; mprim5);
  mnorm; cbv beta iota.

Lemma sched_unlock_id (ss : gmap ptr lwt_scheduler) s sc :
  ss !! s = Some sc → mutex sc = MxUnlocked →
  <[s := with_mutex MxUnlocked (with_mutex MxLocked sc)]>
    (<[s := with_mutex MxLocked sc]> ss) = ss.
Proof.
  intros Hs Hm. rewrite insert_insert_eq. apply insert_id. rewrite Hs. f_equal.
  destruct sc; cbn in *. by subst.
Qed.

Lemma lwt_worker_iteration_null id me σ :
  lwt_worker_iteration NULL id me σ = Some (WAgain, σ).
Proof. unfold lwt_worker_iteration. by rewrite decide_True. Qed.

Lemma lwt_worker_iteration_idle s id me σ sc :
  s ≠ NULL → scheds σ !! s = Some sc → mutex sc = MxUnlocked →
  running_flag sc = 0%Z ∨ head (ready_queue sc) = NULL →
  lwt_worker_iteration s id me σ =
  Some (if decide (running_flag sc = 0%Z) then WExit else WWait,
        set_trace (trace σ ++ [EvLock s; EvUnlock s]) σ).
Proof.
  intros Hs Hsc Hmx Hcase. destruct σ as [h ss lv tt tw os e tr]. cbn in *.
  pose proof (sched_unlock_id ss s sc Hsc Hmx) as E.
  unfold with_mutex in E. cbn in E.
  unfold lwt_worker_iteration.
  destruct (decide (running_flag sc = 0%Z)) as [Hf|Hf].
  - mrun5. rewrite E. by rewrite <- app_assoc.
  - destruct Hcase as [?|Hh]; [done|]. mrun5.
    rewrite E. by rewrite <- app_assoc.
Qed.

Lemma lwt_worker_iteration_run s id me σ sc th :
  s ≠ NULL → scheds σ !! s = Some sc → mutex sc = MxUnlocked →
  running_flag sc ≠ 0%Z → head (ready_queue sc) ≠ NULL →
  threads σ !! head (ready_queue sc) = Some th →
  (0 ≤ id < Z.of_nat (length (running sc)))%Z →
  lwt_worker_iteration s id me σ =
  Some (WDispatched (head (ready_queue sc)),
        set_tls_thread (<[me := head (ready_queue sc)]> (tls_thread σ))
          (upd_world
             (alter (with_state LWT_STATE_RUNNING) (head (ready_queue sc))
                (pop_threads (threads σ) (head (ready_queue sc))))
             (<[s := sched_after (pop_queue (ready_queue sc) (next th))
                       (<[Z.to_nat id := head (ready_queue sc)]> (running sc)) sc]>
                (scheds σ))
             [EvLock s; EvPop s (head (ready_queue sc));
              EvState (head (ready_queue sc)) LWT_STATE_RUNNING;
              EvRunning s id (head (ready_queue sc)); EvUnlock s;
              EvSwap (CtxMain s id) (CtxThread (head (ready_queue sc)))] σ)).
Proof.
  intros Hs Hsc Hmx Hf Hh Hth Hid. destruct σ as [h ss lv tt tw os e tr]. cbn in *.
  unfold lwt_worker_iteration.
  rewrite (decide_False (P := s = NULL)) by done.
  mrun5. unfold pop_threads. mrun5.
  rewrite ?insert_insert_eq. unfold set_tls_thread, upd_world, sched_after.
  cbn. rewrite Hmx. rewrite <- ?app_assoc. reflexivity.
Qed.

(** One iteration of the worker loop with the scheduler in hand. *)
Lemma dispatch_inv S σ pc l sc o id r :
  Inv S σ pc l sc → pc !! o = Some (PcIdle id) →
  lwt_worker_iteration S id o σ = Some r →
  invariant S (System r.2 match r.1 with
                          | WDispatched _ => <[o := PcTask id]> pc
                          | WExit => <[o := PcDone]> pc
                          | _ => pc
                          end).
Proof.
  intros HI Hpc Hrun.
  destruct (inv_S _ _ _ _ _ HI) as [HS _].
  destruct (decide (running_flag sc = 0%Z ∨ head (ready_queue sc) = NULL)) as [Hidle|Hbusy].
  { rewrite (lwt_worker_iteration_idle S id o σ sc HS (inv_sc _ _ _ _ _ HI)
               (inv_mutex _ _ _ _ _ HI) Hidle) in Hrun.
    injection Hrun as <-. cbn [fst snd]. case_decide.
    - exists l, sc. cbn [sys_world sys_pc].
      destruct (pc_insert_facts pc o PcDone (PcIdle id) Hpc ltac:(done) ltac:(done))
        as (F1 & F2 & F3 & F4).
      eapply Inv_step; [by apply Inv_trace| |apply HI|apply sched_same_refl|apply HI
                       | |exact F1|exact F2| |exact F4].
      + by repeat split.
      + eapply sinv_pc; [apply HI| |].
        * intros o' id' Ho'. destruct (decide (o' = o)) as [->|];
            [by rewrite lookup_insert_eq in Ho'|by rewrite lookup_insert_ne in Ho'].
        * intros o' id' t s w Ho'. destruct (decide (o' = o)) as [->|];
            [by rewrite lookup_insert_eq in Ho'|by rewrite lookup_insert_ne in Ho'].
      + intros o' Ho'. apply (inv_outside _ _ _ _ _ HI). by apply F3.
    - exists l, sc. by apply Inv_trace. }
  assert (Hf : running_flag sc ≠ 0%Z) by tauto.
  assert (Hh : head (ready_queue sc) ≠ NULL) by tauto.
  destruct l as [|t l].
  { exfalso. apply Hh. by destruct (inv_rep _ _ _ _ _ HI) as (Hc & _). }
  destruct (rep_head _ _ _ _ (inv_rep _ _ _ _ _ HI)) as (Hhd & Htn & th & Hth).
  destruct (inv_wid _ _ _ _ _ HI o id) as [Hw Hwr]; [by left|].
  assert (Hlen : (0 ≤ id < Z.of_nat (length (running sc)))%Z).
  { destruct (inv_arrays _ _ _ _ _ HI) as [-> _]. pose proof (inv_nw _ _ _ _ _ HI). lia. }
  rewrite (lwt_worker_iteration_run S id o σ sc th HS (inv_sc _ _ _ _ _ HI)
             (inv_mutex _ _ _ _ _ HI) Hf Hh ltac:(by rewrite Hhd) Hlen) in Hrun.
  injection Hrun as <-. cbn [fst snd]. rewrite Hhd.
  exists l, (sched_after (pop_queue (ready_queue sc) (next th))
               (<[Z.to_nat id := t]> (running sc)) sc).
  cbn [sys_world sys_pc].
  destruct (pc_insert_facts pc o (PcTask id) (PcIdle id) Hpc ltac:(done) ltac:(done))
    as (F1 & F2 & F3 & F4).
  eapply Inv_step; [exact HI| | | | | |exact F1|exact F2| |exact F4].
  - unfold world_frame, set_tls_thread, upd_world. cbn. repeat (split; [done|]).
    split; [intros p Hp; by rewrite lookup_insert_ne|].
    split; intros p.
    + unfold pop_threads. by rewrite !is_Some_alter_iff.
    + unfold pop_threads. rewrite !lookup_alter_proj; done.
  - cbn. apply lookup_insert_eq.
  - apply sched_same_after; [done|apply length_insert].
  - cbn. apply rep_alter; [done|]. eapply rep_pop; [apply HI|done].
  - eapply sinv_ext with
      (st := λ p, if decide (p = t) then Some LWT_STATE_RUNNING else thread_state σ p)
      (wt := thread_waiting σ)
      (cur := λ o', if decide (o' = o) then Some t else tls_thread σ !! o').
    + eapply sinv_dispatch; [apply HI|apply HI|done|done|done].
    + intros p. unfold thread_state. cbn.
      rewrite (lookup_alter_set state (with_state LWT_STATE_RUNNING) LWT_STATE_RUNNING);
        [|done|apply is_Some_alter; by eexists].
      case_decide; [done|]. unfold pop_threads. by apply lookup_alter_proj.
    + intros p. unfold thread_waiting, pop_threads. cbn. rewrite !lookup_alter_proj; done.
    + intros o'. cbn. rewrite lookup_insert. repeat case_decide; congruence.
  - intros o' Ho'. cbn. destruct (decide (o' = o)) as [->|Hne].
    + by rewrite lookup_insert_eq in Ho'.
    + rewrite lookup_insert_ne by done. apply (inv_outside _ _ _ _ _ HI). by apply F3.
Qed.

(** Calls from an OS thread that runs no task. *)
Lemma Inv_outside_task S σ pc l sc o :
  Inv S σ pc l sc → pc !! o = None → outside_task σ o.
Proof. intros HI Hpc. unfold outside_task. by rewrite (inv_outside _ _ _ _ _ HI o Hpc). Qed.

(** The worker's prologue. *)
Lemma enter_inv S σ pc l sc o i :
  Inv S σ pc l sc → pc !! o = Some (PcEntry i) →
  Inv S (set_tls_worker (<[o := Z.of_nat i]> (tls_worker σ)) σ)
        (<[o := PcIdle (Z.of_nat i)]> pc) l sc.
Proof.
  intros HI Hpc.
  pose proof (inv_entry _ _ _ _ _ HI _ _ Hpc) as Hi.
  split; try apply HI.
  - eapply sinv_pc; [apply HI| |].
    + intros o' id' Ho'. destruct (decide (o' = o)) as [->|];
        [by rewrite lookup_insert_eq in Ho'|by rewrite lookup_insert_ne in Ho'].
    + intros o' id' t s w Ho'. destruct (decide (o' = o)) as [->|];
        [by rewrite lookup_insert_eq in Ho'|by rewrite lookup_insert_ne in Ho'].
  - intros o' id'. rewrite worker_of_pc_id. intros (x & Hx & Hid). cbn.
    destruct (decide (o' = o)) as [->|Hne].
    + rewrite lookup_insert_eq in Hx. injection Hx as <-. cbn in Hid. injection Hid as <-.
      rewrite lookup_insert_eq. split; [done|]. lia.
    + rewrite lookup_insert_ne in Hx by done. rewrite lookup_insert_ne by done.
      apply HI. apply worker_of_pc_id. eauto.
  - intros o' i'. destruct (decide (o' = o)) as [->|Hne];
      [by rewrite lookup_insert_eq|rewrite lookup_insert_ne by done]. apply HI.
  - intros o'. destruct (decide (o' = o)) as [->|Hne];
      [by rewrite lookup_insert_eq|rewrite lookup_insert_ne by done]. apply HI.
  - intros o'. destruct (decide (o' = o)) as [->|Hne];
      [|rewrite lookup_insert_ne by done; apply HI].
    intros _. apply HI. by eexists.
Qed.

(** * Spawn *)

Lemma lwt_scheduler_add_thread_eval s t me σ sc :
  s ≠ NULL → t ≠ NULL → is_Some (threads σ !! t) →
  scheds σ !! s = Some sc → mutex sc = MxUnlocked →
  qmutex (ready_queue sc) = MxUnlocked → cond sc = CvReady →
  (tail (ready_queue sc) = NULL ∨ is_Some (threads σ !! tail (ready_queue sc))) →
  lwt_scheduler_add_thread s t me σ = Some (0%Z,
    upd_world
      (push_threads (alter (with_state LWT_STATE_READY) t (threads σ))
                    (tail (ready_queue sc)) t)
      (<[s := sched_after (push_queue (ready_queue sc) t) (running sc) sc]> (scheds σ))
      [EvState t LWT_STATE_READY; EvQLock s; EvPush s t; EvQUnlock s;
       EvLock s; EvSignal s; EvUnlock s] σ).
Proof.
  intros Hs Ht Hal Hsc Hmx Hqm Hcv Htl.
  destruct σ as [h ss lv tt tw os e tr]. cbn in *.
  unfold lwt_scheduler_add_thread, lwt_queue_push.
  rewrite (decide_False (P := s = NULL ∨ t = NULL)) by (intuition congruence).
  mrun5. unfold push_queue. mrun5.
  rewrite ?insert_insert_eq. unfold upd_world, sched_after, push_queue. cbn.
  rewrite Hmx, Hcv, Hqm. rewrite <- ?app_assoc. reflexivity.
Qed.

Lemma Inv_same_data S σ σ' pc l sc :
  same_data σ σ' → Inv S σ pc l sc → Inv S σ' pc l sc.
Proof.
  intros (Hth & Hss & Hlv & Htt & Htw & Hos) HI.
  destruct σ as [h ss lv tt tw os e tr], σ' as [h' ss' lv' tt' tw' os' e' tr'].
  cbn in *. subst. split; apply HI.
Qed.

Lemma Inv_spawn S σ pc l sc σ' t T sc' stk :
  Inv S σ pc l sc →
  t ≠ NULL → t ∉ live σ →
  waiting T = NULL → scheduler T = S →
  threads σ' = push_threads (alter (with_state LWT_STATE_READY) t (<[t := T]> (threads σ)))
                            (tail (ready_queue sc)) t →
  scheds σ' !! S = Some sc' → (∀ p, p ≠ S → scheds σ' !! p = scheds σ !! p) →
  sched_same sc sc' → ready_queue sc' = push_queue (ready_queue sc) t →
  live σ' = {[stk]} ∪ ({[t]} ∪ live σ) →
  tls_thread σ' = tls_thread σ → tls_worker σ' = tls_worker σ →
  os_threads σ' = os_threads σ →
  Inv S σ' pc (l ++ [t]) sc'.
Proof.
  intros HI Htn Hfresh HwT HsT Hth Hsc' Hss (Hmx & Hcv & Hqm & Hnw & Hids & Hlr & Hlw)
    HQ Hlive Htt Htw Hos.
  destruct (inv_wf _ _ _ _ _ HI) as [Hwt Hws].
  assert (Hnone : threads σ !! t = None).
  { destruct (threads σ !! t) eqn:E; [|done]. exfalso. apply Hfresh, Hwt. by eexists. }
  assert (Hal : is_Some (<[t := T]> (threads σ) !! t)) by (rewrite lookup_insert_eq; by eexists).
  assert (Hin : t ∉ l).
  { intros Hin. destruct (chain_alloc _ _ _ _ (proj1 (inv_rep _ _ _ _ _ HI)) Hin). congruence. }
  assert (Hdom : ∀ p, is_Some (threads σ' !! p) ↔ p = t ∨ is_Some (threads σ !! p)).
  { intros p. rewrite Hth, is_Some_push_threads, is_Some_alter_iff.
    rewrite lookup_insert_is_Some. destruct (decide (t = p)); naive_solver. }
  split; try done.
  - rewrite HQ, Hth. apply rep_push_ready; [|done|done|done].
    apply rep_insert_fresh; [done|apply HI].
  - rewrite Hmx. apply HI.
  - rewrite Hqm. apply HI.
  - rewrite Hcv. apply HI.
  - rewrite Hnw. apply HI.
  - rewrite Hlr, Hlw. apply HI.
  - rewrite Hnw, Hids. apply HI.
  - split; [apply HI|]. rewrite Hlive. destruct (inv_S _ _ _ _ _ HI). set_solver.
  - split; intros p Hp; rewrite Hlive.
    + apply Hdom in Hp as [->|Hp]; [set_solver|]. apply Hwt in Hp. set_solver.
    + destruct (decide (p = S)) as [->|Hne].
      * destruct (inv_S _ _ _ _ _ HI). set_solver.
      * rewrite Hss in Hp by done. apply Hws in Hp. set_solver.
  - intros p s. rewrite Hth, lookup_push_scheduler, lookup_alter_proj by done.
    destruct (decide (p = t)) as [->|Hne].
    + rewrite lookup_insert_eq. cbn. congruence.
    + rewrite lookup_insert_ne by done. apply HI.
  - eapply sinv_ext with
      (st := λ p, if decide (p = t) then Some LWT_STATE_READY else thread_state σ p)
      (wt := λ p, if decide (p = t) then Some NULL else thread_waiting σ p)
      (cur := λ o, tls_thread σ !! o).
    + eapply sinv_spawn; [apply HI|done| | | |done|done].
      * unfold thread_state. by rewrite Hnone.
      * unfold thread_waiting. by rewrite Hnone.
      * intros a Ha.
        pose proof (s_link _ _ _ _ _ _ (inv_state _ _ _ _ _ HI) _ _ Ha Htn) as Hb.
        unfold thread_state in Hb. by rewrite Hnone in Hb.
    + intros p. unfold thread_state. rewrite Hth, lookup_push_state.
      rewrite (lookup_alter_set state (with_state LWT_STATE_READY) LWT_STATE_READY)
        by done.
      case_decide; [done|]. by rewrite lookup_insert_ne.
    + intros p. unfold thread_waiting.
      rewrite Hth, lookup_push_waiting, lookup_alter_proj by done.
      case_decide as Hp.
      * subst p. rewrite lookup_insert_eq. cbn. by rewrite HwT.
      * by rewrite lookup_insert_ne.
    + intros o. by rewrite Htt.
  - intros o id Hw. rewrite Htw, Hnw. by apply HI.
  - intros o i He. rewrite Hnw. by eapply HI.
  - intros o Ho. rewrite Htt. by apply HI.
  - intros o Ho. rewrite Hos. by apply HI.
Qed.

(** [lwt_create], whether it succeeds or fails. *)
Lemma create_inv S σ pc l sc me func arg r :
  Inv S σ pc l sc → lwt_create S func arg me σ = Some r →
  invariant S (System r.2 pc).
Proof.
  intros HI. destruct (inv_S _ _ _ _ _ HI) as [HS HSl].
  pose proof (inv_wf _ _ _ _ _ HI) as [Hwt Hws].
  unfold lwt_create. destruct (decide (S = NULL ∨ func = NULL)) as [Hbad|Hgood].
  { intros [= <-]. by exists l, sc. }
  assert (Hfn : func ≠ NULL) by tauto.
  unfold mbind at 1. unfold M_bind at 1.
  destruct (mallocs (env σ)) as [|t rest] eqn:Hm.
  { rewrite (malloc_eval_nil _ _ Hm). cbv beta iota. rewrite decide_True by done.
    intros [= <-]. by exists l, sc. }
  destruct (decide (t = NULL)) as [->|Htn].
  { rewrite (malloc_eval_null _ _ _ Hm). cbv beta iota. rewrite decide_True by done.
    intros [= <-]. exists l, sc. by apply Inv_env. }
  destruct (decide (t ∈ live σ)) as [Hlive|Hfresh].
  { by rewrite (malloc_eval_fault _ _ _ _ Hm Htn Hlive). }
  rewrite (malloc_eval_cons _ _ _ _ Hm Htn Hfresh). cbv beta iota.
  rewrite decide_False by done.
  set (σ1 := set_live ({[t]} ∪ live σ)
               (set_env (Oracle rest (syscalls (env σ)) (clock (env σ))) σ)).
  assert (Hnone : threads σ !! t = None).
  { destruct (threads σ !! t) eqn:E; [|done]. exfalso. apply Hfresh, Hwt. by eexists. }
  assert (Hsnone : scheds σ !! t = None).
  { destruct (scheds σ !! t) eqn:E; [|done]. exfalso. apply Hfresh, Hws. by eexists. }
  assert (Hwf1 : heap_wf σ1).
  { split; intros p Hp; cbn; [apply Hwt in Hp|apply Hws in Hp]; set_solver. }
  assert (Hl1 : t ∈ live σ1) by (cbn; set_solver).
  unfold mbind at 1. unfold M_bind at 1.
  destruct (lwt_thread_init_eval t func arg S 0%Z me σ1 sc Htn Hfn HS Hl1
              (inv_sc _ _ _ _ _ HI) (inv_mutex _ _ _ _ _ HI) Hwf1)
    as [[_ Hfault]|(ri & σ2 & Hinit & Htt2 & Htw2 & Hos2 & Hcase)].
  { by rewrite Hfault. }
  rewrite Hinit. cbv beta iota.
  destruct Hcase as [(-> & Hlv2 & Hss2 & _ & Hth2 & _)
                    |(-> & stk & _ & Hstk & Hsfresh & _ & Hlv2 & Hth2 & Hss2 & _)].
  - rewrite decide_True by done.
    unfold mbind at 1. unfold M_bind at 1.
    rewrite free_eval by (first [done|rewrite Hlv2; exact Hl1]).
    intros [= <-]. cbn [snd sys_world sys_pc]. exists l, sc.
    eapply Inv_same_data; [|exact HI]. unfold same_data. cbn.
    rewrite Hth2, Hss2, Hlv2, Htt2, Htw2, Hos2. cbn.
    split; [by apply delete_insert_id|]. split; [by apply delete_id|].
    split; [set_solver|done].
  - rewrite decide_False by (intuition congruence).
    unfold mbind at 1. unfold M_bind at 1.
    assert (Hsc2 : scheds σ2 !! S =
                   Some (with_next_thread_id (next_thread_id sc + 1) sc))
      by (rewrite Hss2; apply lookup_insert_eq).
    rewrite (lwt_scheduler_add_thread_eval S t me σ2 _ HS Htn
               ltac:(rewrite Hth2, lookup_insert_eq; by eexists) Hsc2
               (inv_mutex _ _ _ _ _ HI) (inv_qmutex _ _ _ _ _ HI) (inv_cond _ _ _ _ _ HI)).
    2:{ destruct (Inv_rep_facts _ _ _ _ _ HI) as [E|E]; [by left|right].
        cbn. rewrite Hth2. apply lookup_insert_is_Some.
        destruct (decide (t = tail (ready_queue sc))); [by left|right; split; [done|exact E]]. }
    cbv beta iota. rewrite decide_False by (intuition congruence).
    intros [= <-]. cbn [snd sys_world sys_pc].
    eexists (l ++ [t]), _.
    eapply (Inv_spawn S σ pc l sc _ t
              (thread_fresh func arg S stk (init_stack_size 0) (next_thread_id sc)) _ stk HI
              Htn Hfresh eq_refl eq_refl).
    + unfold upd_world. cbn. by rewrite Hth2.
    + unfold upd_world. cbn. apply lookup_insert_eq.
    + intros p Hp. unfold upd_world. cbn. rewrite lookup_insert_ne by done.
      rewrite Hss2. cbn. by rewrite lookup_insert_ne.
    + by repeat split.
    + done.
    + unfold upd_world. cbn. by rewrite Hlv2.
    + unfold upd_world. cbn. by rewrite Htt2.
    + unfold upd_world. cbn. by rewrite Htw2.
    + unfold upd_world. cbn. by rewrite Hos2.
Qed.

(** * Start *)

Lemma pthread_create_eval s i me σ sc :
  scheds σ !! s = Some sc →
  pthread_create s i me σ = Some ((),
    set_trace (trace σ ++ [EvSpawnOS s i (Datatypes.S (os_threads σ))])
      (set_scheds (<[s := with_workers (<[i := Datatypes.S (os_threads σ)]> (workers sc)) sc]>
                     (scheds σ))
         (set_os_threads (Datatypes.S (os_threads σ)) σ))).
Proof.
  intros Hsc. destruct σ as [h ss lv tt tw os e tr]. cbn in *.
  unfold pthread_create. mrun5. reflexivity.
Qed.

Lemma start_workers_spec s me k : ∀ i σ sc,
  scheds σ !! s = Some sc → i + k ≤ length (workers sc) →
  ∃ σ' ws, start_workers k i s me σ = Some ((), σ') ∧
    threads σ' = threads σ ∧ live σ' = live σ ∧
    tls_thread σ' = tls_thread σ ∧ tls_worker σ' = tls_worker σ ∧
    os_threads σ' = os_threads σ + k ∧
    scheds σ' = <[s := with_workers ws sc]> (scheds σ) ∧
    length ws = length (workers sc) ∧
    ∀ j, ws !! j = if decide (i ≤ j < i + k)
                   then Some (os_threads σ + 1 + (j - i)) else workers sc !! j.
Proof.
  induction k as [|k IH]; intros i σ sc Hsc Hlen.
  - exists σ, (workers sc). split; [done|]. do 4 (split; [done|]).
    split; [cbn; lia|]. split.
    + symmetry. apply insert_id. rewrite Hsc. by destruct sc.
    + split; [done|]. intros j. by rewrite decide_False by lia.
  - cbn [start_workers]. unfold mbind at 1. unfold M_bind at 1.
    rewrite (pthread_create_eval s i me σ sc Hsc). cbv beta iota.
    match goal with |- context [start_workers k (Datatypes.S i) s me ?σ1] =>
      destruct (IH (Datatypes.S i) σ1
                  (with_workers (<[i := Datatypes.S (os_threads σ)]> (workers sc)) sc))
        as (σ' & ws & Hrun & Hth & Hlv & Htt & Htw & Hos & Hss & Hlw & Hws)
    end.
    { cbn. apply lookup_insert_eq. }
    { cbn. rewrite length_insert. lia. }
    exists σ', ws. split; [exact Hrun|].
    unfold set_trace, set_scheds, set_os_threads in *. cbn in *.
    repeat (split; [done|]). split; [lia|]. split.
    + rewrite Hss. by rewrite insert_insert_eq.
    + split; [by rewrite Hlw, length_insert|]. intros j. rewrite Hws.
      destruct (decide (j = i)) as [->|Hne].
      * rewrite list_lookup_insert_eq by lia.
        repeat case_decide; try lia; f_equal; lia.
      * rewrite list_lookup_insert_ne by done.
        repeat case_decide; try lia; try done; f_equal; lia.
Qed.

Lemma mark_entries_lookup ws os n : ∀ pc o,
  (∀ j, j < n → ws !! j = Some (os + 1 + j)) →
  mark_entries ws n pc !! o =
  if decide (os < o ≤ os + n) then Some (PcEntry (o - os - 1)) else pc !! o.
Proof.
  unfold mark_entries. induction n as [|n IH]; intros pc o Hws.
  - cbn. by rewrite decide_False by lia.
  - rewrite seq_S, foldr_app. cbn [foldr Nat.add]. rewrite (Hws n) by lia.
    rewrite IH by (intros j Hj; apply Hws; lia).
    destruct (decide (os < o ≤ os + n)).
    + by rewrite decide_True by lia.
    + destruct (decide (o = os + 1 + n)) as [->|Hne].
      * rewrite decide_True by lia. rewrite lookup_insert_eq. do 2 f_equal. lia.
      * rewrite decide_False by lia. by rewrite lookup_insert_ne.
Qed.

Lemma Inv_entries S σ pc l sc σ' sc' pc' :
  Inv S σ pc l sc →
  threads σ' = threads σ → live σ' = live σ →
  tls_thread σ' = tls_thread σ → tls_worker σ' = tls_worker σ →
  os_threads σ ≤ os_threads σ' →
  scheds σ' !! S = Some sc' → (∀ p, p ≠ S → scheds σ' !! p = scheds σ !! p) →
  sched_same sc sc' → ready_queue sc' = ready_queue sc →
  (∀ o, pc' !! o = pc !! o ∨
        (pc !! o = None ∧ o ≤ os_threads σ' ∧
         ∃ i, pc' !! o = Some (PcEntry i) ∧ i < Z.to_nat (num_workers sc))) →
  Inv S σ' pc' l sc'.
Proof.
  intros HI Hth Hlv Htt Htw Hos Hsc' Hss (Hmx & Hcv & Hqm & Hnw & Hids & Hlr & Hlw)
    HQ Hpc.
  split; try done.
  - rewrite HQ, Hth. apply HI.
  - rewrite Hmx. apply HI.
  - rewrite Hqm. apply HI.
  - rewrite Hcv. apply HI.
  - rewrite Hnw. apply HI.
  - rewrite Hlr, Hlw. apply HI.
  - rewrite Hnw, Hids. apply HI.
  - rewrite Hlv. apply HI.
  - destruct (inv_wf _ _ _ _ _ HI) as [Hwt Hws].
    split; intros p Hp; rewrite Hlv.
    + apply Hwt. by rewrite <- Hth.
    + destruct (decide (p = S)) as [->|Hne]; [apply HI|].
      apply Hws. by rewrite <- Hss.
  - intros t s. rewrite Hth. apply HI.
  - eapply sinv_ext with (st := thread_state σ) (wt := thread_waiting σ)
                         (cur := λ o, tls_thread σ !! o).
    + eapply sinv_pc; [apply HI| |].
      * intros o id Ho. destruct (Hpc o) as [E|(_ & _ & i & E & _)]; congruence.
      * intros o id t s w Ho. destruct (Hpc o) as [E|(_ & _ & i & E & _)]; congruence.
    + intros p. unfold thread_state. by rewrite Hth.
    + intros p. unfold thread_waiting. by rewrite Hth.
    + intros o. by rewrite Htt.
  - intros o id Hw. rewrite Htw, Hnw. apply HI.
    apply worker_of_pc_id in Hw as (x & Hx & Hid). apply worker_of_pc_id.
    destruct (Hpc o) as [E|(_ & _ & i & E & _)].
    + exists x. by rewrite <- E.
    + rewrite E in Hx. injection Hx as <-. done.
  - intros o i Ho. rewrite Hnw. destruct (Hpc o) as [E|(_ & _ & i' & E & Hi)].
    + eapply HI. by rewrite <- E.
    + congruence.
  - intros o Ho. rewrite Htt. apply HI.
    destruct (Hpc o) as [E|(_ & _ & i' & E & Hi)]; congruence.
  - intros o Ho. destruct (Hpc o) as [E|(_ & Hle & _)]; [|done].
    rewrite E in Ho. apply (inv_os _ _ _ _ _ HI) in Ho. lia.
Qed.

Lemma start_inv S σ pc l sc me r sc' :
  Inv S σ pc l sc → lwt_scheduler_start S me σ = Some r →
  scheds r.2 !! S = Some sc' →
  invariant S (System r.2
                 (if decide (running_flag sc = 0%Z)
                  then mark_entries (workers sc') (Z.to_nat (num_workers sc)) pc
                  else pc)).
Proof.
  intros HI. destruct (inv_S _ _ _ _ _ HI) as [HS _].
  unfold lwt_scheduler_start. rewrite decide_False by done.
  unfold mbind at 1. unfold M_bind at 1.
  rewrite (load_sched_eval _ _ _ _ (inv_sc _ _ _ _ _ HI)). cbv beta iota.
  destruct (decide (running_flag sc = 0%Z)) as [Hf|Hf].
  2:{ rewrite decide_True by done. intros [= <-] _. by exists l, sc. }
  rewrite decide_False by (intuition congruence).
  pose proof (inv_sc _ _ _ _ _ HI) as Hsc. pose proof (inv_mutex _ _ _ _ _ HI) as Hmx.
  destruct σ as [h ss lv tt tw os e tr]. cbn in Hsc.
  unfold mbind at 1. unfold M_bind at 1. 
  unfold mbind at 1. unfold M_bind at 1. 
  unfold mbind at 1. unfold M_bind at 1. 
  mrun5.
  match goal with |- context [start_workers ?k 0 S me ?σ1] =>
    edestruct (start_workers_spec S me k 0 σ1)
      as (σ' & ws & Hrun & Hth & Hlv & Htt & Htw & Hos & Hss & Hlw & Hws)
  end.
  { cbn. apply lookup_insert_eq. }
  { cbn. destruct (inv_arrays _ _ _ _ _ HI) as [_ ->]. pose proof (inv_nw _ _ _ _ _ HI). lia. }
  unfold with_running_flag, with_mutex in *. cbn in *.
  rewrite Hrun. intros [= <-] Hsc'. cbn [snd] in *.
  rewrite Hss, lookup_insert_eq in Hsc'. injection Hsc' as <-. cbn [workers with_workers].
  match type of Hss with _ = <[_ := ?x]> _ => exists l, x end.
  cbn [sys_world sys_pc].
  eapply (Inv_entries S _ pc l sc σ' _ _ HI); cbn; try done.
  - lia.
  - rewrite Hss. apply lookup_insert_eq.
  - intros p Hp. rewrite Hss. by rewrite !lookup_insert_ne.
  - intros o. rewrite (mark_entries_lookup ws os).
    2:{ intros j Hj. rewrite Hws. rewrite decide_True by lia. f_equal. lia. }
    case_decide as Ho; [|by left]. right. split.
    + destruct (pc !! o) eqn:E; [|done].
      assert (o ≤ os) by (apply (inv_os _ _ _ _ _ HI); by eexists). lia.
    + split; [lia|]. eexists. split; [done|]. lia.
Qed.

(** * Every step keeps the invariant *)

Lemma lwt_scheduler_set_worker_id_eval id o σ :
  lwt_scheduler_set_worker_id id o σ =
  Some ((), set_tls_worker (<[o := id]> (tls_worker σ)) σ).
Proof. reflexivity. Qed.

Lemma exec_inv S a s s' : invariant S s → exec S a s = Some s' → invariant S s'.
Proof.
  intros (l & sc & HI) He. destruct s as [σ pc]. cbn [sys_world sys_pc] in HI.
  destruct a as [me func arg mem rcs|me|o|o|o|o|o target|o ms now|o|o];
    cbn [exec sys_world sys_pc] in He.
  - match type of He with context [lwt_create ?a ?b ?c ?d ?e] =>
      destruct (lwt_create a b c d e) as [[x σ']|] eqn:E; [|done] end.
    cbn in He. injection He as <-.
    eapply (create_inv _ _ _ _ _ _ _ _ (x, σ')); [|exact E]. by apply Inv_env.
  - rewrite (inv_sc _ _ _ _ _ HI) in He. cbn in He.
    destruct (lwt_scheduler_start S me σ) as [[x σ']|] eqn:E; [|done]. cbn in He.
    destruct (scheds σ' !! S) as [sc'|] eqn:Hsc'; [|done]. cbn in He.
    injection He as <-.
    exact (start_inv S σ pc l sc me (x, σ') sc' HI E Hsc').
  - destruct (pc !! o) as [[i| | | |]|] eqn:Hpc; try done.
    rewrite (inv_sc _ _ _ _ _ HI) in He. cbn in He.
    rewrite (inv_ids _ _ _ _ _ HI i (inv_entry _ _ _ _ _ HI _ _ Hpc)) in He. cbn in He.
    rewrite lwt_scheduler_set_worker_id_eval in He. cbn in He. injection He as <-.
    exists l, sc. by apply enter_inv.
  - destruct (pc !! o) as [[|id| | |]|] eqn:Hpc; try done.
    rewrite lwt_worker_iteration_null in He. cbn in He. injection He as <-.
    by exists l, sc.
  - destruct (pc !! o) as [[|id| | |]|] eqn:Hpc; try done.
    destruct (lwt_worker_iteration S id o σ) as [[x σ']|] eqn:E; [|done].
    cbn in He. injection He as <-.
    exact (dispatch_inv S σ pc l sc o id (x, σ') HI Hpc E).
  - destruct (pc !! o) as [[| |id| |]|] eqn:Hpc; try done.
    + destruct (lwt_yield o σ) as [[x σ']|] eqn:E; [|done].
      cbn in He. injection He as <-.
      destruct (yield_inv S σ pc l sc o id (x, σ') HI Hpc E) as [Hsw Hinv].
      cbn [snd] in *. by rewrite Hsw.
    + rewrite lwt_yield_eval_outside in He by (by eapply Inv_outside_task).
      cbn in He. injection He as <-. by exists l, sc.
  - destruct (pc !! o) as [[| |id| |]|] eqn:Hpc; try done.
    + destruct (lwt_join target o σ) as [[x σ']|] eqn:E; [|done].
      cbn in He. injection He as <-.
      exact (join_inv S σ pc l sc o id target (x, σ') HI Hpc E).
    + rewrite lwt_join_eval_outside in He by (by eapply Inv_outside_task).
      cbn in He. injection He as <-. by exists l, sc.
  - pose proof (Inv_env _ _ _ _ _ (Oracle (mallocs (env σ)) (syscalls (env σ)) now) HI)
      as HI'.
    destruct (pc !! o) as [[| |id| |]|] eqn:Hpc; try done.
    + match type of He with context [lwt_sleep_wait ?a ?b ?c] =>
        destruct (lwt_sleep_wait a b c) as [[x σ']|] eqn:E; [|done] end.
      cbn in He. injection He as <-.
      exact (sleep_wait_inv S _ pc l sc o id ms (x, σ') HI' Hpc E).
    + rewrite lwt_sleep_eval_outside in He by (by eapply Inv_outside_task).
      cbn in He. injection He as <-. exists l, sc. by apply Inv_trace.
  - destruct (pc !! o) as [[| | |id t s w|]|] eqn:Hpc; try done.
    destruct (lwt_sleep_wake t s w o σ) as [[x σ']|] eqn:E; [|done].
    cbn in He. injection He as <-.
    exact (sleep_wake_inv S σ pc l sc o id t s w (x, σ') HI Hpc E).
  - destruct (pc !! o) as [[| |id| |]|] eqn:Hpc; try done.
    destruct (tls_thread σ !! o) as [t|] eqn:Ht; [|done]. cbn in He.
    destruct (lwt_thread_finish t o σ) as [[x σ']|] eqn:E; [|done].
    cbn in He. injection He as <-.
    destruct (finish_inv S σ pc l sc o id t (x, σ') HI Hpc Ht E) as [Hsw Hinv].
    cbn [snd] in *. by rewrite Hsw.
Qed.

Lemma execs_inv S acts : ∀ s s',
  invariant S s → execs S acts s = Some s' → invariant S s'.
Proof.
  induction acts as [|a acts IH]; intros s s' Hinv He; cbn in He.
  - by injection He as <-.
  - destruct (exec S a s) as [s1|] eqn:E; [|done]. cbn in He.
    eapply IH; [|exact He]. by eapply exec_inv.
Qed.

(** * The fresh scheduler *)

Lemma create_boot_inv n me orc S σ0 :
  lwt_scheduler_create n me (boot orc) = Some (S, σ0) → S ≠ NULL →
  Inv S σ0 ∅ [] (sched_fresh n).
Proof.
  intros Hc HS.
  destruct (decide (1 ≤ n ≤ 64)%Z) as [Hn|Hn].
  2:{ revert Hc. unfold lwt_scheduler_create, LWT_MAX_WORKERS.
      rewrite decide_True by lia. intros [= <- _]. done. }
  destruct (lwt_scheduler_create_total n me (boot orc) Hn)
    as (s & σ' & Hc' & Htt & Htw & Hos & Htr & Hcase).
  { intros p _. cbn. set_solver. }
  rewrite Hc in Hc'. injection Hc' as <- <-.
  destruct Hcase as [(-> & _)|(_ & _ & _ & Hlv & Hth & _ & _ & Hsc & Hother)]; [done|].
  cbn in Htt, Htw, Hos, Hlv, Hth, Hother.
  split; try done.
  - apply sched_fresh_rep.
  - intros i Hi. unfold sched_fresh in *. cbn [worker_ids num_workers] in *.
    rewrite (fill_worker_ids_lookup _ 0) by (rewrite length_replicate; lia).
    by rewrite decide_True by lia.
  - split; [done|]. rewrite Hlv. set_solver.
  - split; intros p [x Hp].
    + by rewrite Hth in Hp.
    + destruct (decide (p = S)) as [->|Hne]; [rewrite Hlv; set_solver|].
      rewrite Hother in Hp by done. done.
  - intros t s. by rewrite Hth.
  - assert (Hst : ∀ p, thread_state σ0 p = None)
      by (intros p; unfold thread_state; by rewrite Hth).
    assert (Hwt : ∀ p, thread_waiting σ0 p = None)
      by (intros p; unfold thread_waiting; by rewrite Hth).
    split.
    + apply Hst.
    + intros t. rewrite Hst. split; [by intros ?%elem_of_nil|done].
    + intros a b. by rewrite Hwt.
    + intros a a' b. by rewrite Hwt.
    + intros o id. by rewrite lookup_empty.
    + intros o id t s w. by rewrite lookup_empty.
    + intros o o' t _ [(id & Ho & _)|(id & s & w & Ho)]; by rewrite lookup_empty in Ho.
  - intros o id [H|[H|(t & s & w & H)]]; by rewrite lookup_empty in H.
  - intros o _. by rewrite Htt.
  - intros o [x Ho]. by rewrite lookup_empty in Ho.
Qed.

Lemma reachable_invariant S s : reachable S s → invariant S s.
Proof.
  intros (n & me & orc & σ0 & acts & Hc & HS & He).
  eapply execs_inv; [|exact He].
  exists [], (sched_fresh n). cbn. by eapply create_boot_inv.
Qed.

(** * The ready queue holds the READY tasks *)

Lemma demo_running_reachable : reachable 100 demo_running.
Proof.
  exists 1%Z, 0, (Oracle [100] [] (0, 0)%Z), demo_created, schedule_running.
  split; [by vm_compute|]. split; [done|by vm_compute].
Qed.

Lemma demo_joined_reachable : reachable 100 demo_joined.
Proof.
  exists 1%Z, 0, (Oracle [100] [] (0, 0)%Z), demo_created, schedule_joined.
  split; [by vm_compute|]. split; [done|by vm_compute].
Qed.

(** As long as no two calls overlap, that is in every state reached from
    a fresh scheduler by a sequence of complete spawns, starts, worker
    entries, dispatches, yields, joins, sleeps and trampoline finishes,
    the tasks linked in the ready queue are exactly the tasks whose state
    is READY, and no task is linked twice. *)
Theorem ready_queue_invariant S s :
  reachable S s →
  queue_rep (sys_world s) S (queue_tasks (sys_world s) S) ∧
  (∀ t, t ∈ queue_tasks (sys_world s) S ↔
        thread_state (sys_world s) t = Some LWT_STATE_READY) ∧
  NoDup (queue_tasks (sys_world s) S).
Proof.
  intros Hreach. destruct (reachable_invariant _ _ Hreach) as (l & sc & HI).
  assert (Hr : queue_rep (sys_world s) S l) by (exists sc; split; apply HI).
  rewrite (queue_tasks_rep _ _ _ Hr). split; [done|]. split.
  - apply (s_ready _ _ _ _ _ _ (inv_state _ _ _ _ _ HI)).
  - apply (inv_rep _ _ _ _ _ HI).
Qed.

Lemma ready_queue_invariant_witness :
  reachable 100 demo_running ∧
  queue_tasks (sys_world demo_running) 100 = [3] ∧
  (∀ t, t ∈ queue_tasks (sys_world demo_running) 100 ↔
        thread_state (sys_world demo_running) t = Some LWT_STATE_READY) ∧
  NoDup (queue_tasks (sys_world demo_running) 100).
Proof.
  split; [exact demo_running_reachable|]. split; [by vm_compute|].
  exact (proj2 (ready_queue_invariant 100 demo_running demo_running_reachable)).
Defined.

(** * A spawn that overlaps a yield *)

Lemma lwt_queue_push_locked_split queue thread me σ :
  lwt_queue_push_locked queue thread me σ =
  (empty ← lwt_queue_push_locked_test queue thread;
   lwt_queue_push_locked_link queue thread empty) me σ.
Proof.
  unfold lwt_queue_push_locked, lwt_queue_push_locked_test, lwt_queue_push_locked_link.
  unfold mbind, M_bind, mret, M_ret.
  destruct (store_thread thread (with_next NULL) me σ) as [[[] σ1]|]; [|done].
  destruct (load_queue queue me σ1) as [[q σ2]|] eqn:Hq; [|done].
  assert (σ2 = σ1) as ->.
  { revert Hq. unfold load_queue, load_sched, get, lift. unfold mbind, M_bind, mret, M_ret.
    destruct (scheds σ1 !! queue); cbn; congruence. }
  destruct (decide (tail q = NULL)) as [E|E].
  - by rewrite bool_decide_eq_true_2.
  - rewrite bool_decide_eq_false_2 by done. by rewrite Hq.
Qed.

Lemma lwt_create_split scheduler func arg me σ :
  lwt_create scheduler func arg me σ =
  lwt_create_overlapped scheduler func arg (mret ()) me me σ.
Proof.
  unfold lwt_create_overlapped, lwt_create, lwt_create_test, lwt_create_link,
    lwt_scheduler_add_thread, lwt_queue_push.
  destruct (decide (scheduler = NULL ∨ func = NULL)) as [|Hn]; [done|].
  unfold mbind, M_bind, mret, M_ret, option_bind.
  destruct (malloc me σ) as [[thread σ1]|]; [|done].
  destruct (decide (thread = NULL)) as [|Ht]; [done|].
  destruct (lwt_thread_init thread func arg scheduler 0 me σ1) as [[r σ2]|]; [|done].
  destruct (decide (r ≠ 0%Z)) as [|Hr].
  { by destruct (free thread me σ2) as [[[] ?]|]. }
  rewrite decide_False by tauto.
  destruct (set_state thread LWT_STATE_READY me σ2) as [[[] σ3]|]; [|done].
  rewrite decide_False by tauto.
  destruct (queue_mutex_lock scheduler me σ3) as [[[] σ4]|]; [|done].
  rewrite lwt_queue_push_locked_split. unfold mbind, M_bind.
  destruct (lwt_queue_push_locked_test scheduler thread me σ4) as [[b σ5]|]; [|done].
  destruct (lwt_queue_push_locked_link scheduler thread b me σ5) as [[[] σ6]|]; [|done].
  destruct (queue_mutex_unlock scheduler me σ6) as [[[] σ7]|]; [|done].
  destruct (decide (0%Z ≠ 0%Z)) as [H|_]; [by destruct H|].
  destruct (pthread_mutex_lock scheduler me σ7) as [[[] σ8]|]; [|done].
  destruct (pthread_cond_signal scheduler me σ8) as [[[] σ9]|]; [|done].
  destruct (pthread_mutex_unlock scheduler me σ9) as [[[] σ10]|]; [|done].
  done.
Qed.



(** * The end of a task *)

Lemma lwt_thread_start_eval call o σ0 t th0 :
  tls_thread σ0 !! o = Some t → t ≠ NULL → threads σ0 !! t = Some th0 →
  lwt_thread_start call o σ0 =
  (call (func th0) (arg th0);; lwt_thread_finish t) o
    (set_trace (trace σ0 ++ [EvCall (func th0) (arg th0)]) σ0).
Proof.
  intros Ht Hn Hth. destruct σ0 as [h ss lv tt tw os e tr]. cbn in *.
  unfold lwt_thread_start, lwt_thread_self, self_os, get, emit, modify.
  unfold mbind, mret, M_bind, M_ret. cbn. rewrite Ht. cbn.
  rewrite decide_False by done. rewrite (load_thread_eval t o (World h ss lv tt tw os e tr) th0 Hth).
  reflexivity.
Qed.

(** C1 — When the entry function of a task returns, the trampoline makes
    the task FINISHED; and if the task has a joiner at that moment, the
    joiner goes from BLOCKED to READY, is appended to the ready queue, the
    task's joiner link is cleared and the condition variable is signalled,
    in this order: the task is FINISHED before its joiner is enqueued. *)
Theorem trampoline_finish S s o id t :
  reachable S s → sys_pc s !! o = Some (PcTask id) →
  tls_thread (sys_world s) !! o = Some t →
  let σ := sys_world s in
  ∃ σ' j,
    lwt_thread_finish t o σ = Some ((), σ') ∧
    (∀ call σ0 th0,
       tls_thread σ0 !! o = Some t → threads σ0 !! t = Some th0 →
       call (func th0) (arg th0) o
         (set_trace (trace σ0 ++ [EvCall (func th0) (arg th0)]) σ0) = Some ((), σ) →
       lwt_thread_start call o σ0 = Some ((), σ')) ∧
    thread_state σ t = Some LWT_STATE_RUNNING ∧
    thread_waiting σ t = Some j ∧
    thread_state σ' t = Some LWT_STATE_FINISHED ∧
    thread_waiting σ' t = Some NULL ∧
    if decide (j = NULL) then
      queue_tasks σ' S = queue_tasks σ S ∧
      emitted σ σ' =
        [EvLock S; EvState t LWT_STATE_FINISHED; EvUnlock S;
         EvLock S; EvRunning S id NULL; EvSignal S; EvUnlock S;
         EvSwap (CtxThread t) (CtxMain S id)]
    else
      thread_state σ j = Some LWT_STATE_BLOCKED ∧
      thread_state σ' j = Some LWT_STATE_READY ∧
      queue_tasks σ' S = queue_tasks σ S ++ [j] ∧
      emitted σ σ' =
        [EvLock S; EvState t LWT_STATE_FINISHED; EvState j LWT_STATE_READY;
         EvPush S j; EvWaiting t NULL; EvSignal S; EvUnlock S;
         EvLock S; EvRunning S id NULL; EvSignal S; EvUnlock S;
         EvSwap (CtxThread t) (CtxMain S id)].
Proof.
  intros Hreach Hpc Ht σ. destruct s as [σ1 pc]. cbn in Hpc, Ht, σ. subst σ.
  cbn [sys_world].
  destruct (reachable_invariant _ _ Hreach) as (l & sc & HI). cbn in HI.
  destruct (Inv_task _ _ _ _ _ _ _ HI Hpc)
    as (t' & th & Ht' & Hn & Hth & Hst & Hown & Hnl & Hw & Hwr & Hlen & _).
  rewrite Ht in Ht'. injection Ht' as <-.
  assert (Hr : queue_rep σ1 S l) by (exists sc; split; apply HI).
  pose proof (inv_rep _ _ _ _ _ HI) as Hrep.
  pose proof (inv_state _ _ _ _ _ HI) as HS.
  assert (Hstart : ∀ σ', lwt_thread_finish t o σ1 = Some ((), σ') →
    ∀ call σ0 th0,
       tls_thread σ0 !! o = Some t → threads σ0 !! t = Some th0 →
       call (func th0) (arg th0) o
         (set_trace (trace σ0 ++ [EvCall (func th0) (arg th0)]) σ0) = Some ((), σ1) →
       lwt_thread_start call o σ0 = Some ((), σ')).
  { intros σ' Hfin call σ0 th0 H0 Hth0 Hcall.
    rewrite (lwt_thread_start_eval call o σ0 t th0 H0 Hn Hth0).
    unfold mbind, M_bind. rewrite Hcall. exact Hfin. }
  assert (Hstt : thread_state σ1 t = Some LWT_STATE_RUNNING)
    by (unfold thread_state; by rewrite Hth, <- Hst).
  assert (Hwtt : thread_waiting σ1 t = Some (waiting th))
    by (unfold thread_waiting; by rewrite Hth).
  destruct (decide (waiting th = NULL)) as [Hj|Hj].
  - eexists _, (waiting th).
    assert (Hfin := lwt_thread_finish_eval o σ1 t S id th sc Ht Hn Hth Hown Hw
                      (inv_sc _ _ _ _ _ HI) Hwr Hlen (inv_mutex _ _ _ _ _ HI)
                      (inv_cond _ _ _ _ _ HI) Hj).
    split; [exact Hfin|]. split; [exact (Hstart _ Hfin)|].
    split; [done|]. split; [done|].
    split; [|split].
    + unfold thread_state, upd_world. cbn. by rewrite lookup_alter_eq, Hth.
    + unfold thread_waiting, upd_world. cbn. rewrite lookup_alter_eq, Hth. cbn.
      by rewrite Hj.
    + rewrite decide_True by done. split; [|apply emitted_upd].
      rewrite (queue_tasks_rep _ _ _ Hr). apply queue_tasks_rep.
      eapply queue_rep_upd; [apply lookup_insert_eq|]. cbn.
      apply rep_alter; [done|exact Hrep].
  - assert (Hjb : thread_state σ1 (waiting th) = Some LWT_STATE_BLOCKED)
      by (eapply (s_link _ _ _ _ _ _ HS); done).
    assert (Hjt : waiting th ≠ t).
    { intros E. rewrite E in Hjb. congruence. }
    assert (Hjal : is_Some (threads σ1 !! waiting th)).
    { unfold thread_state in Hjb. destruct (threads σ1 !! waiting th); [by eexists|done]. }
    assert (Hjl : waiting th ∉ l).
    { intros Hin. apply (s_ready _ _ _ _ _ _ HS) in Hin. congruence. }
    eexists _, (waiting th).
    assert (Hfin := lwt_thread_finish_eval_joiner o σ1 t S id th sc (waiting th)
                      Ht Hn Hth Hown Hw
                      (inv_sc _ _ _ _ _ HI) Hwr Hlen (inv_mutex _ _ _ _ _ HI)
                      (inv_cond _ _ _ _ _ HI) (rep_tail_alloc _ _ _ Hrep)
                      eq_refl Hj Hjt Hjal).
    split; [exact Hfin|]. split; [exact (Hstart _ Hfin)|].
    split; [done|]. split; [done|].
    split; [|split].
    + unfold thread_state, upd_world. cbn.
      rewrite lookup_alter_proj by done. rewrite lookup_push_state.
      rewrite lookup_alter_ne by done. by rewrite lookup_alter_eq, Hth.
    + unfold thread_waiting, upd_world. cbn.
      rewrite (lookup_alter_set waiting (with_waiting NULL) NULL); [by rewrite decide_True| |].
      { done. }
      apply is_Some_push_threads, is_Some_alter, is_Some_alter. by eexists.
    + rewrite decide_False by done. split; [done|]. split; [|split; [|apply emitted_upd]].
      * unfold thread_state, upd_world. cbn.
        rewrite lookup_alter_proj by done. rewrite lookup_push_state.
        destruct Hjal as [jth Hjth].
        rewrite lookup_alter_eq, lookup_alter_ne, Hjth by done. done.
      * rewrite (queue_tasks_rep _ _ _ Hr). apply queue_tasks_rep.
        eapply queue_rep_upd; [apply lookup_insert_eq|]. cbn.
        apply rep_alter; [done|].
        apply rep_push_ready; [by apply rep_alter|by apply is_Some_alter|done|done].
Qed.

Lemma trampoline_finish_witness :
  reachable 100 demo_joined ∧
  thread_waiting (sys_world demo_joined) 1 = Some 3 ∧
  ∃ σ', lwt_thread_finish 1 1 (sys_world demo_joined) = Some ((), σ') ∧
        thread_state σ' 1 = Some LWT_STATE_FINISHED ∧
        thread_state σ' 3 = Some LWT_STATE_READY ∧
        queue_tasks σ' 100 = queue_tasks (sys_world demo_joined) 100 ++ [3].
Proof.
  split; [exact demo_joined_reachable|]. split; [by vm_compute|].
  destruct (trampoline_finish 100 demo_joined 1 0%Z 1 demo_joined_reachable
              ltac:(by vm_compute) ltac:(by vm_compute))
    as (σ' & j & H1 & _ & _ & Hj & H2 & _ & H3).
  assert (j = 3) as -> by (vm_compute in Hj; congruence).
  rewrite decide_False in H3 by done. destruct H3 as (_ & H3 & H4 & _).
  exists σ'. split; [exact H1|]. split; [exact H2|]. split; [exact H3|exact H4].
Defined.

(** * The locking entry points of the queue *)

Lemma lwt_queue_push_eval q t me σ sc :
  q ≠ NULL → t ≠ NULL → scheds σ !! q = Some sc →
  qmutex (ready_queue sc) = MxUnlocked → is_Some (threads σ !! t) →
  (tail (ready_queue sc) = NULL ∨ is_Some (threads σ !! tail (ready_queue sc))) →
  lwt_queue_push q t me σ = Some (0%Z,
    upd_world (push_threads (threads σ) (tail (ready_queue sc)) t)
      (<[q := with_queue (push_queue (ready_queue sc) t) sc]> (scheds σ))
      [EvQLock q; EvPush q t; EvQUnlock q] σ).
Proof.
  intros Hq Ht Hsc Hqm Hal Htl.
  destruct σ as [h ss lv tt tw os e tr]. cbn in *.
  unfold lwt_queue_push.
  rewrite (decide_False (P := q = NULL ∨ t = NULL)) by (intuition congruence).
  mrun5. unfold push_queue. mrun5.
  rewrite ?insert_insert_eq. unfold upd_world, push_queue, with_queue. cbn.
  rewrite Hqm. rewrite <- ?app_assoc. reflexivity.
Qed.

Lemma lwt_queue_pop_eval q me σ sc th :
  q ≠ NULL → scheds σ !! q = Some sc → qmutex (ready_queue sc) = MxUnlocked →
  head (ready_queue sc) ≠ NULL → threads σ !! head (ready_queue sc) = Some th →
  lwt_queue_pop q me σ = Some (head (ready_queue sc),
    upd_world (pop_threads (threads σ) (head (ready_queue sc)))
      (<[q := with_queue (pop_queue (ready_queue sc) (next th)) sc]> (scheds σ))
      [EvQLock q; EvPop q (head (ready_queue sc)); EvQUnlock q] σ).
Proof.
  intros Hq Hsc Hqm Hh Hth.
  destruct σ as [h ss lv tt tw os e tr]. cbn in *.
  unfold lwt_queue_pop. rewrite decide_False by done.
  mrun5. unfold pop_queue. mrun5.
  rewrite ?insert_insert_eq. unfold upd_world, pop_queue, with_queue. cbn.
  rewrite Hqm. rewrite <- ?app_assoc. reflexivity.
Qed.

Lemma lwt_queue_pop_eval_empty q me σ sc :
  q ≠ NULL → scheds σ !! q = Some sc → qmutex (ready_queue sc) = MxUnlocked →
  head (ready_queue sc) = NULL →
  lwt_queue_pop q me σ = Some (NULL, set_trace (trace σ ++ [EvQLock q; EvQUnlock q]) σ).
Proof.
  intros Hq Hsc Hqm Hh.
  destruct σ as [h ss lv tt tw os e tr]. cbn in *.
  unfold lwt_queue_pop. rewrite decide_False by done.
  unfold lwt_queue_pop_locked. mrun5.
  pose proof (sched_relock ss q sc Hsc Hqm) as E. unfold with_queue, with_qmutex in E.
  cbn in E. cbn. rewrite E. by rewrite <- app_assoc.
Qed.

(** X1 — The locking entry points of the queue.  On a queue whose mutex is
    free, [lwt_queue_push] of a task that is not queued returns 0 and
    appends the task, and [lwt_queue_pop] returns the head (NULL when the
    queue is empty) and removes it; both take the queue mutex first and
    have released it on return.  A NULL queue or a NULL task makes
    [lwt_queue_push] return -1, and a NULL queue makes [lwt_queue_pop]
    return NULL, with nothing changed. *)
Theorem queue_push_pop_locking q me σ l :
  q ≠ NULL → queue_rep σ q l →
  (qmutex ∘ ready_queue) <$> scheds σ !! q = Some MxUnlocked →
  (∀ t, t ≠ NULL → is_Some (threads σ !! t) → t ∉ l →
     ∃ σ', lwt_queue_push q t me σ = Some (0%Z, σ') ∧
           queue_rep σ' q (l ++ [t]) ∧
           (qmutex ∘ ready_queue) <$> scheds σ' !! q = Some MxUnlocked ∧
           emitted σ σ' = [EvQLock q; EvPush q t; EvQUnlock q]) ∧
  (∃ σ', lwt_queue_pop q me σ = Some (hd NULL l, σ') ∧
         queue_rep σ' q (drop 1 l) ∧
         (qmutex ∘ ready_queue) <$> scheds σ' !! q = Some MxUnlocked ∧
         emitted σ σ' =
           EvQLock q :: match l with [] => [] | t :: _ => [EvPop q t] end
                     ++ [EvQUnlock q]) ∧
  lwt_queue_push q NULL me σ = Some ((-1)%Z, σ) ∧
  (∀ t, lwt_queue_push NULL t me σ = Some ((-1)%Z, σ)) ∧
  lwt_queue_pop NULL me σ = Some (NULL, σ).
Proof.
  intros Hq (sc & Hsc & Hrep) Hqm. rewrite Hsc in Hqm. cbn in Hqm.
  injection Hqm as Hqm.
  split; [|split; [|split; [|split]]].
  - intros t Ht Hal Hin. eexists. split.
    { apply (lwt_queue_push_eval q t me σ sc Hq Ht Hsc Hqm Hal).
      by eapply rep_tail_alloc. }
    split; [|split; [|apply emitted_upd]].
    + eapply queue_rep_upd; [apply lookup_insert_eq|]. cbn. by apply rep_push.
    + unfold upd_world. cbn. rewrite lookup_insert_eq. cbn. by rewrite Hqm.
  - destruct l as [|a l].
    + assert (Hh : head (ready_queue sc) = NULL) by apply Hrep.
      eexists. split; [by apply (lwt_queue_pop_eval_empty q me σ sc)|].
      split; [by exists sc|]. split; [|apply emitted_set_trace].
      cbn. rewrite Hsc. cbn. by rewrite Hqm.
    + destruct (rep_head _ _ _ _ Hrep) as (Hh & Han & [tha Htha]).
      eexists. split.
      { rewrite <- Hh. apply (lwt_queue_pop_eval q me σ sc tha Hq Hsc Hqm);
          rewrite Hh; done. }
      split; [|split; [|rewrite Hh; apply emitted_upd]].
      * eapply queue_rep_upd; [apply lookup_insert_eq|]. cbn. rewrite Hh.
        by apply rep_pop.
      * unfold upd_world. cbn. rewrite lookup_insert_eq. cbn. by rewrite Hqm.
  - unfold lwt_queue_push. by rewrite decide_True by (by right).
  - intros t. unfold lwt_queue_push. by rewrite decide_True by (by left).
  - unfold lwt_queue_pop. by rewrite decide_True.
Qed.

Lemma queue_push_pop_locking_witness :
  (∃ σ', lwt_queue_push 100 1 0 (sys_world demo_running) = Some (0%Z, σ') ∧
         queue_rep σ' 100 ([3] ++ [1])) ∧
  (∃ σ', lwt_queue_pop 100 0 (sys_world demo_running) = Some (3, σ') ∧
         queue_rep σ' 100 []).
Proof.
  destruct (queue_push_pop_locking 100 0 (sys_world demo_running) [3]
              ltac:(done) demo_running_rep ltac:(by vm_compute))
    as (Hpush & (σ2 & Hpop & Hr2 & _) & _).
  split.
  - destruct (Hpush 1 ltac:(done) ltac:(decide_by_compute) ltac:(decide_by_compute))
      as (σ1 & H1 & Hr1 & _).
    exists σ1. split; [exact H1|exact Hr1].
  - exists σ2. split; [exact Hpop|exact Hr2].
Defined.

(** X2 — Taking the head off the queue and pushing it back rotates the
    queue: with content [t :: l], [lwt_queue_pop_locked] returns [t], and
    after [lwt_queue_push_locked] of [t] the content is [l ++ [t]] with
    [count] as it was before the two calls. *)
Theorem queue_rotate q me σ t l :
  queue_rep σ q (t :: l) →
  ∃ σ1 σ2,
    lwt_queue_pop_locked q me σ = Some (t, σ1) ∧
    queue_rep σ1 q l ∧
    lwt_queue_push_locked q t me σ1 = Some ((), σ2) ∧
    queue_rep σ2 q (l ++ [t]) ∧
    queue_count σ2 q = queue_count σ q.
Proof.
  intros Hr. pose proof Hr as (sc & Hsc & Hrep).
  destruct (rep_head _ _ _ _ Hrep) as (_ & Hn & Hal).
  assert (Hin : t ∉ l).
  { destruct Hrep as (_ & _ & _ & Hnd). by apply NoDup_cons in Hnd as [? _]. }
  destruct (pop_locked_spec q me σ (t :: l) Hr) as (σ1 & Hpop & Hr1 & _ & Hdom & _ & Hc1).
  destruct (push_locked_spec q t me σ1 l Hr1 ltac:(by apply Hdom) Hn Hin)
    as (σ2 & Hpush & Hr2 & _ & _ & _ & Hc2).
  exists σ1, σ2. split; [exact Hpop|]. split; [exact Hr1|]. split; [exact Hpush|].
  split; [exact Hr2|]. rewrite Hc2, Hc1 by done. lia.
Qed.

Lemma queue_rotate_witness :
  ∃ σ1 σ2,
    lwt_queue_pop_locked 100 0 (sys_world demo_running) = Some (3, σ1) ∧
    queue_rep σ1 100 [] ∧
    lwt_queue_push_locked 100 3 0 σ1 = Some ((), σ2) ∧
    queue_rep σ2 100 ([] ++ [3]) ∧
    queue_count σ2 100 = queue_count (sys_world demo_running) 100.
Proof. exact (queue_rotate 100 0 (sys_world demo_running) 3 [] demo_running_rep). Defined.

(** * Initialising and destroying a queue *)

Lemma lwt_queue_init_eval q me σ sc :
  q ≠ NULL → scheds σ !! q = Some sc →
  lwt_queue_init q me σ =
  Some (if decide (hd 0%Z (syscalls (env σ)) = 0%Z) then 0%Z else (-1)%Z,
        set_scheds
          (<[q := with_queue
                    (if decide (hd 0%Z (syscalls (env σ)) = 0%Z)
                     then Queue NULL NULL MxUnlocked 0 else queue_zero) sc]> (scheds σ))
          (pop_syscall σ)).
Proof.
  intros Hq Hsc. destruct σ as [h ss lv tt tw os [m sy c] tr]. cbn in *.
  unfold lwt_queue_init, queue_zero, pop_syscall. rewrite decide_False by done.
  destruct sy as [|r sy]; cbn [syscalls env hd].
  - mrun3. rewrite ?insert_insert_eq. reflexivity.
  - destruct (decide (r = 0%Z)) as [->|Hr].
    + mrun3. rewrite ?insert_insert_eq. reflexivity.
    + mrun3. rewrite ?insert_insert_eq. reflexivity.
Qed.

Lemma lwt_queue_destroy_eval q me σ sc :
  q ≠ NULL → scheds σ !! q = Some sc →
  lwt_queue_destroy q me σ =
  Some ((), set_scheds (<[q := with_queue queue_zero sc]> (scheds σ)) σ).
Proof.
  intros Hq Hsc. destruct σ as [h ss lv tt tw os e tr]. cbn in *.
  unfold lwt_queue_destroy, queue_zero. rewrite decide_False by done.
  mrun3. rewrite ?insert_insert_eq. reflexivity.
Qed.

(** X3 — [lwt_queue_init] returns 0 exactly when the initialisation of the
    queue mutex succeeds, and then the queue is empty with a free mutex,
    whatever the struct held before; when it fails the result is -1 and
    the struct is zeroed, with no mutex.  [lwt_queue_destroy] resets head,
    tail and count and gives up the mutex whatever the queue holds; it
    frees and changes no task.  A NULL queue makes [lwt_queue_init] return
    -1 and [lwt_queue_destroy] return, with nothing changed. *)
Theorem queue_init_destroy q me σ sc :
  q ≠ NULL → scheds σ !! q = Some sc →
  (∃ r σ', lwt_queue_init q me σ = Some (r, σ') ∧
     threads σ' = threads σ ∧ live σ' = live σ ∧
     (r = 0%Z ∨ r = (-1)%Z) ∧
     (r = 0%Z ↔ hd 0%Z (syscalls (env σ)) = 0%Z) ∧
     (r = 0%Z → queue_rep σ' q [] ∧ queue_count σ' q = 0%Z ∧
                (qmutex ∘ ready_queue) <$> scheds σ' !! q = Some MxUnlocked) ∧
     (r = (-1)%Z → ready_queue <$> scheds σ' !! q = Some queue_zero)) ∧
  (∃ σ', lwt_queue_destroy q me σ = Some ((), σ') ∧
     threads σ' = threads σ ∧ live σ' = live σ ∧ trace σ' = trace σ ∧
     ready_queue <$> scheds σ' !! q = Some queue_zero ∧
     queue_tasks σ' q = [] ∧ queue_count σ' q = 0%Z) ∧
  lwt_queue_init NULL me σ = Some ((-1)%Z, σ) ∧
  lwt_queue_destroy NULL me σ = Some ((), σ).
Proof.
  intros Hq Hsc. split; [|split; [|split]].
  - eexists _, _. split; [by apply (lwt_queue_init_eval q me σ sc)|].
    split; [by destruct σ as [? ? ? ? ? ? [? [|? ?] ?] ?]|].
    split; [by destruct σ as [? ? ? ? ? ? [? [|? ?] ?] ?]|].
    destruct (decide (hd 0%Z (syscalls (env σ)) = 0%Z)) as [E|E].
    + split; [by left|]. split; [done|]. split; [|done]. intros _.
      assert (Hr : queue_rep
                (set_scheds (<[q:=with_queue (Queue NULL NULL MxUnlocked 0) sc]> (scheds σ))
                   (pop_syscall σ)) q []).
      { exists (with_queue (Queue NULL NULL MxUnlocked 0) sc).
        split; [apply lookup_insert_eq|]. by apply rep_nil. }
      split; [exact Hr|]. split; [by rewrite (queue_count_rep _ _ _ Hr)|].
      cbn. by rewrite lookup_insert_eq.
    + split; [by right|]. split; [split; [done|]; intros ?; by exfalso|].
      split; [done|]. intros _. cbn. by rewrite lookup_insert_eq.
  - eexists. split; [by apply (lwt_queue_destroy_eval q me σ sc)|].
    split; [done|]. split; [done|]. split; [done|].
    split; [cbn; by rewrite lookup_insert_eq|].
    split.
    + unfold queue_tasks. cbn. rewrite lookup_insert_eq. cbn.
      by destruct (size (threads σ)).
    + unfold queue_count. cbn. by rewrite lookup_insert_eq.
  - unfold lwt_queue_init. by rewrite decide_True.
  - unfold lwt_queue_destroy. by rewrite decide_True.
Qed.

Lemma queue_init_destroy_witness :
  (∃ σ', lwt_queue_destroy 100 0 (sys_world demo_running) = Some ((), σ') ∧
         threads σ' = threads (sys_world demo_running) ∧
         queue_tasks σ' 100 = []) ∧
  queue_tasks (sys_world demo_running) 100 = [3].
Proof.
  destruct demo_running_rep as (sc & Hsc & _).
  destruct (queue_init_destroy 100 0 (sys_world demo_running) sc ltac:(done) Hsc)
    as (_ & (σ' & H1 & H2 & _ & _ & _ & H3 & _) & _).
  split; [|by vm_compute]. exists σ'. split; [exact H1|]. split; [exact H2|exact H3].
Defined.

(** * The worker function *)

Lemma lwt_worker_loop_null fuel id me σ :
  lwt_worker_loop fuel NULL id me σ = Some (false, σ).
Proof.
  induction fuel as [|fuel IH]; [done|].
  cbn [lwt_worker_loop]. unfold mbind at 1. unfold M_bind at 1.
  rewrite lwt_worker_iteration_null. exact IH.
Qed.

(** X4 — [lwt_worker_function] stores its worker id in the thread-local
    [current_worker_id] and then, because its local [scheduler] is NULL and
    is never assigned, only sleeps and starts over: after any number of
    iterations it has not returned, and it has taken no lock, popped no
    task and changed no task and no scheduler. *)
Theorem worker_function_spins fuel id me σ :
  lwt_worker_function fuel id me σ =
  Some (false, set_tls_worker (<[me := id]> (tls_worker σ)) σ).
Proof.
  unfold lwt_worker_function. unfold mbind at 1. unfold M_bind at 1.
  rewrite lwt_scheduler_set_worker_id_eval. apply lwt_worker_loop_null.
Qed.

Lemma reachable_idle S s o id :
  reachable S s → sys_pc s !! o = Some (PcIdle id) →
  ∃ l sc, Inv S (sys_world s) (sys_pc s) l sc ∧
          (0 ≤ id < Z.of_nat (length (running sc)))%Z.
Proof.
  intros Hreach Hpc. destruct (reachable_invariant _ _ Hreach) as (l & sc & HI).
  exists l, sc. split; [done|].
  destruct (inv_wid _ _ _ _ _ HI o id ltac:(by left)) as [_ Hid].
  destruct (inv_arrays _ _ _ _ _ HI) as [-> _].
  pose proof (inv_nw _ _ _ _ _ HI). lia.
Qed.

Lemma dispatch_head S s o id sc t l :
  reachable S s → sys_pc s !! o = Some (PcIdle id) →
  scheds (sys_world s) !! S = Some sc → running_flag sc ≠ 0%Z →
  queue_tasks (sys_world s) S = t :: l →
  ∃ σ', lwt_worker_iteration S id o (sys_world s) = Some (WDispatched t, σ') ∧
        thread_state (sys_world s) t = Some LWT_STATE_READY ∧
        thread_state σ' t = Some LWT_STATE_RUNNING ∧
        queue_tasks σ' S = l ∧
        tls_thread σ' !! o = Some t ∧
        running_slot σ' S id = Some t ∧
        emitted (sys_world s) σ' =
          [EvLock S; EvPop S t; EvState t LWT_STATE_RUNNING; EvRunning S id t;
           EvUnlock S; EvSwap (CtxMain S id) (CtxThread t)].
Proof.
  intros Hreach Hpc Hsc Hf Hq.
  destruct (reachable_idle _ _ _ _ Hreach Hpc) as (l0 & sc' & HI & Hid).
  assert (sc' = sc) as -> by (pose proof (inv_sc _ _ _ _ _ HI); congruence).
  destruct (inv_S _ _ _ _ _ HI) as [HS _].
  pose proof (inv_mutex _ _ _ _ _ HI) as Hmx.
  pose proof (inv_rep _ _ _ _ _ HI) as Hrep.
  assert (Hr : queue_rep (sys_world s) S l0) by (by exists sc).
  rewrite (queue_tasks_rep _ _ _ Hr) in Hq. subst l0.
  destruct (rep_head _ _ _ _ Hrep) as (Hh & Hn & [th Hth]).
  eexists. split.
  { rewrite <- Hh.
    apply (lwt_worker_iteration_run S id o _ sc th HS Hsc Hmx Hf);
      rewrite ?Hh; done. }
  rewrite Hh. split; [|split; [|split; [|split; [|split]]]].
  + apply (s_ready _ _ _ _ _ _ (inv_state _ _ _ _ _ HI)). set_solver.
  + unfold thread_state, upd_world. cbn. rewrite lookup_alter_eq.
    unfold pop_threads. rewrite lookup_alter_eq, Hth. done.
  + apply queue_tasks_rep. exists (sched_after (pop_queue (ready_queue sc) (next th))
                                     (<[Z.to_nat id := t]> (running sc)) sc).
    split; [cbn; apply lookup_insert_eq|]. cbn.
    apply rep_alter; [done|]. by apply rep_pop.
  + cbn. apply lookup_insert_eq.
  + unfold running_slot. cbn. rewrite lookup_insert_eq. cbn.
    apply list_lookup_insert_eq. lia.
  + unfold emitted. cbn. by rewrite drop_app_length.
Qed.



(** * Adding a task to a scheduler *)

(** X6 — [lwt_scheduler_add_thread] makes the task READY, appends it to
    the ready queue under the queue mutex, signals the condition variable
    under the scheduler mutex and returns 0, leaving both mutexes free;
    with a NULL scheduler or a NULL task it returns -1 and changes
    nothing. *)
Theorem add_thread_spec s me σ l sc :
  s ≠ NULL → scheds σ !! s = Some sc → rep (threads σ) (ready_queue sc) l →
  mutex sc = MxUnlocked → qmutex (ready_queue sc) = MxUnlocked → cond sc = CvReady →
  (∀ t, t ≠ NULL → is_Some (threads σ !! t) → t ∉ l →
     ∃ σ' sc',
       lwt_scheduler_add_thread s t me σ = Some (0%Z, σ') ∧
       thread_state σ' t = Some LWT_STATE_READY ∧
       queue_rep σ' s (l ++ [t]) ∧
       queue_tasks σ' s = queue_tasks σ s ++ [t] ∧
       scheds σ' !! s = Some sc' ∧
       mutex sc' = MxUnlocked ∧ qmutex (ready_queue sc') = MxUnlocked ∧
       emitted σ σ' =
         [EvState t LWT_STATE_READY; EvQLock s; EvPush s t; EvQUnlock s;
          EvLock s; EvSignal s; EvUnlock s]) ∧
  lwt_scheduler_add_thread s NULL me σ = Some ((-1)%Z, σ) ∧
  (∀ t, lwt_scheduler_add_thread NULL t me σ = Some ((-1)%Z, σ)).
Proof.
  intros Hs Hsc Hrep Hmx Hqm Hcv.
  assert (Hr : queue_rep σ s l) by (by exists sc).
  split; [|split].
  - intros t Ht Hal Hin. eexists _, _. split.
    { apply (lwt_scheduler_add_thread_eval s t me σ sc Hs Ht Hal Hsc Hmx Hqm Hcv).
      by eapply rep_tail_alloc. }
    assert (Hr' : rep (push_threads (alter (with_state LWT_STATE_READY) t (threads σ))
                         (tail (ready_queue sc)) t)
                      (push_queue (ready_queue sc) t) (l ++ [t]))
      by (by apply rep_push_ready).
    split; [|split; [|split; [|split; [|split; [|split]]]]].
    + unfold thread_state, upd_world. cbn. rewrite lookup_push_state.
      destruct Hal as [th Hth]. by rewrite lookup_alter_eq, Hth.
    + eapply queue_rep_upd; [apply lookup_insert_eq|]. exact Hr'.
    + rewrite (queue_tasks_rep _ _ _ Hr). apply queue_tasks_rep.
      eapply queue_rep_upd; [apply lookup_insert_eq|]. exact Hr'.
    + unfold upd_world. cbn. apply lookup_insert_eq.
    + done.
    + cbn. unfold push_queue. done.
    + apply emitted_upd.
  - unfold lwt_scheduler_add_thread. by rewrite decide_True by (by right).
  - intros t. unfold lwt_scheduler_add_thread. by rewrite decide_True by (by left).
Qed.

Lemma add_thread_spec_witness :
  ∃ σ', lwt_scheduler_add_thread 100 2 0 demo_world = Some (0%Z, σ') ∧
        thread_state σ' 2 = Some LWT_STATE_READY ∧
        queue_tasks σ' 100 = queue_tasks demo_world 100 ++ [2].
Proof.
  destruct (add_thread_spec 100 0 demo_world [] demo_sched ltac:(done)
              ltac:(by vm_compute) ltac:(by apply rep_nil)
              ltac:(done) ltac:(done) ltac:(done)) as (Hadd & _).
  destruct (Hadd 2 ltac:(done) ltac:(decide_by_compute) ltac:(decide_by_compute))
    as (σ' & sc' & H1 & H2 & _ & H3 & _).
  exists σ'. split; [exact H1|]. split; [exact H2|exact H3].
Defined.

(** * Starting and stopping the workers *)

Lemma start_workers_trace s me k : ∀ i σ sc σ',
  scheds σ !! s = Some sc →
  start_workers k i s me σ = Some ((), σ') →
  env σ' = env σ ∧
  trace σ' = trace σ ++
    ((λ j, EvSpawnOS s (i + j) (os_threads σ + 1 + j)) <$> seq 0 k).
Proof.
  induction k as [|k IH]; intros i σ sc σ' Hsc.
  - intros [= <-]. split; [done|]. by rewrite app_nil_r.
  - cbn [start_workers]. unfold mbind at 1. unfold M_bind at 1.
    rewrite (pthread_create_eval s i me σ sc Hsc). cbv beta iota. intros Hrun.
    eapply IH in Hrun as [He Htr]; [|cbn; apply lookup_insert_eq].
    split; [exact He|]. rewrite Htr. cbn [trace set_trace os_threads set_scheds set_os_threads].
    rewrite <- app_assoc. f_equal. cbn [seq fmap list_fmap app].
    f_equal; [f_equal; lia|].
    rewrite <- fmap_S_seq, <- list_fmap_compose.
    apply list_fmap_ext. intros j x _. cbn. f_equal; lia.
Qed.

(** X7 — [lwt_scheduler_start] on a scheduler that is not running sets
    [running_flag] to 1 under the scheduler mutex and then creates
    [num_workers] OS threads, one per index [i < num_workers] in index
    order, storing the handle of the [i]-th in [workers[i]]; no task, no
    queue and no other field changes.  On a scheduler that is running, and
    on NULL, it does nothing: a second start creates no more workers. *)
Theorem scheduler_start_spec s me σ sc :
  s ≠ NULL → scheds σ !! s = Some sc →
  (running_flag sc ≠ 0%Z → lwt_scheduler_start s me σ = Some ((), σ)) ∧
  (running_flag sc = 0%Z → mutex sc = MxUnlocked →
   Z.to_nat (num_workers sc) ≤ length (workers sc) →
   ∃ σ' ws,
     lwt_scheduler_start s me σ = Some ((), σ') ∧
     scheds σ' = <[s := with_workers ws (with_running_flag 1 sc)]> (scheds σ) ∧
     length ws = length (workers sc) ∧
     (∀ j, ws !! j = if decide (j < Z.to_nat (num_workers sc))
                     then Some (os_threads σ + 1 + j) else workers sc !! j) ∧
     os_threads σ' = os_threads σ + Z.to_nat (num_workers sc) ∧
     threads σ' = threads σ ∧ live σ' = live σ ∧
     tls_thread σ' = tls_thread σ ∧ tls_worker σ' = tls_worker σ ∧
     emitted σ σ' =
       [EvLock s; EvUnlock s] ++
       ((λ j, EvSpawnOS s j (os_threads σ + 1 + j)) <$> seq 0 (Z.to_nat (num_workers sc))) ∧
     lwt_scheduler_start s me σ' = Some ((), σ')) ∧
  lwt_scheduler_start NULL me σ = Some ((), σ).
Proof.
  intros Hs Hsc. split; [|split].
  - intros Hf. unfold lwt_scheduler_start. rewrite decide_False by done.
    unfold mbind at 1. unfold M_bind at 1. rewrite (load_sched_eval _ _ _ _ Hsc).
    cbv beta iota. by rewrite decide_True by done.
  - intros Hf Hmx Hlen. unfold lwt_scheduler_start at 1. rewrite decide_False by done.
    unfold mbind at 1. unfold M_bind at 1. rewrite (load_sched_eval _ _ _ _ Hsc).
    cbv beta iota. rewrite decide_False by (intuition congruence).
    destruct σ as [h ss lv tt tw os e tr]. cbn in Hsc.
    unfold mbind at 1. unfold M_bind at 1.
    unfold mbind at 1. unfold M_bind at 1.
    unfold mbind at 1. unfold M_bind at 1.
    mrun5.
    match goal with |- context [start_workers ?k 0 s me ?σ1] =>
      edestruct (start_workers_spec s me k 0 σ1)
        as (σ' & ws & Hrun & Hth & Hlv & Htt & Htw & Hos & Hss & Hlw & Hws);
      [cbn; apply lookup_insert_eq|cbn; lia|]
    end.
    pose proof Hrun as Htr.
    eapply start_workers_trace in Htr as [He Htr]; [|cbn; apply lookup_insert_eq].
    cbn in *. exists σ', ws. split; [exact Hrun|].
    split; [by rewrite Hss, !insert_insert_eq|]. split; [done|].
    split; [intros j; rewrite Hws; repeat case_decide; try lia; try done; f_equal; lia|].
    split; [done|]. do 4 (split; [done|]).
    split.
    + unfold emitted. cbn. rewrite Htr, <- !app_assoc, drop_app_length. done.
    + unfold lwt_scheduler_start. rewrite decide_False by done.
      unfold mbind at 1. unfold M_bind at 1.
      erewrite load_sched_eval by (rewrite Hss; apply lookup_insert_eq).
      cbv beta iota. by rewrite decide_True by done.
  - unfold lwt_scheduler_start. by rewrite decide_True.
Qed.

Lemma scheduler_start_spec_witness :
  ∃ σ' (ws : list nat),
    lwt_scheduler_start 100 0 demo_world = Some ((), σ') ∧
    ws !! 0 = Some 1 ∧
    os_threads σ' = 1 ∧
    lwt_scheduler_start 100 0 σ' = Some ((), σ').
Proof.
  destruct (scheduler_start_spec 100 0 demo_world demo_sched ltac:(done)
              ltac:(by vm_compute)) as (_ & Hstart & _).
  destruct (Hstart ltac:(done) ltac:(done) ltac:(vm_compute; lia))
    as (σ' & ws & H1 & _ & _ & Hws & Hos & _ & _ & _ & _ & _ & H2).
  exists σ', ws. split; [exact H1|]. split; [exact (Hws 0)|]. split; [exact Hos|exact H2].
Defined.

(** X8 — [lwt_scheduler_stop] on a running scheduler first takes the
    scheduler mutex, clears [running_flag], broadcasts on the condition
    variable and releases the mutex; only then does it begin to wait for
    the workers, in index order, and up to that wait no task, no queue and
    no other field has changed.  A stop made in the state reached at that
    point returns at once: the flag is already 0. *)
Theorem scheduler_stop_running s me σ sc :
  s ≠ NULL → scheds σ !! s = Some sc → running_flag sc ≠ 0%Z →
  mutex sc = MxUnlocked → cond sc = CvReady →
  ∃ σ1,
    lwt_scheduler_stop s me σ =
      join_workers (Z.to_nat (num_workers sc)) 0 s me σ1 ∧
    scheds σ1 = <[s := with_running_flag 0 sc]> (scheds σ) ∧
    threads σ1 = threads σ ∧ live σ1 = live σ ∧
    tls_thread σ1 = tls_thread σ ∧ tls_worker σ1 = tls_worker σ ∧
    os_threads σ1 = os_threads σ ∧
    emitted σ σ1 = [EvLock s; EvBroadcast s; EvUnlock s] ∧
    lwt_scheduler_stop s me σ1 = Some ((), σ1).
Proof.
  intros Hs Hsc Hf Hmx Hcv.
  unfold lwt_scheduler_stop at 1. rewrite decide_False by done.
  unfold mbind at 1. unfold M_bind at 1. rewrite (load_sched_eval _ _ _ _ Hsc).
  cbv beta iota. rewrite decide_False by done.
  destruct σ as [h ss lv tt tw os e tr]. cbn in Hsc.
  unfold mbind at 1. unfold M_bind at 1.
  unfold mbind at 1. unfold M_bind at 1.
  unfold mbind at 1. unfold M_bind at 1.
  unfold mbind at 1. unfold M_bind at 1.
  mrun5.
  eexists. split; [reflexivity|].
  cbn. split; [by rewrite !insert_insert_eq|]. do 5 (split; [done|]).
  split.
  - unfold emitted. cbn. by rewrite <- !app_assoc, drop_app_length.
  - unfold lwt_scheduler_stop. rewrite decide_False by done.
    unfold mbind at 1. unfold M_bind at 1.
    erewrite load_sched_eval by (cbn; apply lookup_insert_eq).
    cbv beta iota. by rewrite decide_True by done.
Qed.

Lemma scheduler_stop_running_witness :
  ∃ σ1, lwt_scheduler_stop 100 0 (sys_world demo_idle) =
          join_workers 1 0 100 0 σ1 ∧
        emitted (sys_world demo_idle) σ1 =
          [EvLock 100; EvBroadcast 100; EvUnlock 100] ∧
        lwt_scheduler_stop 100 0 σ1 = Some ((), σ1).
Proof.
  edestruct (scheduler_stop_running 100 0 (sys_world demo_idle))
    as (σ1 & H1 & _ & _ & _ & _ & _ & _ & H2 & H3).
  - done.
  - vm_compute. reflexivity.
  - done.
  - done.
  - done.
  - exists σ1. split; [exact H1|]. split; [exact H2|exact H3].
Defined.

(** * The end of a scheduler *)

Lemma lwt_scheduler_cleanup_eval s me σ sc :
  s ≠ NULL → scheds σ !! s = Some sc → mutex sc = MxUnlocked → cond sc = CvReady →
  lwt_scheduler_cleanup s me σ =
  Some ((), set_scheds
              (<[s := with_queue queue_zero (with_cond CvNone (with_mutex MxNone sc))]>
                 (scheds σ)) σ).
Proof.
  intros Hs Hsc Hmx Hcv. destruct σ as [h ss lv tt tw os e tr]. cbn in *.
  unfold lwt_scheduler_cleanup, lwt_queue_destroy, pthread_mutex_destroy,
    pthread_cond_destroy, mutex_destroy, queue_zero.
  rewrite !decide_False by done.
  mrun3. rewrite ?insert_insert_eq. reflexivity.
Qed.

(** X9 — [lwt_scheduler_cleanup] gives up the scheduler's mutex, its
    condition variable and the queue mutex and empties the queue struct.
    [lwt_scheduler_destroy] of a scheduler that is not running does this
    and then frees the scheduler block, and frees nothing else: every
    task, and every other block that was live, is as it was, whether or
    not the task was still in the ready queue.  On NULL both functions do
    nothing. *)
Theorem scheduler_destroy_spec s me σ sc :
  s ≠ NULL → s ∈ live σ → scheds σ !! s = Some sc →
  running_flag sc = 0%Z → mutex sc = MxUnlocked → cond sc = CvReady →
  (∃ σ1 sc1,
     lwt_scheduler_cleanup s me σ = Some ((), σ1) ∧
     scheds σ1 !! s = Some sc1 ∧ sched_released sc1 ∧
     ready_queue sc1 = queue_zero ∧
     threads σ1 = threads σ ∧ live σ1 = live σ) ∧
  (∃ σ',
     lwt_scheduler_destroy s me σ = Some ((), σ') ∧
     live σ' = live σ ∖ {[s]} ∧
     scheds σ' = delete s (scheds σ) ∧
     threads σ' = delete s (threads σ) ∧
     (∀ t, t ≠ s → threads σ' !! t = threads σ !! t ∧ (t ∈ live σ' ↔ t ∈ live σ)) ∧
     trace σ' = trace σ) ∧
  lwt_scheduler_cleanup NULL me σ = Some ((), σ) ∧
  lwt_scheduler_destroy NULL me σ = Some ((), σ).
Proof.
  intros Hs Hl Hsc Hf Hmx Hcv.
  pose proof (lwt_scheduler_cleanup_eval s me σ sc Hs Hsc Hmx Hcv) as Hclean.
  split; [|split; [|split]].
  - eexists _, _. split; [exact Hclean|]. cbn. split; [apply lookup_insert_eq|].
    by repeat split.
  - unfold lwt_scheduler_destroy. rewrite decide_False by done.
    unfold mbind at 1. unfold M_bind at 1.
    rewrite (lwt_scheduler_stop_idle s me σ sc Hsc Hf). cbv beta iota.
    unfold mbind at 1. unfold M_bind at 1. rewrite Hclean. cbv beta iota.
    rewrite free_eval by done.
    eexists. split; [reflexivity|]. cbn.
    split; [done|]. split; [by rewrite delete_insert_eq|]. split; [done|].
    split; [|done]. intros t Ht. split; [by rewrite lookup_delete_ne|set_solver].
  - unfold lwt_scheduler_cleanup. by rewrite decide_True.
  - unfold lwt_scheduler_destroy. by rewrite decide_True.
Qed.

Lemma scheduler_destroy_spec_witness :
  ∃ σ', lwt_scheduler_destroy 100 0 demo_world = Some ((), σ') ∧
        live σ' = live demo_world ∖ {[100]} ∧
        threads σ' !! 1 = threads demo_world !! 1 ∧
        scheds σ' = delete 100 (scheds demo_world).
Proof.
  destruct (scheduler_destroy_spec 100 0 demo_world demo_sched ltac:(done)
              ltac:(decide_by_compute) ltac:(by vm_compute)
              ltac:(done) ltac:(done) ltac:(done))
    as (_ & (σ' & H1 & H2 & H3 & _ & H4 & _) & _).
  exists σ'. split; [exact H1|]. split; [exact H2|].
  split; [exact (proj1 (H4 1 ltac:(done)))|exact H3].
Defined.

(** X10 — [lwt_scheduler_create] leaks nothing: whenever it returns NULL
    (worker count out of range, allocation failed, or one of the three
    initialisations failed after the allocation) the live blocks are those
    before the call, the block just allocated having been freed; and it
    returns NULL exactly in these cases.  When it returns a scheduler,
    that is the one block it has allocated. *)
Theorem scheduler_create_no_leak n me σ :
  malloc_sane σ →
  ∃ s σ',
    lwt_scheduler_create n me σ = Some (s, σ') ∧
    (s = NULL → live σ' = live σ) ∧
    (s ≠ NULL → mallocs (env σ) !! 0 = Some s ∧ (s ∉ live σ) ∧
                live σ' = {[s]} ∪ live σ) ∧
    (s ≠ NULL ↔ (1 ≤ n ≤ LWT_MAX_WORKERS)%Z ∧ malloc_succeeds σ ∧ calls_succeed 3 σ).
Proof.
  intros Hsane. unfold LWT_MAX_WORKERS.
  destruct (decide (1 ≤ n ≤ 64)%Z) as [Hn|Hn].
  - destruct (lwt_scheduler_create_total n me σ Hn Hsane)
      as (s & σ' & Hc & _ & _ & _ & _ & Hcase).
    exists s, σ'. split; [exact Hc|].
    destruct Hcase as [(-> & Hlive & Hno)|(Hs & Hm & Hfresh & Hlive & _ & Hok1 & Hok2 & _)].
    + split; [done|]. split; [done|]. split; [done|]. intros (_ & ? & ?). exfalso. tauto.
    + split; [done|]. split; [done|]. done.
  - exists NULL, σ. split.
    { unfold lwt_scheduler_create, LWT_MAX_WORKERS. by rewrite decide_True by lia. }
    split; [done|]. split; [done|]. split; [done|]. intros (? & _). lia.
Qed.

Lemma scheduler_create_no_leak_witness :
  ∃ σ', lwt_scheduler_create 2 0 (boot (Oracle [100] [0; 1]%Z (0, 0)%Z)) = Some (NULL, σ') ∧
        live σ' = live (boot (Oracle [100] [0; 1]%Z (0, 0)%Z)).
Proof.
  destruct (scheduler_create_no_leak 2 0 (boot (Oracle [100] [0; 1]%Z (0, 0)%Z)))
    as (s & σ' & H1 & H2 & _ & _).
  { intros p _. cbn. set_solver. }
  assert (s = NULL) as ->.
  { vm_compute in H1. by injection H1 as <- _. }
  exists σ'. split; [exact H1|exact (H2 eq_refl)].
Defined.

(** * Initialising and cleaning up a task *)

Lemma lwt_thread_cleanup_eval t me σ th :
  t ≠ NULL → threads σ !! t = Some th →
  stack th ≠ NULL → stack th ∈ live σ → stack th ≠ t →
  lwt_thread_cleanup t me σ =
  Some ((), set_scheds (delete (stack th) (scheds σ))
              (set_threads (alter (with_stack NULL) t (delete (stack th) (threads σ)))
                 (set_live (live σ ∖ {[stack th]}) σ))).
Proof.
  intros Ht Hth Hstk Hl Hne. unfold lwt_thread_cleanup. rewrite decide_False by done.
  unfold mbind at 1. unfold M_bind at 1. rewrite (load_thread_eval _ _ _ _ Hth).
  cbv beta iota. rewrite decide_True by done.
  unfold mbind at 1. unfold M_bind at 1. rewrite free_eval by done. cbv beta iota.
  rewrite store_thread_eval; [done|]. cbn. rewrite lookup_delete_ne by done. by eexists.
Qed.

(** X11 — A successful [lwt_thread_init] leaves the task NEW, outside any
    queue and without a joiner, with the given function, argument and
    scheduler, with a freshly allocated stack of the requested size, or
    of 64 KiB when the requested size is 0, with a context set up on that
    stack, and with the scheduler's [next_thread_id] as its id, which the
    scheduler then increments under its mutex.  [lwt_thread_cleanup]
    afterwards frees exactly that stack.  With a NULL task, function or
    scheduler, [lwt_thread_init] returns -1 and changes nothing. *)
Theorem thread_init_success t f a s sz me σ sc stk :
  t ≠ NULL → f ≠ NULL → s ≠ NULL → t ∈ live σ →
  scheds σ !! s = Some sc → mutex sc = MxUnlocked → heap_wf σ →
  mallocs (env σ) !! 0 = Some stk → stk ≠ NULL → stk ∉ live σ →
  hd 0%Z (syscalls (env σ)) ≠ (-1)%Z →
  (∃ σ' σ'',
     lwt_thread_init t f a s sz me σ = Some (0%Z, σ') ∧
     threads σ' !! t =
       Some (Thread (Ucontext stk (if decide (sz = 0%Z) then 65536%Z else sz) NULL true)
                    stk (if decide (sz = 0%Z) then 65536%Z else sz)
                    LWT_STATE_NEW f a NULL NULL s (next_thread_id sc)) ∧
     (∀ p, p ≠ t → threads σ' !! p = threads σ !! p) ∧
     scheds σ' = <[s := with_next_thread_id (next_thread_id sc + 1) sc]> (scheds σ) ∧
     live σ' = {[stk]} ∪ live σ ∧
     emitted σ σ' = [EvLock s; EvUnlock s] ∧
     lwt_thread_cleanup t me σ' = Some ((), σ'') ∧
     live σ'' = live σ ∧
     stack <$> threads σ'' !! t = Some NULL) ∧
  (∀ t' f' s', t' = NULL ∨ f' = NULL ∨ s' = NULL →
     lwt_thread_init t' f' a s' sz me σ = Some ((-1)%Z, σ)).
Proof.
  intros Ht Hf Hs Hl Hsc Hmx Hwf Hm Hstk Hfresh Hgc. split.
  - destruct (lwt_thread_init_eval t f a s sz me σ sc Ht Hf Hs Hl Hsc Hmx Hwf)
      as [[Hbad _]|(r & σ' & Hrun & _ & _ & _ & Hcase)].
    { exfalso. apply Hbad. intros p Hp. congruence. }
    destruct Hcase as [(-> & _ & _ & _ & _ & Hno)
                      |(-> & stk' & Hm' & _ & _ & _ & Hlv & Hth & Hss & Htr)].
    { exfalso. apply Hno. split; [by exists stk|done]. }
    assert (stk' = stk) as -> by congruence.
    assert (Hne : stk ≠ t) by (intros ->; done).
    assert (Htt : threads σ' !! t =
                  Some (thread_fresh f a s stk (init_stack_size sz) (next_thread_id sc)))
      by (rewrite Hth; apply lookup_insert_eq).
    eexists σ', _. split; [exact Hrun|]. split; [exact Htt|].
    split; [intros p Hp; rewrite Hth; by apply lookup_insert_ne|].
    split; [exact Hss|]. split; [exact Hlv|].
    split; [unfold emitted; by rewrite Htr, drop_app_length|].
    split.
    { apply (lwt_thread_cleanup_eval t me σ' _ Ht Htt); cbn; [done| |done].
      rewrite Hlv. set_solver. }
    cbn. split; [rewrite Hlv; set_solver|].
    rewrite lookup_alter_eq, lookup_delete_ne, Htt by done. done.
  - intros t' f' s' Hbad. unfold lwt_thread_init. by rewrite decide_True.
Qed.

Lemma thread_init_success_witness :
  ∃ σ' σ'',
    lwt_thread_init 1 7 0 100 4096 0 (set_env (Oracle [4] [] (0, 0)%Z) demo_world)
      = Some (0%Z, σ') ∧
    stack_size <$> threads σ' !! 1 = Some 4096%Z ∧
    id <$> threads σ' !! 1 = Some 1%Z ∧
    lwt_thread_cleanup 1 0 σ' = Some ((), σ'') ∧
    live σ'' = live demo_world.
Proof.
  destruct (thread_init_success 1 7 0 100 4096 0
              (set_env (Oracle [4] [] (0, 0)%Z) demo_world) demo_sched 4
              ltac:(done) ltac:(done) ltac:(done) ltac:(decide_by_compute)
              ltac:(by vm_compute) ltac:(done) (demo_world_wf _)
              ltac:(done) ltac:(done) ltac:(decide_by_compute) ltac:(done))
    as [(σ' & σ'' & H1 & H2 & _ & _ & _ & _ & H3 & H4 & _) _].
  exists σ', σ''. split; [exact H1|].
  split; [exact (f_equal (λ o, stack_size <$> o) H2)|].
  split; [exact (f_equal (λ o, id <$> o) H2)|]. split; [exact H3|exact H4].
Defined.

(** X12 — [lwt_thread_cleanup] frees the task's stack and clears the
    [stack] field, leaving the task block itself allocated; on a task
    whose [stack] is already NULL, and on NULL, it does nothing, so a
    second cleanup frees nothing twice. *)
Theorem thread_cleanup_spec t me σ th :
  t ≠ NULL → threads σ !! t = Some th →
  (stack th = NULL → lwt_thread_cleanup t me σ = Some ((), σ)) ∧
  (stack th ≠ NULL → stack th ∈ live σ → stack th ≠ t →
     ∃ σ', lwt_thread_cleanup t me σ = Some ((), σ') ∧
           live σ' = live σ ∖ {[stack th]} ∧
           threads σ' !! t = Some (with_stack NULL th) ∧
           (t ∈ live σ' ↔ t ∈ live σ) ∧
           lwt_thread_cleanup t me σ' = Some ((), σ')) ∧
  lwt_thread_cleanup NULL me σ = Some ((), σ).
Proof.
  intros Ht Hth.
  assert (Hnull : ∀ σ0 th0, threads σ0 !! t = Some th0 → stack th0 = NULL →
                            lwt_thread_cleanup t me σ0 = Some ((), σ0)).
  { intros σ0 th0 H0 Hs. unfold lwt_thread_cleanup. rewrite decide_False by done.
    unfold mbind at 1. unfold M_bind at 1. rewrite (load_thread_eval _ _ _ _ H0).
    cbv beta iota. by rewrite decide_False by (intros ?; done). }
  split; [|split].
  - by apply Hnull.
  - intros Hstk Hl Hne. eexists. split.
    { by apply (lwt_thread_cleanup_eval t me σ th). }
    assert (Hth' : alter (with_stack NULL) t (delete (stack th) (threads σ)) !! t
                   = Some (with_stack NULL th))
      by (by rewrite lookup_alter_eq, lookup_delete_ne, Hth).
    cbn. split; [done|]. split; [exact Hth'|]. split; [set_solver|].
    eapply Hnull; [exact Hth'|done].
  - unfold lwt_thread_cleanup. by rewrite decide_True.
Qed.

Lemma thread_cleanup_spec_witness :
  ∃ σ', lwt_thread_cleanup 1 0 (sys_world demo_running) = Some ((), σ') ∧
        live σ' = live (sys_world demo_running) ∖ {[2]} ∧
        lwt_thread_cleanup 1 0 σ' = Some ((), σ').
Proof.
  edestruct (thread_cleanup_spec 1 0 (sys_world demo_running)) as (_ & Hfree & _).
  - done.
  - vm_compute. reflexivity.
  - destruct Hfree as (σ' & H1 & H2 & _ & _ & H3);
      [done|decide_by_compute|done|].
    exists σ'. split; [exact H1|]. split; [exact H2|exact H3].
Defined.

(** * Spawning a task *)

Lemma lwt_create_eval S σ pc l sc me f a t stk rest :
  Inv S σ pc l sc → f ≠ NULL →
  mallocs (env σ) = t :: stk :: rest →
  t ≠ NULL → t ∉ live σ → stk ≠ NULL → stk ∉ live σ → stk ≠ t →
  hd 0%Z (syscalls (env σ)) ≠ (-1)%Z →
  ∃ σ',
    lwt_create S f a me σ = Some (t, σ') ∧
    threads σ' =
      push_threads
        (alter (with_state LWT_STATE_READY) t
           (<[t := thread_fresh f a S stk (init_stack_size 0) (next_thread_id sc)]>
              (threads σ)))
        (tail (ready_queue sc)) t ∧
    scheds σ' =
      <[S := sched_after (push_queue (ready_queue sc) t) (running sc)
               (with_next_thread_id (next_thread_id sc + 1) sc)]> (scheds σ) ∧
    live σ' = {[stk]} ∪ ({[t]} ∪ live σ) ∧
    tls_thread σ' = tls_thread σ ∧ tls_worker σ' = tls_worker σ ∧
    os_threads σ' = os_threads σ ∧
    emitted σ σ' =
      [EvLock S; EvUnlock S; EvState t LWT_STATE_READY; EvQLock S; EvPush S t;
       EvQUnlock S; EvLock S; EvSignal S; EvUnlock S].
Proof.
  intros HI Hfn Hm Htn Hfresh Hstk Hsfresh Hne Hgc.
  destruct (inv_S _ _ _ _ _ HI) as [HS HSl].
  pose proof (inv_wf _ _ _ _ _ HI) as [Hwt Hws].
  unfold lwt_create. rewrite decide_False by (intuition congruence).
  unfold mbind at 1. unfold M_bind at 1.
  rewrite (malloc_eval_cons _ _ _ _ Hm Htn Hfresh). cbv beta iota.
  rewrite decide_False by done.
  set (σ1 := set_live ({[t]} ∪ live σ)
               (set_env (Oracle (stk :: rest) (syscalls (env σ)) (clock (env σ))) σ)).
  assert (Hwf1 : heap_wf σ1).
  { split; intros p Hp; cbn; [apply Hwt in Hp|apply Hws in Hp]; set_solver. }
  assert (Hl1 : t ∈ live σ1) by (cbn; set_solver).
  assert (Hs1 : stk ∉ live σ1) by (cbn; set_solver).
  unfold mbind at 1. unfold M_bind at 1.
  destruct (lwt_thread_init_eval t f a S 0%Z me σ1 sc Htn Hfn HS Hl1
              (inv_sc _ _ _ _ _ HI) (inv_mutex _ _ _ _ _ HI) Hwf1)
    as [[Hbad _]|(ri & σ2 & Hinit & Htt2 & Htw2 & Hos2 & Hcase)].
  { exfalso. apply Hbad. intros p Hp. cbn in Hp. by injection Hp as <-. }
  rewrite Hinit. cbv beta iota.
  destruct Hcase as [(-> & _ & _ & _ & _ & Hno)
                    |(-> & stk' & Hm' & _ & _ & _ & Hlv2 & Hth2 & Hss2 & Htr2)].
  { exfalso. apply Hno. split; [by exists stk|done]. }
  cbn in Hm'. injection Hm' as <-.
  rewrite decide_False by (intuition congruence).
  unfold mbind at 1. unfold M_bind at 1.
  assert (Hsc2 : scheds σ2 !! S =
                 Some (with_next_thread_id (next_thread_id sc + 1) sc))
    by (rewrite Hss2; apply lookup_insert_eq).
  rewrite (lwt_scheduler_add_thread_eval S t me σ2 _ HS Htn
             ltac:(rewrite Hth2, lookup_insert_eq; by eexists) Hsc2
             (inv_mutex _ _ _ _ _ HI) (inv_qmutex _ _ _ _ _ HI) (inv_cond _ _ _ _ _ HI)).
  2:{ destruct (Inv_rep_facts _ _ _ _ _ HI) as [E|E]; [by left|right].
      cbn. rewrite Hth2. apply lookup_insert_is_Some.
      destruct (decide (t = tail (ready_queue sc))); [by left|right; split; [done|exact E]]. }
  cbv beta iota. rewrite decide_False by (intuition congruence).
  eexists. split; [reflexivity|]. unfold upd_world. cbn.
  split; [by rewrite Hth2|]. split; [by rewrite Hss2, insert_insert_eq|].
  split; [by rewrite Hlv2|]. split; [by rewrite Htt2|]. split; [by rewrite Htw2|].
  split; [by rewrite Hos2|].
  unfold emitted. cbn. rewrite Htr2. cbn. rewrite <- !app_assoc.
  by rewrite drop_app_length.
Qed.

Lemma lwt_create_outcome S σ pc l sc me f a r σ' :
  Inv S σ pc l sc → lwt_create S f a me σ = Some (r, σ') →
  (r = NULL ∧ same_data σ σ' ∧ trace σ' = trace σ) ∨
  (r ≠ NULL ∧ f ≠ NULL ∧ ∃ stk rest,
     mallocs (env σ) = r :: stk :: rest ∧ (r ∉ live σ) ∧
     stk ≠ NULL ∧ (stk ∉ live σ) ∧ stk ≠ r ∧ hd 0%Z (syscalls (env σ)) ≠ (-1)%Z).
Proof.
  intros HI. destruct (inv_S _ _ _ _ _ HI) as [HS HSl].
  pose proof (inv_wf _ _ _ _ _ HI) as [Hwt Hws].
  unfold lwt_create. destruct (decide (S = NULL ∨ f = NULL)) as [Hbad|Hgood].
  { intros [= <- <-]. left. by repeat split. }
  assert (Hfn : f ≠ NULL) by tauto.
  unfold mbind at 1. unfold M_bind at 1.
  destruct (mallocs (env σ)) as [|t rest] eqn:Hm.
  { rewrite (malloc_eval_nil _ _ Hm). cbv beta iota. rewrite decide_True by done.
    intros [= <- <-]. left. by repeat split. }
  destruct (decide (t = NULL)) as [->|Htn].
  { rewrite (malloc_eval_null _ _ _ Hm). cbv beta iota. rewrite decide_True by done.
    intros [= <- <-]. left. by repeat split. }
  destruct (decide (t ∈ live σ)) as [Hlive|Hfresh].
  { by rewrite (malloc_eval_fault _ _ _ _ Hm Htn Hlive). }
  rewrite (malloc_eval_cons _ _ _ _ Hm Htn Hfresh). cbv beta iota.
  rewrite decide_False by done.
  set (σ1 := set_live ({[t]} ∪ live σ)
               (set_env (Oracle rest (syscalls (env σ)) (clock (env σ))) σ)).
  assert (Hnone : threads σ !! t = None).
  { destruct (threads σ !! t) eqn:E; [|done]. exfalso. apply Hfresh, Hwt. by eexists. }
  assert (Hsnone : scheds σ !! t = None).
  { destruct (scheds σ !! t) eqn:E; [|done]. exfalso. apply Hfresh, Hws. by eexists. }
  assert (Hwf1 : heap_wf σ1).
  { split; intros p Hp; cbn; [apply Hwt in Hp|apply Hws in Hp]; set_solver. }
  assert (Hl1 : t ∈ live σ1) by (cbn; set_solver).
  unfold mbind at 1. unfold M_bind at 1.
  destruct (lwt_thread_init_eval t f a S 0%Z me σ1 sc Htn Hfn HS Hl1
              (inv_sc _ _ _ _ _ HI) (inv_mutex _ _ _ _ _ HI) Hwf1)
    as [[_ Hfault]|(ri & σ2 & Hinit & Htt2 & Htw2 & Hos2 & Hcase)].
  { by rewrite Hfault. }
  rewrite Hinit. cbv beta iota.
  destruct Hcase as [(-> & Hlv2 & Hss2 & Htr2 & Hth2 & _)
                    |(-> & stk & Hms & Hstk & Hsfresh & Hgc & Hlv2 & Hth2 & Hss2 & Htr2)].
  - rewrite decide_True by done.
    unfold mbind at 1. unfold M_bind at 1.
    rewrite free_eval by (first [done|rewrite Hlv2; exact Hl1]).
    intros [= <- <-]. left. split; [done|]. split; [|cbn; by rewrite Htr2].
    unfold same_data. cbn. rewrite Hth2, Hss2, Hlv2, Htt2, Htw2, Hos2. cbn.
    split; [by apply delete_insert_id|]. split; [by apply delete_id|].
    split; [set_solver|done].
  - rewrite decide_False by (intuition congruence).
    unfold mbind at 1. unfold M_bind at 1.
    assert (Hsc2 : scheds σ2 !! S =
                   Some (with_next_thread_id (next_thread_id sc + 1) sc))
      by (rewrite Hss2; apply lookup_insert_eq).
    rewrite (lwt_scheduler_add_thread_eval S t me σ2 _ HS Htn
               ltac:(rewrite Hth2, lookup_insert_eq; by eexists) Hsc2
               (inv_mutex _ _ _ _ _ HI) (inv_qmutex _ _ _ _ _ HI) (inv_cond _ _ _ _ _ HI)).
    2:{ destruct (Inv_rep_facts _ _ _ _ _ HI) as [E|E]; [by left|right].
        cbn. rewrite Hth2. apply lookup_insert_is_Some.
        destruct (decide (t = tail (ready_queue sc))); [by left|right; split; [done|exact E]]. }
    cbv beta iota. rewrite decide_False by (intuition congruence).
    intros [= <- _]. right. split; [done|]. split; [done|].
    cbn in Hms, Hsfresh, Hgc. destruct rest as [|stk' rest']; [done|].
    cbn in Hms. injection Hms as ->.
    exists stk, rest'. split; [done|]. split; [done|]. split; [done|].
    split; [set_solver|]. split; [set_solver|done].
Qed.

Lemma lwt_create_success S σ pc l sc me f a t stk rest :
  Inv S σ pc l sc → f ≠ NULL →
  mallocs (env σ) = t :: stk :: rest →
  t ≠ NULL → t ∉ live σ → stk ≠ NULL → stk ∉ live σ → stk ≠ t →
  hd 0%Z (syscalls (env σ)) ≠ (-1)%Z →
  ∃ σ',
    lwt_create S f a me σ = Some (t, σ') ∧
    next_thread_id <$> scheds σ' !! S = Some (next_thread_id sc + 1)%Z ∧
    threads σ' !! t =
      Some (Thread (Ucontext stk 65536 NULL true) stk 65536
                   LWT_STATE_READY f a NULL NULL S (next_thread_id sc)) ∧
    queue_tasks σ' S = l ++ [t] ∧
    live σ' = {[stk]} ∪ ({[t]} ∪ live σ) ∧
    (∀ p, p ≠ t → thread_state σ' p = thread_state σ p) ∧
    emitted σ σ' =
      [EvLock S; EvUnlock S; EvState t LWT_STATE_READY; EvQLock S; EvPush S t;
       EvQUnlock S; EvLock S; EvSignal S; EvUnlock S].
Proof.
  intros HI Hfn Hm Htn Hfresh Hstk Hsfresh Hne Hgc.
  destruct (lwt_create_eval S _ _ l sc me f a t stk rest HI Hfn Hm Htn Hfresh Hstk
              Hsfresh Hne Hgc)
    as (σ' & Hrun & Hth & Hss & Hlv & _ & _ & _ & Hem).
  pose proof (inv_wf _ _ _ _ _ HI) as [Hwt _].
  assert (Hnone : threads σ !! t = None).
  { destruct (threads σ !! t) eqn:E; [|done].
    exfalso. apply Hfresh, Hwt. by eexists. }
  assert (Htl : tail (ready_queue sc) ≠ t).
  { intros E. destruct (Inv_rep_facts _ _ _ _ _ HI) as [E'|[x E']]; congruence. }
  assert (Hin : t ∉ l).
  { intros Hin. destruct (chain_alloc _ _ _ _ (proj1 (inv_rep _ _ _ _ _ HI)) Hin).
    congruence. }
  exists σ'. split; [exact Hrun|].
  split; [by rewrite Hss, lookup_insert_eq|].
  split.
  { rewrite Hth, lookup_push_threads, lookup_alter_eq, lookup_insert_eq. cbn.
    unfold pushed_next. rewrite decide_False by (intros [_ ?]; congruence).
    by rewrite decide_True. }
  split.
  { apply queue_tasks_rep.
    eexists. split; [rewrite Hss; apply lookup_insert_eq|]. cbn. rewrite Hth.
    apply rep_push_ready; [|rewrite lookup_insert_eq; by eexists|done|done].
    apply rep_insert_fresh; [done|apply (inv_rep _ _ _ _ _ HI)]. }
  split; [exact Hlv|]. split; [|exact Hem].
  intros p Hp. unfold thread_state. rewrite Hth, lookup_push_state.
  by rewrite lookup_alter_ne, lookup_insert_ne.
Qed.

(** X13 — [lwt_create] on a reachable state, when both allocations and
    [getcontext] succeed: it returns the newly allocated task, which is
    READY, is the new tail of the ready queue, has no joiner, a stack of
    64 KiB in the second allocated block, the given function and argument,
    and the scheduler's [next_thread_id] as its id; [next_thread_id] is
    incremented, the two new blocks are the only change to the live
    blocks, and no other task changes state. *)
Theorem create_spec S s me f a orc t stk rest :
  reachable S s → f ≠ NULL →
  mallocs orc = t :: stk :: rest →
  t ≠ NULL → t ∉ live (sys_world s) → stk ≠ NULL → stk ∉ live (sys_world s) →
  stk ≠ t → hd 0%Z (syscalls orc) ≠ (-1)%Z →
  ∃ σ' n,
    lwt_create S f a me (set_env orc (sys_world s)) = Some (t, σ') ∧
    next_thread_id <$> scheds (sys_world s) !! S = Some n ∧
    next_thread_id <$> scheds σ' !! S = Some (n + 1)%Z ∧
    threads σ' !! t =
      Some (Thread (Ucontext stk 65536 NULL true) stk 65536
                   LWT_STATE_READY f a NULL NULL S n) ∧
    queue_tasks σ' S = queue_tasks (sys_world s) S ++ [t] ∧
    live σ' = {[stk]} ∪ ({[t]} ∪ live (sys_world s)) ∧
    (∀ p, p ≠ t → thread_state σ' p = thread_state (sys_world s) p) ∧
    emitted (set_env orc (sys_world s)) σ' =
      [EvLock S; EvUnlock S; EvState t LWT_STATE_READY; EvQLock S; EvPush S t;
       EvQUnlock S; EvLock S; EvSignal S; EvUnlock S].
Proof.
  intros Hreach Hfn Hm Htn Hfresh Hstk Hsfresh Hne Hgc.
  destruct (reachable_invariant _ _ Hreach) as (l & sc & HI).
  assert (Hr : queue_rep (sys_world s) S l).
  { exists sc. split; [apply (inv_sc _ _ _ _ _ HI)|apply (inv_rep _ _ _ _ _ HI)]. }
  pose proof (inv_sc _ _ _ _ _ HI) as Hsc.
  apply (Inv_env _ _ _ _ _ orc) in HI.
  destruct (lwt_create_success S _ _ l sc me f a t stk rest HI Hfn Hm Htn Hfresh Hstk
              Hsfresh Hne Hgc)
    as (σ' & Hrun & Hnid & Hth & Hq & Hlv & Hst & Hem).
  exists σ', (next_thread_id sc). split; [exact Hrun|].
  split; [by rewrite Hsc|]. split; [exact Hnid|]. split; [exact Hth|].
  split; [by rewrite (queue_tasks_rep _ _ _ Hr)|]. split; [exact Hlv|].
  split; [exact Hst|exact Hem].
Qed.

Lemma create_spec_witness :
  ∃ σ', lwt_create 100 7 0 0 (set_env (Oracle [5; 6] [] (0, 0)%Z) (sys_world demo_running))
          = Some (5, σ') ∧
        id <$> threads σ' !! 5 = Some 3%Z ∧
        thread_state σ' 5 = Some LWT_STATE_READY ∧
        queue_tasks σ' 100 = queue_tasks (sys_world demo_running) 100 ++ [5].
Proof.
  destruct (create_spec 100 demo_running 0 7 0 (Oracle [5; 6] [] (0, 0)%Z) 5 6 []
              demo_running_reachable ltac:(done) eq_refl ltac:(done)
              ltac:(decide_by_compute) ltac:(done) ltac:(decide_by_compute)
              ltac:(done) ltac:(done))
    as (σ' & n & H1 & Hn & _ & H2 & H3 & _).
  assert (n = 3%Z) as -> by (vm_compute in Hn; congruence).
  exists σ'. split; [exact H1|].
  split; [exact (f_equal (λ o, id <$> o) H2)|].
  split; [exact (f_equal (λ o, state <$> o) H2)|exact H3].
Defined.

(** X14 — When [lwt_create] returns NULL (NULL scheduler or function, a
    failed allocation of the task or of its stack, or a failed
    [getcontext]) it has released whatever it had allocated: tasks,
    schedulers, the ready queue, the live blocks and the trace are as
    before the call.  When it returns a task, the task is a newly
    allocated block, READY and at the tail of the ready queue. *)
Theorem create_failure_no_leak S s me f a orc r σ' :
  reachable S s →
  lwt_create S f a me (set_env orc (sys_world s)) = Some (r, σ') →
  (r = NULL → same_data (sys_world s) σ' ∧ trace σ' = trace (sys_world s) ∧
              queue_tasks σ' S = queue_tasks (sys_world s) S) ∧
  (r ≠ NULL → f ≠ NULL ∧ mallocs orc !! 0 = Some r ∧ (r ∉ live (sys_world s)) ∧
              r ∈ live σ' ∧
              thread_state σ' r = Some LWT_STATE_READY ∧
              queue_tasks σ' S = queue_tasks (sys_world s) S ++ [r]) ∧
  lwt_create NULL f a me (sys_world s) = Some (NULL, sys_world s) ∧
  lwt_create S NULL a me (sys_world s) = Some (NULL, sys_world s).
Proof.
  intros Hreach Hrun.
  destruct (reachable_invariant _ _ Hreach) as (l & sc & HI0).
  assert (Hr0 : queue_rep (sys_world s) S l).
  { exists sc. split; [apply (inv_sc _ _ _ _ _ HI0)|apply (inv_rep _ _ _ _ _ HI0)]. }
  pose proof (Inv_env _ _ _ _ _ orc HI0) as HI.
  split; [|split; [|split]].
  - intros ->.
    destruct (lwt_create_outcome _ _ _ _ _ _ _ _ _ _ HI Hrun)
      as [(_ & (Hth & Hss & Hlv & Htt & Htw & Hos) & Htr)|(Hr & _)]; [|done].
    split; [by repeat split|]. split; [done|].
    unfold queue_tasks. by rewrite Hth, Hss.
  - intros Hr.
    destruct (lwt_create_outcome _ _ _ _ _ _ _ _ _ _ HI Hrun)
      as [(-> & _)|(_ & Hfn & stk & rest & Hm & Hfresh & Hstk & Hsfresh & Hne & Hgc)];
      [done|].
    destruct (lwt_create_success S _ _ l sc me f a r stk rest HI Hfn Hm Hr Hfresh Hstk
                Hsfresh Hne Hgc)
      as (σ2 & Hrun2 & _ & Hth & Hq & Hlv & _).
    rewrite Hrun in Hrun2. injection Hrun2 as <-.
    split; [done|]. split; [cbn in Hm; by rewrite Hm|]. split; [done|].
    split; [rewrite Hlv; set_solver|].
    split; [unfold thread_state; by rewrite Hth|].
    by rewrite (queue_tasks_rep _ _ _ Hr0).
  - unfold lwt_create. by rewrite decide_True by (by left).
  - unfold lwt_create. by rewrite decide_True by (by right).
Qed.

Lemma create_failure_no_leak_witness :
  ∃ σ', lwt_create 100 7 0 0 (set_env (Oracle [5; 6] [(-1)%Z] (0, 0)%Z) (sys_world demo_running))
          = Some (NULL, σ') ∧
        same_data (sys_world demo_running) σ'.
Proof.
  destruct (lwt_create 100 7 0 0
              (set_env (Oracle [5; 6] [(-1)%Z] (0, 0)%Z) (sys_world demo_running)))
    as [[r σ']|] eqn:Hrun; [|by vm_compute in Hrun].
  assert (r = NULL) as ->.
  { pose proof Hrun as E. vm_compute in E. by injection E as <- _. }
  exists σ'. split; [reflexivity|].
  exact (proj1 (proj1 (create_failure_no_leak 100 demo_running 0 7 0 _ NULL σ'
                         demo_running_reachable Hrun) eq_refl)).
Defined.

(** * Calls that return at once *)

(** X15 — [lwt_join] returns at once, changing nothing and without
    waiting, when its target is NULL and when it is called from an OS
    thread that is not running a task, whatever the state of the target.
    [lwt_yield], [lwt_join] and [lwt_sleep] called from a task on an OS
    thread whose worker id is negative or not below the scheduler's
    [num_workers] also return at once and change nothing: the task keeps
    running, and [lwt_sleep] does not sleep. *)
Theorem early_returns me σ :
  lwt_join NULL me σ = Some ((), σ) ∧
  (outside_task σ me → ∀ target, lwt_join target me σ = Some ((), σ)) ∧
  (∀ t th sc,
     tls_thread σ !! me = Some t → t ≠ NULL → threads σ !! t = Some th →
     scheds σ !! scheduler th = Some sc →
     (default (-1) (tls_worker σ !! me) < 0 ∨
      default (-1) (tls_worker σ !! me) >= num_workers sc)%Z →
     lwt_yield me σ = Some ((), σ) ∧
     (∀ target, lwt_join target me σ = Some ((), σ)) ∧
     (∀ ms, lwt_sleep ms me σ = Some ((), σ))).
Proof.
  split; [|split].
  - unfold lwt_join. by rewrite decide_True.
  - intros Hout target. by apply lwt_join_eval_outside.
  - intros t th sc Ht Hn Hth Hsc Hw.
    destruct σ as [h ss lv tt tw os e tr]. cbn in *.
    split; [|split].
    + unfold lwt_yield. mrun5. reflexivity.
    + intros target. unfold lwt_join. destruct (decide (target = NULL)); [done|].
      mrun5. reflexivity.
    + intros ms. unfold lwt_sleep, lwt_sleep_wait. mrun5. reflexivity.
Qed.

Lemma early_returns_witness :
  lwt_join 3 0 (sys_world demo_running) = Some ((), sys_world demo_running) ∧
  lwt_yield 1 demo_no_worker = Some ((), demo_no_worker) ∧
  lwt_sleep 1000 1 demo_no_worker = Some ((), demo_no_worker).
Proof.
  split.
  - apply (proj1 (proj2 (early_returns 0 (sys_world demo_running)))). by vm_compute.
  - edestruct (proj2 (proj2 (early_returns 1 demo_no_worker)) 1) as (H1 & _ & H2).
    + vm_compute. reflexivity.
    + done.
    + vm_compute. reflexivity.
    + vm_compute. reflexivity.
    + left. vm_compute. reflexivity.
    + split; [exact H1|exact (H2 1000%Z)].
Defined.

(** * A second join on the same target *)

(** X16 — A task holds a single joiner.  When a running task [t] joins a
    target that is not FINISHED and already has a joiner [j], the target's
    [waiting] becomes [t]; [j] stays BLOCKED, is in no ready queue and is
    no longer the joiner of any task. *)
Theorem join_replaces_joiner S s o id t target j :
  reachable S s → sys_pc s !! o = Some (PcTask id) →
  tls_thread (sys_world s) !! o = Some t →
  target ≠ NULL → thread_waiting (sys_world s) target = Some j → j ≠ NULL →
  thread_state (sys_world s) target ≠ Some LWT_STATE_FINISHED →
  ∃ σ',
    lwt_join target o (sys_world s) = Some ((), σ') ∧
    thread_waiting σ' target = Some t ∧
    j ≠ t ∧
    thread_state σ' j = Some LWT_STATE_BLOCKED ∧
    (∀ a, thread_waiting σ' a ≠ Some j) ∧
    (j ∉ queue_tasks σ' S).
Proof.
  intros Hreach Hpc Ht Htn Hwt Hjn Hnf.
  destruct (reachable_invariant _ _ Hreach) as (l & sc & HI).
  destruct (Inv_task _ _ _ _ _ _ _ HI Hpc)
    as (t' & th & Ht' & Hn & Hth & Hst & Hown & Hnl & Hw & Hwr & Hlen & _).
  rewrite Ht in Ht'. injection Ht' as <-.
  pose proof (inv_state _ _ _ _ _ HI) as HS.
  destruct (threads (sys_world s) !! target) as [tth|] eqn:Htth;
    [|by unfold thread_waiting in Hwt; rewrite Htth in Hwt].
  assert (Hwj : waiting tth = j)
    by (unfold thread_waiting in Hwt; rewrite Htth in Hwt; by injection Hwt).
  assert (Hsf : state tth ≠ LWT_STATE_FINISHED).
  { intros E. apply Hnf. unfold thread_state. by rewrite Htth, <- E. }
  assert (Hjb : thread_state (sys_world s) j = Some LWT_STATE_BLOCKED)
    by (by eapply (s_link _ _ _ _ _ _ HS)).
  assert (Hjt : j ≠ t).
  { intros ->. unfold thread_state in Hjb. rewrite Hth in Hjb. cbn in Hjb. congruence. }
  eexists. split.
  { apply (lwt_join_eval o _ target t S id th sc tth); try done; apply HI. }
  unfold thread_waiting, thread_state, upd_world. cbn.
  split.
  { rewrite lookup_alter_eq.
    destruct (decide (target = t)) as [->|Hne].
    - by rewrite lookup_alter_eq, Hth.
    - by rewrite lookup_alter_ne, Htth. }
  split; [done|]. split; [|split].
  - rewrite lookup_alter_proj by done. by rewrite lookup_alter_ne.
  - intros a Ha. destruct (decide (a = target)) as [->|Hne].
    + rewrite lookup_alter_eq in Ha.
      destruct (alter (with_state LWT_STATE_BLOCKED) t (threads (sys_world s)) !! target);
        cbn in Ha; congruence.
    + rewrite lookup_alter_ne in Ha by done.
      rewrite (lookup_alter_proj waiting) in Ha by done.
      apply Hne. by eapply (s_inj _ _ _ _ _ _ HS).
  - assert (Hr : queue_rep (sys_world s) S l).
    { exists sc. split; [apply (inv_sc _ _ _ _ _ HI)|apply (inv_rep _ _ _ _ _ HI)]. }
    erewrite queue_tasks_rep.
    2:{ eexists. split; [cbn; apply lookup_insert_eq|]. cbn.
        apply rep_alter; [done|]. apply rep_alter; [done|]. apply (inv_rep _ _ _ _ _ HI). }
    intros Hin. apply (s_ready _ _ _ _ _ _ HS) in Hin. congruence.
Qed.

Lemma demo_second_join_reachable : reachable 100 demo_second_join.
Proof.
  exists 1%Z, 0, (Oracle [100] [] (0, 0)%Z), demo_created, schedule_second_join.
  split; [by vm_compute|]. split; [done|by vm_compute].
Qed.

Lemma join_replaces_joiner_witness :
  ∃ σ', lwt_join 1 1 (sys_world demo_second_join) = Some ((), σ') ∧
        thread_waiting (sys_world demo_second_join) 1 = Some 3 ∧
        thread_waiting σ' 1 = Some 5 ∧
        thread_state σ' 3 = Some LWT_STATE_BLOCKED ∧
        (∀ a, thread_waiting σ' a ≠ Some 3).
Proof.
  destruct (join_replaces_joiner 100 demo_second_join 1 0%Z 5 1 3
              demo_second_join_reachable ltac:(by vm_compute) ltac:(by vm_compute)
              ltac:(done) ltac:(by vm_compute) ltac:(done) ltac:(by vm_compute))
    as (σ' & H1 & H2 & _ & H3 & H4 & _).
  exists σ'. split; [exact H1|]. split; [by vm_compute|].
  split; [exact H2|]. split; [exact H3|exact H4].
Defined.

(** * What holds between any two calls *)

(** X17 — In every reachable state, an OS thread that is executing a task
    has that task as the result of [lwt_current]: a task of the scheduler
    that is RUNNING and is not linked in the ready queue, while
    [lwt_scheduler_get_worker_id] gives the index of a worker of the
    scheduler; and on an OS thread that is not a worker [lwt_current] is
    NULL. *)
Theorem running_tasks_invariant S s :
  reachable S s →
  (∀ o id, sys_pc s !! o = Some (PcTask id) →
     ∃ t sc,
       lwt_current o (sys_world s) = Some (t, sys_world s) ∧ t ≠ NULL ∧
       thread_state (sys_world s) t = Some LWT_STATE_RUNNING ∧
       (t ∉ queue_tasks (sys_world s) S) ∧
       scheduler <$> threads (sys_world s) !! t = Some S ∧
       lwt_scheduler_get_worker_id o (sys_world s) = Some (id, sys_world s) ∧
       scheds (sys_world s) !! S = Some sc ∧ (0 ≤ id < num_workers sc)%Z) ∧
  (∀ o, sys_pc s !! o = None → lwt_current o (sys_world s) = Some (NULL, sys_world s)).
Proof.
  intros Hreach. destruct (reachable_invariant _ _ Hreach) as (l & sc & HI).
  assert (Hr : queue_rep (sys_world s) S l).
  { exists sc. split; [apply (inv_sc _ _ _ _ _ HI)|apply (inv_rep _ _ _ _ _ HI)]. }
  split.
  - intros o id Hpc.
    destruct (Inv_task _ _ _ _ _ _ _ HI Hpc)
      as (t & th & Ht & Hn & Hth & Hst & Hown & Hnl & Hw & Hwr & _).
    exists t, sc. split.
    { unfold lwt_current, lwt_thread_self. munfold. by rewrite Ht. }
    split; [done|]. split; [unfold thread_state; by rewrite Hth, <- Hst|].
    split; [by rewrite (queue_tasks_rep _ _ _ Hr)|].
    split; [by rewrite Hth, <- Hown|].
    split; [unfold lwt_scheduler_get_worker_id; munfold; by rewrite Hw|].
    split; [apply (inv_sc _ _ _ _ _ HI)|done].
  - intros o Hpc. unfold lwt_current, lwt_thread_self. munfold.
    by rewrite (inv_outside _ _ _ _ _ HI o Hpc).
Qed.

Lemma running_tasks_invariant_witness :
  reachable 100 demo_running ∧
  lwt_current 1 (sys_world demo_running) = Some (1, sys_world demo_running) ∧
  lwt_current 0 (sys_world demo_running) = Some (NULL, sys_world demo_running).
Proof.
  split; [exact demo_running_reachable|].
  destruct (running_tasks_invariant 100 demo_running demo_running_reachable)
    as (Hrun & Hout).
  split.
  - destruct (Hrun 1 0%Z ltac:(by vm_compute)) as (t & sc & H1 & _).
    assert (t = 1) as ->; [|exact H1].
    vm_compute in H1. by injection H1 as <-.
  - exact (Hout 0 ltac:(by vm_compute)).
Defined.

(** X18 — In every reachable state, that is after any sequence of calls of
    the runtime, neither the scheduler mutex nor the queue mutex is held
    and the condition variable is initialised: every operation has
    released the locks it took. *)
Theorem locks_released S s :
  reachable S s →
  ∃ sc, scheds (sys_world s) !! S = Some sc ∧
        mutex sc = MxUnlocked ∧ qmutex (ready_queue sc) = MxUnlocked ∧
        cond sc = CvReady.
Proof.
  intros Hreach. destruct (reachable_invariant _ _ Hreach) as (l & sc & HI).
  exists sc. split; [apply HI|]. split; [apply HI|]. split; apply HI.
Qed.

Lemma locks_released_witness :
  reachable 100 demo_joined ∧
  ∃ sc, scheds (sys_world demo_joined) !! 100 = Some sc ∧ mutex sc = MxUnlocked.
Proof.
  split; [exact demo_joined_reachable|].
  destruct (locks_released 100 demo_joined demo_joined_reachable) as (sc & H1 & H2 & _).
  exists sc. split; [exact H1|exact H2].
Defined.

(** X19 — In every reachable state the joiner links are consistent: a task
    recorded as the joiner of another is BLOCKED, is not in the ready
    queue, is not being executed by any worker, and is the joiner of that
    one task only; and every task is a live block that belongs to the
    scheduler. *)
Theorem joiner_links_invariant S s :
  reachable S s →
  (∀ a j, thread_waiting (sys_world s) a = Some j → j ≠ NULL →
     thread_state (sys_world s) j = Some LWT_STATE_BLOCKED ∧
     (j ∉ queue_tasks (sys_world s) S) ∧
     (∀ o id, sys_pc s !! o = Some (PcTask id) → tls_thread (sys_world s) !! o ≠ Some j) ∧
     (∀ a', thread_waiting (sys_world s) a' = Some j → a' = a)) ∧
  (∀ t th, threads (sys_world s) !! t = Some th →
     t ≠ NULL ∧ t ∈ live (sys_world s) ∧ scheduler th = S).
Proof.
  intros Hreach. destruct (reachable_invariant _ _ Hreach) as (l & sc & HI).
  assert (Hr : queue_rep (sys_world s) S l).
  { exists sc. split; [apply (inv_sc _ _ _ _ _ HI)|apply (inv_rep _ _ _ _ _ HI)]. }
  pose proof (inv_state _ _ _ _ _ HI) as HS.
  split.
  - intros a j Ha Hj. rewrite (queue_tasks_rep _ _ _ Hr).
    pose proof (s_link _ _ _ _ _ _ HS _ _ Ha Hj) as Hb.
    split; [done|]. split; [|split].
    + intros Hin. apply (s_ready _ _ _ _ _ _ HS) in Hin. congruence.
    + intros o id Hpc Ho. destruct (s_task _ _ _ _ _ _ HS _ _ Hpc) as (t & Ht & Hst).
      cbn in Ht. congruence.
    + intros a' Ha'. by eapply (s_inj _ _ _ _ _ _ HS).
  - intros t th Hth. split; [|split].
    + intros ->. pose proof (s_null _ _ _ _ _ _ HS) as E. unfold thread_state in E.
      by rewrite Hth in E.
    + apply (proj1 (inv_wf _ _ _ _ _ HI)). by eexists.
    + apply (inv_owner _ _ _ _ _ HI t). by rewrite Hth.
Qed.

Lemma joiner_links_invariant_witness :
  reachable 100 demo_joined ∧
  thread_waiting (sys_world demo_joined) 1 = Some 3 ∧
  thread_state (sys_world demo_joined) 3 = Some LWT_STATE_BLOCKED.
Proof.
  split; [exact demo_joined_reachable|]. split; [by vm_compute|].
  exact (proj1 (proj1 (joiner_links_invariant 100 demo_joined demo_joined_reachable)
                  1 3 ltac:(by vm_compute) ltac:(done))).
Defined.

(** * What the scheduling operations leave alone *)

Lemma quiet_refl σ : quiet σ σ.
Proof. by repeat split. Qed.

Lemma quiet_trans σ1 σ2 σ3 : quiet σ1 σ2 → quiet σ2 σ3 → quiet σ1 σ3.
Proof.
  intros (H1 & H2 & H3) (K1 & K2 & K3). split; [congruence|].
  split; intros x; [rewrite K2|rewrite K3]; done.
Qed.

Lemma quiet_set_trace σ tr : quiet σ (set_trace tr σ).
Proof. by repeat split. Qed.

Lemma quiet_set_tls_thread σ m : quiet σ (set_tls_thread m σ).
Proof. by repeat split. Qed.

Lemma quiet_set_tls_worker σ m : quiet σ (set_tls_worker m σ).
Proof. by repeat split. Qed.


Lemma quiet_set_os_threads σ n : quiet σ (set_os_threads n σ).
Proof. by repeat split. Qed.

Lemma quiet_store_thread σ t th (f : lwt_thread → lwt_thread) :
  threads σ !! t = Some th → task_const (f th) = task_const th →
  quiet σ (set_threads (<[t := f th]> (threads σ)) σ).
Proof.
  intros Hth Hf. split; [done|]. split; [|done]. intros p. cbn.
  destruct (decide (p = t)) as [->|Hne].
  - by rewrite lookup_insert_eq, Hth; cbn; rewrite Hf.
  - by rewrite lookup_insert_ne.
Qed.

Lemma quiet_store_sched σ s sc (f : lwt_scheduler → lwt_scheduler) :
  scheds σ !! s = Some sc → sched_const (f sc) = sched_const sc →
  quiet σ (set_scheds (<[s := f sc]> (scheds σ)) σ).
Proof.
  intros Hsc Hf. split; [done|]. split; [done|]. intros p. cbn.
  destruct (decide (p = s)) as [->|Hne].
  - by rewrite lookup_insert_eq, Hsc; cbn; rewrite Hf.
  - by rewrite lookup_insert_ne.
Qed.

Lemma preserves_ret {A} (a : A) : preserves quiet (mret a).
Proof. intros me σ a' σ' [= <- <-]. apply quiet_refl. Qed.

Lemma preserves_fault {A} : preserves quiet (@fault A).
Proof. by intros me σ a' σ'. Qed.

Lemma preserves_bind {A B} (m : M A) (k : A → M B) :
  preserves quiet m → (∀ a, preserves quiet (k a)) → preserves quiet (m ≫= k).
Proof.
  intros Hm Hk me σ b σ'. unfold mbind, M_bind.
  destruct (m me σ) as [[a σ1]|] eqn:E; [|done]. intros Hrun.
  eapply quiet_trans; [by eapply Hm|by eapply Hk].
Qed.

Lemma preserves_get : preserves quiet get.
Proof. intros me σ a σ' [= <- <-]. apply quiet_refl. Qed.

Lemma preserves_self_os : preserves quiet self_os.
Proof. intros me σ a σ' [= <- <-]. apply quiet_refl. Qed.

Lemma preserves_lift {A} (o : option A) : preserves quiet (lift o).
Proof.
  intros me σ a σ'. unfold lift. destruct o; cbn; [|done].
  intros [= <- <-]. apply quiet_refl.
Qed.

Lemma preserves_emit e : preserves quiet (emit e).
Proof. intros me σ a σ' [= <- <-]. apply quiet_set_trace. Qed.

Lemma preserves_load_thread t : preserves quiet (load_thread t).
Proof.
  intros me σ a σ'. unfold load_thread, get, lift, mbind, M_bind.
  destruct (threads σ !! t); cbn; [|done]. intros [= <- <-]. apply quiet_refl.
Qed.

Lemma preserves_load_sched s : preserves quiet (load_sched s).
Proof.
  intros me σ a σ'. unfold load_sched, get, lift, mbind, M_bind.
  destruct (scheds σ !! s); cbn; [|done]. intros [= <- <-]. apply quiet_refl.
Qed.

Lemma preserves_store_thread t (f : lwt_thread → lwt_thread) :
  (∀ th, task_const (f th) = task_const th) → preserves quiet (store_thread t f).
Proof.
  intros Hf me σ a σ'. unfold store_thread, load_thread, get, lift, modify, mbind, M_bind.
  destruct (threads σ !! t) as [th|] eqn:Hth; cbn; [|done].
  intros [= <- <-]. by apply quiet_store_thread.
Qed.

Lemma preserves_store_sched s (f : lwt_scheduler → lwt_scheduler) :
  (∀ sc, sched_const (f sc) = sched_const sc) → preserves quiet (store_sched s f).
Proof.
  intros Hf me σ a σ'. unfold store_sched, load_sched, get, lift, modify, mbind, M_bind.
  destruct (scheds σ !! s) as [sc|] eqn:Hsc; cbn; [|done].
  intros [= <- <-]. by apply quiet_store_sched.
Qed.

Lemma preserves_load_queue q : preserves quiet (load_queue q).
Proof.
  unfold load_queue. apply preserves_bind; [apply preserves_load_sched|].
  intros sc. apply preserves_ret.
Qed.

Lemma preserves_store_queue q f : preserves quiet (store_queue q f).
Proof. unfold store_queue. by apply preserves_store_sched. Qed.

Create HintDb quiet.

#[local] Hint Resolve preserves_ret preserves_fault preserves_get preserves_self_os
  preserves_lift preserves_emit preserves_load_thread preserves_load_sched
  preserves_load_queue preserves_store_queue : quiet.

Ltac quiet_step :=
  match goal with
  | |- preserves quiet (_ ≫= _) => apply preserves_bind; [|intros ?]
  | |- preserves quiet (if decide ?P then _ else _) => destruct (decide P)
  | |- preserves quiet (match ?x with MxNone => _ | MxUnlocked => _ | MxLocked => _ end) =>
      destruct x
  | |- preserves quiet (match ?x with CvNone => _ | CvReady => _ end) => destruct x
  | |- preserves quiet (store_thread _ _) => apply preserves_store_thread; by intros []
  | |- preserves quiet (store_sched _ _) => apply preserves_store_sched; by intros []
  | |- preserves quiet _ => solve [eauto with quiet]
  end.

Ltac quiet_solve := cbv zeta; repeat quiet_step.

Lemma preserves_set_state t st : preserves quiet (set_state t st).
Proof. unfold set_state. quiet_solve. Qed.

Lemma preserves_mutex_lock s : preserves quiet (pthread_mutex_lock s).
Proof. unfold pthread_mutex_lock. quiet_solve. Qed.

Lemma preserves_mutex_unlock s : preserves quiet (pthread_mutex_unlock s).
Proof. unfold pthread_mutex_unlock. quiet_solve. Qed.

Lemma preserves_queue_lock q : preserves quiet (queue_mutex_lock q).
Proof. unfold queue_mutex_lock. quiet_solve. Qed.

Lemma preserves_queue_unlock q : preserves quiet (queue_mutex_unlock q).
Proof. unfold queue_mutex_unlock. quiet_solve. Qed.

Lemma preserves_cond_signal s : preserves quiet (pthread_cond_signal s).
Proof. unfold pthread_cond_signal. quiet_solve. Qed.

Lemma preserves_cond_broadcast s : preserves quiet (pthread_cond_broadcast s).
Proof. unfold pthread_cond_broadcast. quiet_solve. Qed.

Lemma preserves_set_running s w t : preserves quiet (set_running s w t).
Proof. unfold set_running. quiet_solve. Qed.

Lemma preserves_swapcontext a b : preserves quiet (swapcontext a b).
Proof. unfold swapcontext. quiet_solve. Qed.

Lemma preserves_nanosleep a b : preserves quiet (nanosleep a b).
Proof. unfold nanosleep. quiet_solve. Qed.

Lemma preserves_clock_gettime : preserves quiet clock_gettime.
Proof. unfold clock_gettime. quiet_solve. Qed.

Lemma preserves_thread_self : preserves quiet lwt_thread_self.
Proof. unfold lwt_thread_self. quiet_solve. Qed.

Lemma preserves_get_worker_id : preserves quiet lwt_scheduler_get_worker_id.
Proof. unfold lwt_scheduler_get_worker_id. quiet_solve. Qed.

Lemma preserves_set_current t : preserves quiet (lwt_thread_set_current t).
Proof. intros me σ a σ' [= <- <-]. apply quiet_set_tls_thread. Qed.

Lemma preserves_set_worker_id i : preserves quiet (lwt_scheduler_set_worker_id i).
Proof. intros me σ a σ' [= <- <-]. apply quiet_set_tls_worker. Qed.

#[local] Hint Resolve preserves_set_state preserves_mutex_lock preserves_mutex_unlock
  preserves_queue_lock preserves_queue_unlock preserves_cond_signal
  preserves_cond_broadcast preserves_set_running preserves_swapcontext
  preserves_nanosleep preserves_clock_gettime preserves_thread_self
  preserves_get_worker_id preserves_set_current preserves_set_worker_id : quiet.

Lemma preserves_push_locked q t : preserves quiet (lwt_queue_push_locked q t).
Proof. unfold lwt_queue_push_locked. quiet_solve. Qed.

Lemma preserves_pop_locked q : preserves quiet (lwt_queue_pop_locked q).
Proof. unfold lwt_queue_pop_locked. quiet_solve. Qed.

#[local] Hint Resolve preserves_push_locked preserves_pop_locked : quiet.

Lemma preserves_queue_push q t : preserves quiet (lwt_queue_push q t).
Proof. unfold lwt_queue_push. quiet_solve. Qed.

Lemma preserves_yield : preserves quiet lwt_yield.
Proof. unfold lwt_yield. quiet_solve. Qed.

#[local] Hint Resolve preserves_queue_push preserves_yield : quiet.

Lemma preserves_join target : preserves quiet (lwt_join target).
Proof. unfold lwt_join. quiet_solve. Qed.

Lemma preserves_sleep_wait ms : preserves quiet (lwt_sleep_wait ms).
Proof. unfold lwt_sleep_wait. quiet_solve. Qed.

Lemma preserves_sleep_wake t s w : preserves quiet (lwt_sleep_wake t s w).
Proof. unfold lwt_sleep_wake. quiet_solve. Qed.

Lemma preserves_sleep ms : preserves quiet (lwt_sleep ms).
Proof.
  unfold lwt_sleep. apply preserves_bind; [apply preserves_sleep_wait|].
  intros [[[t s] w]|]; [apply preserves_sleep_wake|apply preserves_ret].
Qed.

Lemma preserves_thread_finish t : preserves quiet (lwt_thread_finish t).
Proof. unfold lwt_thread_finish. quiet_solve. Qed.

Lemma preserves_worker_iteration s i : preserves quiet (lwt_worker_iteration s i).
Proof. unfold lwt_worker_iteration. quiet_solve. Qed.

Lemma preserves_add_thread s t : preserves quiet (lwt_scheduler_add_thread s t).
Proof. unfold lwt_scheduler_add_thread. quiet_solve. Qed.

Lemma preserves_pthread_create s i : preserves quiet (pthread_create s i).
Proof.
  intros me σ a σ' Hrun. destruct (scheds σ !! s) as [sc|] eqn:Hsc.
  - rewrite (pthread_create_eval s i me σ sc Hsc) in Hrun. injection Hrun as _ <-.
    split; [done|]. split; [done|]. intros p. cbn.
    destruct (decide (p = s)) as [->|Hne].
    + by rewrite lookup_insert_eq, Hsc.
    + by rewrite lookup_insert_ne.
  - unfold pthread_create, store_sched, load_sched, get, put, lift, mbind, M_bind in Hrun.
    cbn in Hrun. by rewrite Hsc in Hrun.
Qed.

Lemma preserves_start_workers s k : ∀ i, preserves quiet (start_workers k i s).
Proof.
  induction k as [|k IH]; intros i; cbn [start_workers]; [apply preserves_ret|].
  apply preserves_bind; [apply preserves_pthread_create|]. intros _. apply IH.
Qed.

Lemma preserves_join_workers s k : ∀ i, preserves quiet (join_workers k i s).
Proof.
  induction k as [|k IH]; intros i; cbn [join_workers]; [apply preserves_ret|].
  repeat (apply preserves_bind; [quiet_solve|intros ?]). apply IH.
Qed.

Lemma preserves_start s : preserves quiet (lwt_scheduler_start s).
Proof.
  unfold lwt_scheduler_start.
  repeat first [ apply preserves_start_workers | quiet_step ].
Qed.

Lemma preserves_stop s : preserves quiet (lwt_scheduler_stop s).
Proof.
  unfold lwt_scheduler_stop.
  repeat first [ apply preserves_join_workers | quiet_step ].
Qed.

(** X20 — The scheduling operations only move tasks between states and
    the ready queue.  None of [lwt_yield], [lwt_join], [lwt_sleep], the
    epilogue of the entry trampoline, the body of the worker loop,
    [lwt_scheduler_add_thread], [lwt_scheduler_start],
    [lwt_scheduler_stop] and the queue's push and pop allocates or frees
    a block, creates or removes a task or a scheduler, or changes a task's
    function, argument, stack, stack size, scheduler or id, or a
    scheduler's worker count, worker ids or id counter. *)
Theorem scheduling_is_quiet :
  preserves quiet lwt_yield ∧
  (∀ target, preserves quiet (lwt_join target)) ∧
  (∀ ms, preserves quiet (lwt_sleep ms)) ∧
  (∀ t, preserves quiet (lwt_thread_finish t)) ∧
  (∀ s i, preserves quiet (lwt_worker_iteration s i)) ∧
  (∀ s t, preserves quiet (lwt_scheduler_add_thread s t)) ∧
  (∀ s, preserves quiet (lwt_scheduler_start s)) ∧
  (∀ s, preserves quiet (lwt_scheduler_stop s)) ∧
  (∀ q t, preserves quiet (lwt_queue_push q t)) ∧
  (∀ q, preserves quiet (lwt_queue_pop q)).
Proof.
  split; [apply preserves_yield|]. split; [apply preserves_join|].
  split; [apply preserves_sleep|]. split; [apply preserves_thread_finish|].
  split; [apply preserves_worker_iteration|]. split; [apply preserves_add_thread|].
  split; [apply preserves_start|]. split; [apply preserves_stop|].
  split; [apply preserves_queue_push|].
  intros q. unfold lwt_queue_pop. quiet_solve.
Qed.

Lemma scheduling_is_quiet_witness :
  ∃ σ', lwt_yield 1 (sys_world demo_running) = Some ((), σ') ∧
        quiet (sys_world demo_running) σ'.
Proof.
  destruct (lwt_yield 1 (sys_world demo_running)) as [[[] σ']|] eqn:Hrun;
    [|by vm_compute in Hrun].
  exists σ'. split; [reflexivity|].
  exact (proj1 scheduling_is_quiet 1 (sys_world demo_running) () σ' Hrun).
Defined.

(** * Task ids *)






Lemma create_boot_threads n me orc S σ0 :
  lwt_scheduler_create n me (boot orc) = Some (S, σ0) → S ≠ NULL →
  threads σ0 = ∅ ∧ scheds σ0 !! S = Some (sched_fresh n).
Proof.
  intros Hc HS.
  destruct (decide (1 ≤ n ≤ 64)%Z) as [Hn|Hn].
  2:{ revert Hc. unfold lwt_scheduler_create, LWT_MAX_WORKERS.
      rewrite decide_True by lia. intros [= <- _]. done. }
  destruct (lwt_scheduler_create_total n me (boot orc) Hn)
    as (s0 & σ' & Hc' & _ & _ & _ & _ & Hcase).
  { intros p _. cbn. set_solver. }
  rewrite Hc in Hc'. injection Hc' as <- <-.
  destruct Hcase as [(-> & _)|(_ & _ & _ & _ & Hth & _ & _ & Hsc & _)]; [done|].
  by split.
Qed.




(** * The life cycle of a task *)

Lemma state_edge_refl a : state_edge a a = true.
Proof. by destruct a as [[]|]. Qed.

Lemma state_edge_same σ σ' p :
  threads σ' = threads σ → state_edge (thread_state σ p) (thread_state σ' p) = true.
Proof. intros E. unfold thread_state. rewrite E. apply state_edge_refl. Qed.

Lemma state_edge_one σ σ' t a b :
  thread_state σ t = Some a → state_edge (Some a) (Some b) = true →
  (∀ p, thread_state σ' p = if decide (p = t) then Some b else thread_state σ p) →
  ∀ p, state_edge (thread_state σ p) (thread_state σ' p) = true.
Proof.
  intros Ha Hab Hst p. rewrite Hst. case_decide as Hp.
  - subst p. by rewrite Ha.
  - apply state_edge_refl.
Qed.

Lemma Inv_task_state S σ pc l sc o id t :
  Inv S σ pc l sc → pc !! o = Some (PcTask id) → tls_thread σ !! o = Some t →
  thread_state σ t = Some LWT_STATE_RUNNING.
Proof.
  intros HI Hpc Ht.
  destruct (s_task _ _ _ _ _ _ (inv_state _ _ _ _ _ HI) _ _ Hpc) as (t' & Ht' & Hst).
  cbn in Ht'. congruence.
Qed.

Lemma yield_states S σ pc l sc o id r :
  Inv S σ pc l sc → pc !! o = Some (PcTask id) → lwt_yield o σ = Some r →
  ∀ p, state_edge (thread_state σ p) (thread_state r.2 p) = true.
Proof.
  intros HI Hpc Hrun.
  destruct (Inv_task _ _ _ _ _ _ _ HI Hpc)
    as (t & th & Hcur & Htn & Hth & Hst & Hown & Hin & Hw & Hwr & Hlen & _).
  rewrite (lwt_yield_eval o σ t S id th sc Hcur Htn Hth Hown Hw (inv_sc _ _ _ _ _ HI)
             Hwr Hlen (inv_mutex _ _ _ _ _ HI) (inv_cond _ _ _ _ _ HI)
             (Inv_rep_facts _ _ _ _ _ HI)) in Hrun by congruence.
  injection Hrun as <-. cbn [snd].
  eapply (state_edge_one _ _ t LWT_STATE_RUNNING LWT_STATE_READY);
    [by eapply Inv_task_state|done|].
  intros p. unfold thread_state, upd_world. cbn. rewrite lookup_push_state.
  apply lookup_alter_set; [done|by eexists].
Qed.

Lemma join_states S σ pc l sc o id target r :
  Inv S σ pc l sc → pc !! o = Some (PcTask id) → lwt_join target o σ = Some r →
  ∀ p, state_edge (thread_state σ p) (thread_state r.2 p) = true.
Proof.
  intros HI Hpc Hrun.
  destruct (Inv_task _ _ _ _ _ _ _ HI Hpc)
    as (t & th & Hcur & Htn & Hth & Hst & Hown & Hin & Hw & Hwr & Hlen & _).
  destruct (decide (target = NULL)) as [->|Htgt].
  { unfold lwt_join in Hrun. rewrite decide_True in Hrun by done.
    injection Hrun as <-. intros p. by apply state_edge_same. }
  destruct (lwt_join_alloc o σ target t S id th sc r Hcur Htn Hth Hown Hw
              (inv_sc _ _ _ _ _ HI) Hwr (inv_mutex _ _ _ _ _ HI) Htgt Hrun) as [tth Htth].
  destruct (decide (state tth = LWT_STATE_FINISHED)) as [Hfin|Hfin].
  { rewrite (lwt_join_eval_finished o σ target t S id th sc tth Hcur Htn Hth Hown Hw
               (inv_sc _ _ _ _ _ HI) Hwr (inv_mutex _ _ _ _ _ HI) Htgt Htth Hfin) in Hrun.
    injection Hrun as <-. intros p. by apply state_edge_same. }
  rewrite (lwt_join_eval o σ target t S id th sc tth Hcur Htn Hth Hown Hw
             (inv_sc _ _ _ _ _ HI) Hwr Hlen (inv_mutex _ _ _ _ _ HI) Htgt Htth Hfin) in Hrun.
  injection Hrun as <-. cbn [snd].
  eapply (state_edge_one _ _ t LWT_STATE_RUNNING LWT_STATE_BLOCKED);
    [by eapply Inv_task_state|done|].
  intros p. unfold thread_state, upd_world. cbn. rewrite lookup_alter_proj by done.
  apply lookup_alter_set; [done|by eexists].
Qed.

Lemma sleep_wait_states S σ pc l sc o id ms r :
  Inv S σ pc l sc → pc !! o = Some (PcTask id) → lwt_sleep_wait ms o σ = Some r →
  ∀ p, state_edge (thread_state σ p) (thread_state r.2 p) = true.
Proof.
  intros HI Hpc Hrun.
  destruct (Inv_task _ _ _ _ _ _ _ HI Hpc)
    as (t & th & Hcur & Htn & Hth & Hst & Hown & Hin & Hw & Hwr & Hlen & _).
  rewrite (lwt_sleep_wait_eval o σ ms t S id th sc Hcur Htn Hth Hown Hw
             (inv_sc _ _ _ _ _ HI) Hwr Hlen (inv_mutex _ _ _ _ _ HI)) in Hrun.
  injection Hrun as <-. cbn [snd].
  eapply (state_edge_one _ _ t LWT_STATE_RUNNING LWT_STATE_BLOCKED);
    [by eapply Inv_task_state|done|].
  intros p. unfold thread_state, upd_world. cbn.
  apply lookup_alter_set; [done|by eexists].
Qed.

Lemma sleep_wake_states S σ pc l sc o id t s w r :
  Inv S σ pc l sc → pc !! o = Some (PcSleep id t s w) →
  lwt_sleep_wake t s w o σ = Some r →
  ∀ p, state_edge (thread_state σ p) (thread_state r.2 p) = true.
Proof.
  intros HI Hpc Hrun.
  destruct (s_sleep _ _ _ _ _ _ (inv_state _ _ _ _ _ HI) _ _ _ _ _ Hpc)
    as (-> & -> & Hst & Hun).
  assert (Hal : is_Some (threads σ !! t)).
  { unfold thread_state in Hst. destruct (threads σ !! t); [by eexists|done]. }
  rewrite (lwt_sleep_wake_eval o σ t S id sc Hal (inv_sc _ _ _ _ _ HI)
             (inv_mutex _ _ _ _ _ HI) (inv_cond _ _ _ _ _ HI)
             (Inv_rep_facts _ _ _ _ _ HI)) in Hrun.
  injection Hrun as <-. cbn [snd].
  eapply (state_edge_one _ _ t LWT_STATE_BLOCKED LWT_STATE_READY); [done|done|].
  intros p. unfold thread_state, upd_world. cbn. rewrite lookup_push_state.
  by apply lookup_alter_set.
Qed.

Lemma finish_states S σ pc l sc o id t r :
  Inv S σ pc l sc → pc !! o = Some (PcTask id) → tls_thread σ !! o = Some t →
  lwt_thread_finish t o σ = Some r →
  ∀ p, state_edge (thread_state σ p) (thread_state r.2 p) = true.
Proof.
  intros HI Hpc Hcur' Hrun.
  destruct (Inv_task _ _ _ _ _ _ _ HI Hpc)
    as (t0 & th & Hcur & Htn & Hth & Hst & Hown & Hin & Hw & Hwr & Hlen & _).
  assert (t0 = t) as -> by congruence.
  pose proof (Inv_task_state _ _ _ _ _ _ _ _ HI Hpc Hcur) as Hrunning.
  destruct (decide (waiting th = NULL)) as [Hj|Hj].
  { rewrite (lwt_thread_finish_eval o σ t S id th sc Hcur Htn Hth Hown Hw
               (inv_sc _ _ _ _ _ HI) Hwr Hlen (inv_mutex _ _ _ _ _ HI)
               (inv_cond _ _ _ _ _ HI) Hj) in Hrun.
    injection Hrun as <-. cbn [snd].
    eapply (state_edge_one _ _ t LWT_STATE_RUNNING LWT_STATE_FINISHED); [done|done|].
    intros p. unfold thread_state, upd_world. cbn.
    apply lookup_alter_set; [done|by eexists]. }
  set (j := waiting th) in *.
  assert (Hwt : thread_waiting σ t = Some j) by (unfold thread_waiting; by rewrite Hth).
  pose proof (s_link _ _ _ _ _ _ (inv_state _ _ _ _ _ HI) _ _ Hwt Hj) as Hjb.
  assert (Hjal : is_Some (threads σ !! j)).
  { unfold thread_state in Hjb. destruct (threads σ !! j); [by eexists|done]. }
  assert (Hjt : j ≠ t) by (intros E; rewrite E in Hjb; congruence).
  rewrite (lwt_thread_finish_eval_joiner o σ t S id th sc j Hcur Htn Hth Hown Hw
             (inv_sc _ _ _ _ _ HI) Hwr Hlen (inv_mutex _ _ _ _ _ HI)
             (inv_cond _ _ _ _ _ HI) (Inv_rep_facts _ _ _ _ _ HI) eq_refl Hj Hjt
             Hjal) in Hrun.
  injection Hrun as <-. cbn [snd].
  intros p. unfold thread_state at 2. unfold upd_world. cbn.
  rewrite lookup_alter_proj by done. rewrite lookup_push_state.
  rewrite (lookup_alter_set state (with_state LWT_STATE_READY) LWT_STATE_READY);
    [|done|by apply is_Some_alter].
  case_decide as Hp.
  - subst p. by rewrite Hjb.
  - rewrite (lookup_alter_set state (with_state LWT_STATE_FINISHED) LWT_STATE_FINISHED);
      [|done|by eexists].
    case_decide as Hp'.
    + subst p. by rewrite Hrunning.
    + apply state_edge_refl.
Qed.

Lemma dispatch_states S σ pc l sc o id r :
  Inv S σ pc l sc → pc !! o = Some (PcIdle id) →
  lwt_worker_iteration S id o σ = Some r →
  ∀ p, state_edge (thread_state σ p) (thread_state r.2 p) = true.
Proof.
  intros HI Hpc Hrun.
  destruct (inv_S _ _ _ _ _ HI) as [HS _].
  destruct (decide (running_flag sc = 0%Z ∨ head (ready_queue sc) = NULL)) as [Hidle|Hbusy].
  { rewrite (lwt_worker_iteration_idle S id o σ sc HS (inv_sc _ _ _ _ _ HI)
               (inv_mutex _ _ _ _ _ HI) Hidle) in Hrun.
    injection Hrun as <-. intros p. by apply state_edge_same. }
  assert (Hf : running_flag sc ≠ 0%Z) by tauto.
  assert (Hh : head (ready_queue sc) ≠ NULL) by tauto.
  destruct l as [|t l].
  { exfalso. apply Hh. by destruct (inv_rep _ _ _ _ _ HI) as (Hc & _). }
  destruct (rep_head _ _ _ _ (inv_rep _ _ _ _ _ HI)) as (Hhd & Htn & th & Hth).
  destruct (inv_wid _ _ _ _ _ HI o id) as [Hw Hwr]; [by left|].
  assert (Hlen : (0 ≤ id < Z.of_nat (length (running sc)))%Z).
  { destruct (inv_arrays _ _ _ _ _ HI) as [-> _]. pose proof (inv_nw _ _ _ _ _ HI). lia. }
  rewrite (lwt_worker_iteration_run S id o σ sc th HS (inv_sc _ _ _ _ _ HI)
             (inv_mutex _ _ _ _ _ HI) Hf Hh ltac:(by rewrite Hhd) Hlen) in Hrun.
  injection Hrun as <-. cbn [snd]. rewrite Hhd.
  eapply (state_edge_one _ _ t LWT_STATE_READY LWT_STATE_RUNNING); [|done|].
  - apply (s_ready _ _ _ _ _ _ (inv_state _ _ _ _ _ HI)). set_solver.
  - intros p. unfold thread_state. cbn.
    rewrite (lookup_alter_set state (with_state LWT_STATE_RUNNING) LWT_STATE_RUNNING);
      [|done|].
    + case_decide; [done|]. unfold pop_threads. by rewrite lookup_alter_proj.
    + unfold pop_threads. apply is_Some_alter. by eexists.
Qed.

Lemma create_states S σ pc l sc me f a r :
  Inv S σ pc l sc → lwt_create S f a me σ = Some r →
  ∀ p, state_edge (thread_state σ p) (thread_state r.2 p) = true.
Proof.
  intros HI Hrun. destruct r as [r σ'].
  destruct (lwt_create_outcome _ _ _ _ _ _ _ _ _ _ HI Hrun)
    as [(_ & (Hth & _) & _)
       |(Hr & Hfn & stk & rest & Hm & Hfresh & Hstk & Hsfresh & Hne & Hgc)].
  { intros p. by apply state_edge_same. }
  destruct (lwt_create_success S σ pc l sc me f a r stk rest HI Hfn Hm Hr Hfresh Hstk
              Hsfresh Hne Hgc) as (σ2 & Hrun2 & _ & Hth & _ & _ & Hst & _).
  rewrite Hrun in Hrun2. injection Hrun2 as <-. cbn [snd].
  intros p. destruct (decide (p = r)) as [->|Hp].
  - assert (Hnone : thread_state σ r = None).
    { unfold thread_state. destruct (threads σ !! r) eqn:E; [|done].
      exfalso. apply Hfresh, (proj1 (inv_wf _ _ _ _ _ HI)). by eexists. }
    rewrite Hnone. unfold thread_state. by rewrite Hth.
  - rewrite (Hst p Hp). apply state_edge_refl.
Qed.

Lemma start_threads S σ pc l sc me r :
  Inv S σ pc l sc → lwt_scheduler_start S me σ = Some r → threads r.2 = threads σ.
Proof.
  intros HI. destruct (inv_S _ _ _ _ _ HI) as [HS _].
  unfold lwt_scheduler_start. rewrite decide_False by done.
  unfold mbind at 1. unfold M_bind at 1.
  rewrite (load_sched_eval _ _ _ _ (inv_sc _ _ _ _ _ HI)). cbv beta iota.
  destruct (decide (running_flag sc = 0%Z)) as [Hf|Hf].
  2:{ rewrite decide_True by done. by intros [= <-]. }
  rewrite decide_False by (intuition congruence).
  pose proof (inv_sc _ _ _ _ _ HI) as Hsc. pose proof (inv_mutex _ _ _ _ _ HI) as Hmx.
  destruct σ as [h ss lv tt tw os e tr]. cbn in Hsc.
  unfold mbind at 1. unfold M_bind at 1.
  unfold mbind at 1. unfold M_bind at 1.
  unfold mbind at 1. unfold M_bind at 1.
  mrun5.
  match goal with |- context [start_workers ?k 0 S me ?σ1] =>
    edestruct (start_workers_spec S me k 0 σ1)
      as (σ' & ws & Hrun & Hth & _)
  end.
  { cbn. apply lookup_insert_eq. }
  { cbn. destruct (inv_arrays _ _ _ _ _ HI) as [_ ->]. pose proof (inv_nw _ _ _ _ _ HI). lia. }
  rewrite Hrun. by intros [= <-].
Qed.

Lemma exec_states S a s s' :
  invariant S s → exec S a s = Some s' →
  ∀ p, state_edge (thread_state (sys_world s) p) (thread_state (sys_world s') p) = true.
Proof.
  intros (l & sc & HI) He. destruct s as [σ pc]. cbn [sys_world sys_pc] in HI.
  destruct a as [me func arg mem rcs|me|o|o|o|o|o target|o ms now|o|o];
    cbn [exec sys_world sys_pc] in He.
  - match type of He with context [lwt_create ?a ?b ?c ?d ?e] =>
      destruct (lwt_create a b c d e) as [[x σ']|] eqn:E; [|done] end.
    cbn in He. injection He as <-.
    apply (create_states S _ pc l sc me func arg (x, σ') (Inv_env _ _ _ _ _ _ HI) E).
  - rewrite (inv_sc _ _ _ _ _ HI) in He. cbn in He.
    destruct (lwt_scheduler_start S me σ) as [[x σ']|] eqn:E; [|done]. cbn in He.
    destruct (scheds σ' !! S) as [sc'|] eqn:Hsc'; [|done]. cbn in He.
    injection He as <-. intros p. apply state_edge_same.
    exact (start_threads S σ pc l sc me (x, σ') HI E).
  - destruct (pc !! o) as [[i| | | |]|] eqn:Hpc; try done.
    destruct (scheds σ !! S) as [sc0|]; [|done]. cbn in He.
    destruct (worker_ids sc0 !! i) as [x|]; [|done]. cbn in He.
    injection He as <-. intros p. by apply state_edge_same.
  - destruct (pc !! o) as [[|id| | |]|] eqn:Hpc; try done.
    rewrite lwt_worker_iteration_null in He. cbn in He. injection He as <-.
    intros p. apply state_edge_refl.
  - destruct (pc !! o) as [[|id| | |]|] eqn:Hpc; try done.
    destruct (lwt_worker_iteration S id o σ) as [[x σ']|] eqn:E; [|done].
    cbn in He. injection He as <-.
    exact (dispatch_states S σ pc l sc o id (x, σ') HI Hpc E).
  - destruct (pc !! o) as [[| |id| |]|] eqn:Hpc; try done.
    + destruct (lwt_yield o σ) as [[x σ']|] eqn:E; [|done].
      cbn in He. injection He as <-.
      exact (yield_states S σ pc l sc o id (x, σ') HI Hpc E).
    + rewrite lwt_yield_eval_outside in He by (by eapply Inv_outside_task).
      cbn in He. injection He as <-. intros p. apply state_edge_refl.
  - destruct (pc !! o) as [[| |id| |]|] eqn:Hpc; try done.
    + destruct (lwt_join target o σ) as [[x σ']|] eqn:E; [|done].
      cbn in He. injection He as <-.
      exact (join_states S σ pc l sc o id target (x, σ') HI Hpc E).
    + rewrite lwt_join_eval_outside in He by (by eapply Inv_outside_task).
      cbn in He. injection He as <-. intros p. apply state_edge_refl.
  - pose proof (Inv_env _ _ _ _ _ (Oracle (mallocs (env σ)) (syscalls (env σ)) now) HI)
      as HI'.
    destruct (pc !! o) as [[| |id| |]|] eqn:Hpc; try done.
    + match type of He with context [lwt_sleep_wait ?a ?b ?c] =>
        destruct (lwt_sleep_wait a b c) as [[x σ']|] eqn:E; [|done] end.
      cbn in He. injection He as <-.
      exact (sleep_wait_states S _ pc l sc o id ms (x, σ') HI' Hpc E).
    + rewrite lwt_sleep_eval_outside in He by (by eapply Inv_outside_task).
      cbn in He. injection He as <-. intros p. by apply state_edge_same.
  - destruct (pc !! o) as [[| | |id t s w|]|] eqn:Hpc; try done.
    destruct (lwt_sleep_wake t s w o σ) as [[x σ']|] eqn:E; [|done].
    cbn in He. injection He as <-.
    exact (sleep_wake_states S σ pc l sc o id t s w (x, σ') HI Hpc E).
  - destruct (pc !! o) as [[| |id| |]|] eqn:Hpc; try done.
    destruct (tls_thread σ !! o) as [t|] eqn:Ht; [|done]. cbn in He.
    destruct (lwt_thread_finish t o σ) as [[x σ']|] eqn:E; [|done].
    cbn in He. injection He as <-.
    exact (finish_states S σ pc l sc o id t (x, σ') HI Hpc Ht E).
Qed.

Lemma execs_no_new S acts : ∀ s s',
  invariant S s → (∀ t, thread_state (sys_world s) t ≠ Some LWT_STATE_NEW) →
  execs S acts s = Some s' →
  ∀ t, thread_state (sys_world s') t ≠ Some LWT_STATE_NEW.
Proof.
  induction acts as [|a acts IH]; intros s s' Hinv Hnew He; cbn in He.
  - by injection He as <-.
  - destruct (exec S a s) as [s1|] eqn:E; [|done]. cbn in He.
    eapply (IH s1); [by eapply exec_inv| |exact He].
    intros t Ht. pose proof (exec_states S a s s1 Hinv E t) as Hedge.
    rewrite Ht in Hedge. specialize (Hnew t).
    by destruct (thread_state (sys_world s) t) as [[]|].
Qed.

(** X22 — Every step of the runtime moves each task along its life cycle
    and in no other way: from a reachable state, one more operation
    leaves a task's state unchanged, makes a task that did not exist
    READY, or changes READY to RUNNING, RUNNING to READY, to BLOCKED or to
    FINISHED, or BLOCKED to READY.  So no task disappears, a FINISHED task
    stays FINISHED, and no task of a reachable state is still NEW. *)
Theorem task_life_cycle S s a s' :
  reachable S s → exec S a s = Some s' →
  (∀ t, state_edge (thread_state (sys_world s) t) (thread_state (sys_world s') t) = true) ∧
  (∀ t, is_Some (thread_state (sys_world s) t) → is_Some (thread_state (sys_world s') t)) ∧
  (∀ t, thread_state (sys_world s) t = Some LWT_STATE_FINISHED →
        thread_state (sys_world s') t = Some LWT_STATE_FINISHED) ∧
  (∀ t, thread_state (sys_world s) t ≠ Some LWT_STATE_NEW).
Proof.
  intros Hreach He.
  pose proof (exec_states S a s s' (reachable_invariant _ _ Hreach) He) as Hedge.
  split; [exact Hedge|]. split; [|split].
  - intros t [x Hx]. specialize (Hedge t). rewrite Hx in Hedge.
    destruct (thread_state (sys_world s') t); [by eexists|by destruct x].
  - intros t Hx. specialize (Hedge t). rewrite Hx in Hedge.
    by destruct (thread_state (sys_world s') t) as [[]|].
  - destruct Hreach as (n & me & orc & σ0 & acts & Hc & HS & Hex).
    apply (execs_no_new S acts (System σ0 ∅) s); [| |exact Hex].
    + exists [], (sched_fresh n). by eapply create_boot_inv.
    + intros t. destruct (create_boot_threads _ _ _ _ _ Hc HS) as [Hth _].
      unfold thread_state. cbn. by rewrite Hth.
Qed.

Lemma task_life_cycle_witness :
  ∃ s', exec 100 (AYield 1) demo_running = Some s' ∧
        ∀ t, state_edge (thread_state (sys_world demo_running) t)
                        (thread_state (sys_world s') t) = true.
Proof.
  destruct (exec 100 (AYield 1) demo_running) as [s'|] eqn:E; [|by vm_compute in E].
  exists s'. split; [reflexivity|].
  exact (proj1 (task_life_cycle 100 demo_running (AYield 1) s' demo_running_reachable E)).
Defined.

(** * Round robin *)

Lemma execs_snoc S acts a : ∀ s s1 s2,
  execs S acts s = Some s1 → exec S a s1 = Some s2 → execs S (acts ++ [a]) s = Some s2.
Proof.
  induction acts as [|b acts IH]; intros s s1 s2 H1 H2; cbn in *.
  - injection H1 as <-. by rewrite H2.
  - destruct (exec S b s) as [s0|]; [|done]. cbn in *. by eapply IH.
Qed.

Lemma reachable_step S a s s' : reachable S s → exec S a s = Some s' → reachable S s'.
Proof.
  intros (n & me & orc & σ0 & acts & Hc & HS & He) Hstep.
  exists n, me, orc, σ0, (acts ++ [a]). split; [done|]. split; [done|].
  by eapply execs_snoc.
Qed.

(** X23 — Yielding is round robin.  When a running task [t] yields while
    the ready queue holds [l], and the worker then goes once through its
    loop, the worker runs the head of [l ++ [t]] and the queue holds the
    rest: with an empty queue [t] itself is resumed at once, otherwise
    the task that waited longest runs and [t] waits behind every task
    that was queued when it yielded. *)
Theorem yield_round_robin S s o id t l sc :
  reachable S s → sys_pc s !! o = Some (PcTask id) →
  tls_thread (sys_world s) !! o = Some t →
  queue_tasks (sys_world s) S = l →
  scheds (sys_world s) !! S = Some sc → running_flag sc ≠ 0%Z →
  ∃ s1 s2,
    exec S (AYield o) s = Some s1 ∧
    queue_tasks (sys_world s1) S = l ++ [t] ∧
    sys_pc s1 !! o = Some (PcIdle id) ∧
    exec S (ADispatch o) s1 = Some s2 ∧
    sys_pc s2 !! o = Some (PcTask id) ∧
    tls_thread (sys_world s2) !! o = Some (hd t l) ∧
    thread_state (sys_world s2) (hd t l) = Some LWT_STATE_RUNNING ∧
    queue_tasks (sys_world s2) S = drop 1 (l ++ [t]).
Proof.
  intros Hreach Hpc Ht Hq Hsc Hf. destruct s as [σ pc]. cbn [sys_world sys_pc] in *.
  destruct (reachable_invariant _ _ Hreach) as (l0 & sc0 & HI). cbn in HI.
  assert (sc0 = sc) as -> by (pose proof (inv_sc _ _ _ _ _ HI); congruence).
  assert (Hr : queue_rep σ S l0).
  { exists sc. split; [done|apply (inv_rep _ _ _ _ _ HI)]. }
  rewrite (queue_tasks_rep _ _ _ Hr) in Hq. subst l0.
  destruct (Inv_task _ _ _ _ _ _ _ HI Hpc)
    as (t' & th & Hcur & Htn & Hth & Hst & Hown & Hin & Hw & Hwr & Hlen & _).
  assert (t' = t) as -> by congruence.
  pose proof (lwt_yield_eval o σ t S id th sc Hcur Htn Hth Hown Hw Hsc
                Hwr Hlen (inv_mutex _ _ _ _ _ HI) (inv_cond _ _ _ _ _ HI)
                (Inv_rep_facts _ _ _ _ _ HI) ltac:(congruence)) as Hy.
  set (σ1 := upd_world
               (push_threads (alter (with_state LWT_STATE_READY) t (threads σ))
                  (tail (ready_queue sc)) t)
               (<[S := sched_after (push_queue (ready_queue sc) t) (clear_slot id sc) sc]>
                  (scheds σ))
               [EvLock S; EvState t LWT_STATE_READY; EvPush S t; EvRunning S id NULL;
                EvSignal S; EvUnlock S; EvSwap (CtxThread t) (CtxMain S id)] σ) in *.
  assert (Hsw : switched σ σ1 = true) by (by eapply switched_upd).
  set (s1 := System σ1 (<[o := PcIdle id]> pc)).
  assert (He1 : exec S (AYield o) (System σ pc) = Some s1).
  { cbn [exec sys_world sys_pc]. rewrite Hpc, Hy. cbn. by rewrite Hsw. }
  assert (Hq1 : queue_tasks σ1 S = l ++ [t]).
  { apply queue_tasks_rep. eapply queue_rep_upd; [apply lookup_insert_eq|]. cbn.
    apply rep_push_ready; [apply HI|by eexists|done|done]. }
  assert (Hpc1 : sys_pc s1 !! o = Some (PcIdle id)) by apply lookup_insert_eq.
  pose proof (reachable_step _ _ _ _ Hreach He1) as Hreach1.
  assert (Hq1' : queue_tasks (sys_world s1) S = hd t l :: drop 1 (l ++ [t])).
  { cbn [sys_world s1]. rewrite Hq1. by destruct l. }
  destruct (dispatch_head S s1 o id _ (hd t l) (drop 1 (l ++ [t])) Hreach1 Hpc1
              ltac:(cbn; apply lookup_insert_eq) Hf Hq1')
    as (σ2 & Hrun & _ & Hst2 & Hq2 & Hcur2 & _).
  exists s1, (System σ2 (<[o := PcTask id]> (sys_pc s1))).
  split; [exact He1|]. split; [exact Hq1|]. split; [exact Hpc1|].
  split.
  { cbn [exec sys_world sys_pc s1]. cbn [sys_world sys_pc s1] in Hrun.
    rewrite lookup_insert_eq, Hrun. done. }
  cbn [sys_world sys_pc]. split; [apply lookup_insert_eq|]. by repeat split.
Qed.

Lemma yield_round_robin_witness :
  ∃ s1 s2,
    exec 100 (AYield 1) demo_running = Some s1 ∧
    queue_tasks (sys_world s1) 100 = [3] ++ [1] ∧
    exec 100 (ADispatch 1) s1 = Some s2 ∧
    tls_thread (sys_world s2) !! 1 = Some 3 ∧
    queue_tasks (sys_world s2) 100 = [1].
Proof.
  edestruct (yield_round_robin 100 demo_running 1 0%Z 1 [3])
    as (s1 & s2 & H1 & H2 & _ & H3 & _ & H4 & _ & H5).
  - exact demo_running_reachable.
  - by vm_compute.
  - by vm_compute.
  - by vm_compute.
  - vm_compute. reflexivity.
  - done.
  - exists s1, s2. split; [exact H1|]. split; [exact H2|]. split; [exact H3|].
    split; [exact H4|exact H5].
Defined.

(** * Size and emptiness through the locking entry points *)

(** X24 — On a queue that holds the tasks [l] and whose mutex is free,
    [lwt_queue_size] returns the length of [l] and [lwt_queue_empty]
    returns 1 when [l] is empty and 0 otherwise; each call takes and
    releases the queue mutex and changes nothing else.  On a NULL queue
    they return 0 and 1 and touch nothing. *)
Theorem queue_size_empty_spec q me σ l :
  q ≠ NULL → queue_rep σ q l →
  (qmutex ∘ ready_queue) <$> scheds σ !! q = Some MxUnlocked →
  (∃ σ', lwt_queue_size q me σ = Some (Z.of_nat (length l), σ') ∧
         lwt_queue_empty q me σ = Some (if decide (l = []) then 1%Z else 0%Z, σ') ∧
         same_data σ σ' ∧ emitted σ σ' = [EvQLock q; EvQUnlock q]) ∧
  lwt_queue_size NULL me σ = Some (0%Z, σ) ∧
  lwt_queue_empty NULL me σ = Some (1%Z, σ).
Proof.
  intros Hn (sc & Hsc & Hrep) Hm. split; [|done].
  rewrite Hsc in Hm. cbn in Hm. injection Hm as Hm.
  eexists. split; [|split; [|split]].
  - rewrite (lwt_queue_size_eval q me σ sc Hn Hsc Hm).
    destruct Hrep as (_ & _ & -> & _). reflexivity.
  - rewrite (lwt_queue_empty_eval q me σ sc Hn Hsc Hm). f_equal. f_equal.
    destruct l as [|a l].
    + assert (Hh : head (ready_queue sc) = NULL) by apply Hrep.
      by rewrite !decide_True.
    + destruct (rep_head _ _ _ _ Hrep) as (Hh & Han & _).
      rewrite !decide_False; [done|done|congruence].
  - by repeat split.
  - apply emitted_set_trace.
Qed.

Lemma queue_size_empty_spec_witness :
  ∃ σ', lwt_queue_size 100 0 (sys_world demo_running) = Some (1%Z, σ') ∧
        lwt_queue_empty 100 0 (sys_world demo_running) = Some (0%Z, σ') ∧
        same_data (sys_world demo_running) σ'.
Proof.
  destruct (queue_size_empty_spec 100 0 (sys_world demo_running) [3]
              ltac:(done) demo_running_rep ltac:(by vm_compute))
    as ((σ' & H1 & H2 & H3 & _) & _).
  exists σ'. split; [exact H1|]. split; [exact H2|exact H3].
Defined.
